(** * nova-agent: a shallow embedding of the tool-using agent server

    The development follows the server sources:

    - [server/src/agent/retrieval.ts]  (module [Retrieval])
    - [server/src/agent/tools.ts]      (module [Tools])
    - [server/src/agent/novaClient.ts] (module [NovaClient])
    - [server/src/routes/agent.ts]     (module [AgentRoute])

    JavaScript strings are modelled by [string]: a sequence of code units
    below 256 (the Latin-1 range), and the one code unit above them that
    the sources write, the ellipsis U+2026.  Integers are [Z].  Host functions whose
    code is not part of the repository ([JSON.parse], [JSON.stringify],
    [String] on non-strings) are fields of the class [Host]; the Bedrock
    service is reached through the operations of a small free monad. *)

From stdpp Require Import base strings list gmap sorting pretty.
From Stdlib Require Import ZArith QArith Ascii Lia.

Open Scope string_scope.
Open Scope Z_scope.

(** ** Host strings *)

Module Js.

(** The code unit of a character.  The character 133 stands for the
    ellipsis U+2026, the one code unit above 255 that the sources write;
    the control character U+0085 whose place it takes is, like the
    ellipsis, no space, no letter and no digit, and has no place in
    JSON syntax. *)
Definition code (c : ascii) : Z :=
  let n := Z.of_nat (nat_of_ascii c) in
  if n =? 133 then 8230 else n.

(** The characters matched by [\s] in a regular expression and removed by
    [String.prototype.trim], among the code units below 256:
    TAB, LF, VT, FF, CR, SPACE and NBSP. *)
Definition is_space (c : ascii) : bool :=
  let n := code c in
  ((9 <=? n) && (n <=? 13)) || (n =? 32) || (n =? 160).

Definition is_upper_ascii (c : ascii) : bool :=
  let n := code c in (65 <=? n) && (n <=? 90).

(** Upper-case letters of the Latin-1 supplement: U+00C0..U+00DE but U+00D7. *)
Definition is_upper_latin1 (c : ascii) : bool :=
  let n := code c in (192 <=? n) && (n <=? 222) && negb (n =? 215).

Definition lower_char (c : ascii) : ascii :=
  if is_upper_ascii c || is_upper_latin1 c
  then ascii_of_nat (nat_of_ascii c + 32)
  else c.

Fixpoint map_chars (f : ascii -> ascii) (s : string) : string :=
  match s with
  | EmptyString => EmptyString
  | String c s' => String (f c) (map_chars f s')
  end.

Definition toLowerCase (s : string) : string := map_chars lower_char s.

Fixpoint trimStart (s : string) : string :=
  match s with
  | String c s' => if is_space c then trimStart s' else s
  | EmptyString => EmptyString
  end.

(** [trimEnd] keeps a character when it is not a space or when something
    is left after it. *)
Fixpoint trimEnd (s : string) : string :=
  match s with
  | EmptyString => EmptyString
  | String c s' =>
      match trimEnd s' with
      | EmptyString => if is_space c then EmptyString else String c EmptyString
      | rest => String c rest
      end
  end.

Definition trim (s : string) : string := trimEnd (trimStart s).

Definition startsWith (s pre : string) : bool := String.prefix pre s.

(** [s.slice(n)] and [s.slice(0, -n)] for a count [n]. *)
Definition dropStart (n : nat) (s : string) : string :=
  String.substring n (String.length s - n) s.

Definition dropEnd (n : nat) (s : string) : string :=
  String.substring 0 (String.length s - n) s.

Definition endsWith (s suf : string) : bool :=
  (String.length suf <=? String.length s)%nat
  && String.eqb (dropStart (String.length s - String.length suf) s) suf.

(** The double quote, which a literal cannot hold. *)
Definition dq : string := String (ascii_of_nat 34) EmptyString.
Definition quoted (s : string) : string := dq ++ s ++ dq.
Definition nl : string := String (ascii_of_nat 10) EmptyString.

Fixpoint includes (s sub : string) : bool :=
  String.prefix sub s ||
  match s with
  | EmptyString => false
  | String _ s' => includes s' sub
  end.

Definition len (s : string) : Z := Z.of_nat (String.length s).

(** [s.indexOf(c)] for a one-character needle; [-1] when absent. *)
Fixpoint indexOf (s : string) (c : ascii) : Z :=
  match s with
  | EmptyString => -1
  | String d s' =>
      if Ascii.eqb d c then 0
      else let i := indexOf s' c in if i <? 0 then -1 else i + 1
  end.

(** [s.lastIndexOf(c)]: once a later occurrence is known it wins. *)
Fixpoint lastIndexOf (s : string) (c : ascii) : Z :=
  match s with
  | EmptyString => -1
  | String d s' =>
      let i := lastIndexOf s' c in
      if 0 <=? i then i + 1
      else if Ascii.eqb d c then 0 else -1
  end.

(** Index normalisation shared by [String.prototype.slice] and
    [Array.prototype.slice]: a negative index counts from the end. *)
Definition relIndex (n i : Z) : Z :=
  if i <? 0 then Z.max (n + i) 0 else Z.min i n.

Definition slice (s : string) (start stop : Z) : string :=
  let from := relIndex (len s) start in
  let to := relIndex (len s) stop in
  String.substring (Z.to_nat from) (Z.to_nat (to - from)) s.

Definition arraySlice {A} (l : list A) (start stop : Z) : list A :=
  let n := Z.of_nat (length l) in
  let from := relIndex n start in
  let to := relIndex n stop in
  take (Z.to_nat (to - from)) (drop (Z.to_nat from) l).

(** [l.slice(start)]: the end defaults to the length. *)
Definition arraySliceFrom {A} (l : list A) (start : Z) : list A :=
  arraySlice l start (Z.of_nat (length l)).

(** [s.split(/\s+/)]: pieces between maximal runs of spaces; a run at
    either end leaves an empty piece there. *)
Fixpoint splitSpacesFrom (s cur : string) (inRun : bool) : list string :=
  match s with
  | EmptyString => [cur]
  | String c s' =>
      if is_space c then
        if inRun then splitSpacesFrom s' cur true
        else cur :: splitSpacesFrom s' EmptyString true
      else splitSpacesFrom s' (cur ++ String c EmptyString) false
  end.

Definition splitSpaces (s : string) : list string :=
  splitSpacesFrom s EmptyString false.

(** [Array.prototype.sort(cmp)].  The language requires the sort to be
    stable; it is modelled by insertion from the right, which moves an
    element past those that must come before it and no further. *)
Section Sort.
Context {A : Type} (cmp : A -> A -> Z).

Fixpoint sortInsert (x : A) (l : list A) : list A :=
  match l with
  | [] => [x]
  | y :: l' => if cmp x y <=? 0 then x :: y :: l' else y :: sortInsert x l'
  end.

Fixpoint arraySort (l : list A) : list A :=
  match l with
  | [] => []
  | x :: l' => sortInsert x (arraySort l')
  end.
End Sort.

(** [l.join('')] and [l.join(sep)] on strings. *)
Definition join (sep : string) (l : list string) : string := String.concat sep l.

(** *** Values

    What [JSON.parse] produces, and [undefined] for an absent property.
    Numbers are integers; an object is the list of its own properties. *)
#[warnings="-register-all"]
Inductive value :=
| VUndefined
| VNull
| VBool (b : bool)
| VNumber (n : Z)
| VString (s : string)
| VArray (items : list value)
| VObject (fields : list (string * value)).

Fixpoint lookupField (k : string) (fields : list (string * value)) : option value :=
  match fields with
  | [] => None
  | (k', v) :: rest => if String.eqb k k' then Some v else lookupField k rest
  end.

(** [v.k] for the property names the sources read; none of them is a
    property of a string, a number, a boolean or an array. *)
Definition get (v : value) (k : string) : value :=
  match v with
  | VObject fields => default VUndefined (lookupField k fields)
  | _ => VUndefined
  end.

(** [k in v] on an object or an array. *)
Definition hasProperty (k : string) (v : value) : bool :=
  match v with
  | VObject fields => bool_decide (is_Some (lookupField k fields))
  | _ => false
  end.

Definition truthy (v : value) : bool :=
  match v with
  | VUndefined | VNull => false
  | VBool b => b
  | VNumber n => negb (n =? 0)
  | VString s => negb (String.eqb s EmptyString)
  | VArray _ | VObject _ => true
  end.

(** [typeof v === 'object'] holds of [null], of arrays and of objects. *)
Definition typeofObject (v : value) : bool :=
  match v with
  | VNull | VArray _ | VObject _ => true
  | _ => false
  end.

(** [v === s] for a string literal [s]. *)
Definition isStr (v : value) (s : string) : bool :=
  match v with
  | VString t => String.eqb t s
  | _ => false
  end.

(** Thrown values.  Everything thrown in the sources or by the SDK is an
    object; a field is [None] when the property is not a string (for
    [metadata]: not an object). *)
Record Metadata := mkMetadata {
  httpStatusCode : value;
  requestId : value;
  attempts : value;
  totalRetryDelay : value
}.

Record JsError := mkJsError {
  err_name : option string;
  err_message : option string;
  err_code : option string;
  err_fault : option string;
  err_metadata : option Metadata
}.

(** [new Error(msg)] *)
Definition newError (msg : string) : JsError :=
  mkJsError (Some "Error") (Some msg) None None None.

Inductive completion (A : Type) :=
| Normal (a : A)
| Throw (e : JsError).
Arguments Normal {A} a.
Arguments Throw {A} e.

(** The host functions the sources call. *)
Class Host := {
  (** [JSON.parse(text)]; throws a [SyntaxError] on malformed text. *)
  JSON_parse : string -> completion value;
  (** [JSON.stringify(v)] for [v] other than [undefined]. *)
  JSON_stringify : value -> string;
  (** [String(v)] for a number, an array or an object, when it returns. *)
  String_of : value -> string;
  (** The [TypeError] thrown when an object has no primitive value. *)
  toPrimitiveError : JsError;
  (** [String(err)] for a thrown object. *)
  String_of_error : JsError -> string;
  (** The [TypeError] thrown when a method is read from [undefined]. *)
  undefinedReadError : string -> JsError
}.

(** [JSON.stringify(v)]: [undefined] is the one value of [value] that has
    no JSON text. *)
Definition stringify `{Host} (v : value) : option string :=
  match v with
  | VUndefined => None
  | _ => Some (JSON_stringify v)
  end.

(** [String(v)] throws on a value without a primitive value.  Among the
    values of [value] these are the objects with an own property
    [toString], which hides the inherited method and is not callable (the
    inherited [valueOf] returns the object itself), and the arrays that
    hold such a value: [join] turns every item but [null] and [undefined]
    into a string. *)
Fixpoint unprintable (v : value) : bool :=
  match v with
  | VObject fields => bool_decide (is_Some (lookupField "toString" fields))
  | VArray items => existsb unprintable items
  | _ => false
  end.

(** [String(v)] *)
Definition toString `{Host} (v : value) : completion string :=
  if unprintable v then Throw toPrimitiveError
  else
    Normal
      match v with
      | VString s => s
      | VUndefined => "undefined"
      | VNull => "null"
      | VBool true => "true"
      | VBool false => "false"
      | _ => String_of v
      end.

(** Interpolation [`${x}`] of a string that may be [undefined]. *)
Definition interpolate (x : option string) : string := default "undefined" x.

End Js.

(** ** retrieval.ts *)

Module Retrieval.

Record RetrievalHit := mkHit {
  hit_id : string;
  hit_title : string;
  hit_snippet : string;
  hit_score : Z
}.

Record Doc := mkDoc {
  doc_id : string;
  doc_title : string;
  doc_text : string
}.

Definition DOCS : list Doc :=
  [ mkDoc "hackathon-submission" "Hackathon submission checklist"
      (Js.join Js.nl
         [ "Pick one category.";
           "Provide a brief text description explaining what you built and how you leverage Amazon Nova.";
           "Provide a demo video around 3 minutes showing the project functioning and include #AmazonNova.";
           "Provide a code repository link (share access if private)." ]);
    mkDoc "nova-act-summary" "Nova Act summary"
      (Js.join Js.nl
         [ "Nova Act is an AWS service to build and manage fleets of reliable AI agents for automating production UI workflows at scale.";
           "It automates browser workflows and can integrate with external tools via API calls and remote MCP." ]);
    mkDoc "agentic-best-practices" "Agentic demo best practices"
      (Js.join Js.nl
         [ "Show a clear goal, a plan, tool usage, and a trace of steps.";
           "Keep the demo crisp and within 3 minutes.";
           "Make errors visible and actionable (missing credentials, missing model access)." ]) ].

(** The class [[a-z0-9\s]] kept by the [replace] of [tokenize]. *)
Definition is_lower_alnum (c : ascii) : bool :=
  let n := Js.code c in
  ((97 <=? n) && (n <=? 122)) || ((48 <=? n) && (n <=? 57)).

Definition blank (c : ascii) : ascii :=
  if is_lower_alnum c || Js.is_space c then c else " "%char.

Definition tokenize (s : string) : list string :=
  filter (λ t, t ≠ EmptyString)
    (Js.splitSpaces (Js.map_chars blank (Js.toLowerCase s))).

(** The pair [{ d, score }] built by the [map] of [retrieve]. *)
Record Scored := mkScored { d : Doc; score : Z }.

Definition scoreDoc (q : list string) (doc : Doc) : Scored :=
  let t := tokenize (doc_title doc ++ " " ++ doc_text doc) in
  let termSet : gset string := list_to_set t in
  let score :=
    foldl (λ acc term, acc + (if bool_decide (term ∈ termSet) then 1 else 0)) 0 q in
  mkScored doc score.

Definition byScoreDesc (a b : Scored) : Z := score b - score a.

(** The ellipsis U+2026 appended to a cut snippet: one code unit. *)
Definition ellipsis : string := String (ascii_of_nat 133) EmptyString.

Definition toHit (x : Scored) : RetrievalHit :=
  let snippet :=
    if Js.len (doc_text (d x)) >? 400
    then Js.slice (doc_text (d x)) 0 400 ++ ellipsis
    else doc_text (d x) in
  mkHit (doc_id (d x)) (doc_title (d x)) snippet (score x).

(** The chain [map / filter / sort] of [retrieve], before [slice]. *)
Definition ranked (q : list string) : list Scored :=
  Js.arraySort byScoreDesc
    (filter (λ x, score x > 0) (map (scoreDoc q) DOCS)).

Definition retrieve (query : string) (limit : Z) : list RetrievalHit :=
  let q := tokenize query in
  if Z.of_nat (length q) =? 0 then []
  else
    let scored := Js.arraySlice (ranked q) 0 limit in
    map toHit scored.

End Retrieval.


(** ** tools.ts *)

Module Tools.
Import Js.

(** [draft] is a string by its declared type; [writeDraft] stores
    [undefined] there when its input has no JSON text, hence the option. *)
Record ToolContext := mkToolContext {
  draft : option string;
  plan : list string
}.

(** The members of [ToolResultMap]. *)
Inductive ToolResult :=
| PlanResult (plan : list string)
| HitsResult (hits : list Retrieval.RetrievalHit)
| DraftResult (draft : option string).

Definition createToolContext : ToolContext := mkToolContext (Some EmptyString) [].

Section WithHost.
Context {H : Host}.

(** [typeof input === 'string' ? input : JSON.stringify(input)] *)
Definition inputText (input : value) : option string :=
  match input with
  | VString s => Some s
  | _ => stringify input
  end.

Definition makePlan (ctx : ToolContext) (input : value) : ToolContext * ToolResult :=
  let goal := inputText input in
  let plan :=
    [ "Understand the goal: " ++ interpolate goal;
      "Retrieve relevant context and constraints";
      "Propose an approach and key steps";
      "Draft the output";
      "Refine and finalize" ] in
  (mkToolContext (draft ctx) plan, PlanResult plan).

(** When [query] is [undefined] the call [s.toLowerCase()] at the head
    of [tokenize] throws. *)
Definition retrieve (ctx : ToolContext) (input : value)
  : ToolContext * completion ToolResult :=
  match inputText input with
  | Some query =>
      let hits := Retrieval.retrieve query 5 in
      (ctx, Normal (HitsResult hits))
  | None => (ctx, Throw (undefinedReadError "toLowerCase"))
  end.

Definition writeDraft (ctx : ToolContext) (input : value) : ToolContext * ToolResult :=
  let text := inputText input in
  let ctx' := mkToolContext text (plan ctx) in
  (ctx', DraftResult (draft ctx')).
End WithHost.

End Tools.

(** ** Programs that call a service

    A program either returns or performs an operation and continues with
    its reply.  The replies are chosen by the environment, so a property of
    every path of a program holds of every run of the code. *)

Section Prog.
Context (Op : Type) (Res : Op -> Type).

Inductive prog (A : Type) : Type :=
| Ret (a : A)
| Do (op : Op) (k : Res op -> prog A).
Arguments Ret {A} a.
Arguments Do {A} op k.

Fixpoint bind {A B} (m : prog A) (f : A -> prog B) : prog B :=
  match m with
  | Ret a => f a
  | Do op k => Do op (fun r => bind (k r) f)
  end.

(** One operation and the reply it received. *)
Definition event : Type := { op : Op & Res op }.

(** [exec m tr a]: some run of [m] performs the operations of [tr], gets
    the replies of [tr], and returns [a]. *)
Inductive exec {A} : prog A -> list event -> A -> Prop :=
| exec_ret a : exec (Ret a) [] a
| exec_do op k (r : Res op) tr a :
    exec (k r) tr a -> exec (Do op k) (existT op r :: tr) a.

(** Running a program against replies chosen from the call number and the
    operation. *)
Fixpoint run {A} (reply : nat -> forall op, Res op) (n : nat) (m : prog A)
  : list event * A :=
  match m with
  | Ret a => ([], a)
  | Do op k =>
      let r := reply n op in
      let '(tr, a) := run reply (S n) (k r) in
      (existT op r :: tr, a)
  end.
End Prog.

Arguments Ret {Op Res A} a.
Arguments Do {Op Res A} op k.
Arguments bind {Op Res A B} m f.
Arguments exec {Op Res A} _ _ _.
Arguments run {Op Res A} reply n m.

(** ** novaClient.ts *)

Module NovaClient.
Import Js.

Inductive Role := user | assistant.

Record Message := mkMessage { role : Role; content : string }.

Record NovaTextOptions := mkOptions {
  modelId : string;
  system : option string;
  messages : list Message;
  maxTokens : option Z;
  temperature : option Q
}.

(** The SDK's [Message]: a role and its text blocks. *)
Record BedrockMessage := mkBedrockMessage {
  b_role : Role;
  b_content : list string
}.

Definition toBedrockMessages (messages : list Message) : list BedrockMessage :=
  map (fun m => mkBedrockMessage (role m) [content m]) messages.

Record InferenceConfig := mkInferenceConfig {
  cfg_maxTokens : Z;
  cfg_temperature : Q
}.

(** What both commands carry: [system], [messages], [inferenceConfig]. *)
Record Payload := mkPayload {
  p_system : option (list string);
  p_messages : list BedrockMessage;
  p_inferenceConfig : InferenceConfig
}.

(** [opts.system ? [{ text: opts.system }] : undefined] *)
Definition systemBlocks (opts : NovaTextOptions) : option (list string) :=
  match system opts with
  | Some s => if String.eqb s EmptyString then None else Some [s]
  | None => None
  end.

Definition payload (opts : NovaTextOptions) : Payload :=
  mkPayload (systemBlocks opts) (toBedrockMessages (messages opts))
    (mkInferenceConfig (default 800 (maxTokens opts))
       (default (2 # 10)%Q (temperature opts))).

(** The two commands sent with [client.send]; the client, with its region,
    is what answers them.  The body of [InvokeModelCommand] is kept
    structured: its serialisation and the decoding of the response bytes
    belong to the transport. *)
Inductive Command :=
| ConverseCommand (c_modelId : string) (input : Payload)
| InvokeModelCommand (i_modelId contentType accept : string) (body : Payload).

(** A content block of a Converse response: text, or another kind. *)
Inductive ContentBlock :=
| TextBlock (text : string)
| OtherBlock.

(** [resp.output?.message?.content], [None] when a link is missing. *)
Record ConverseOutput := mkConverseOutput { out_content : option (list ContentBlock) }.

(** [new TextDecoder().decode(resp.body)] *)
Record InvokeOutput := mkInvokeOutput { textBody : string }.

Definition Reply (c : Command) : Type :=
  match c with
  | ConverseCommand _ _ => completion ConverseOutput
  | InvokeModelCommand _ _ _ _ => completion InvokeOutput
  end.

(** Code that talks to Bedrock and then returns or throws. *)
Definition Bedrock (A : Type) : Type := prog Command Reply (completion A).

Definition partText (p : value) : string :=
  match get p "text" with
  | VString t => t
  | _ => EmptyString
  end.

Definition extractTextFromConverseLikeJson (json : value) : string :=
  let parts := get (get (get json "output") "message") "content" in
  let flat :=
    match get json "outputText" with
    | VString s => s
    | _ =>
    match get json "generation" with
    | VString s => s
    | _ =>
    match get json "completion" with
    | VString s => s
    | _ =>
    match get json "text" with
    | VString s => s
    | _ => EmptyString
    end end end end in
  match parts with
  | VArray ps =>
      let text := join EmptyString (map partText ps) in
      if String.eqb text EmptyString then flat else text
  | _ => flat
  end.

Definition blockText (p : ContentBlock) : string :=
  match p with
  | TextBlock t => t
  | OtherBlock => EmptyString
  end.

Section WithHost.
Context {H : Host}.

(** The statements of [invokeModelFallback] after [client.send] has
    settled. *)
Definition invokeText (resp : completion InvokeOutput) : completion string :=
  match resp with
  | Throw e => Throw e
  | Normal resp =>
      match JSON_parse (textBody resp) with
      | Throw e => Throw e
      | Normal json =>
          let text := extractTextFromConverseLikeJson json in
          if String.eqb text EmptyString
          then Throw (newError "Empty model response from Bedrock InvokeModel API")
          else Normal text
      end
  end.

Definition invokeModelFallback (opts : NovaTextOptions) : Bedrock string :=
  Do (InvokeModelCommand (modelId opts) "application/json" "application/json" (payload opts))
    (fun resp : completion InvokeOutput => Ret (invokeText resp)).

(** The body of the [try] block once [client.send] has settled. *)
Definition converseText (resp : completion ConverseOutput) : completion string :=
  match resp with
  | Throw e => Throw e
  | Normal resp =>
      let parts := default [] (out_content resp) in
      let text := join EmptyString (map blockText parts) in
      if String.eqb text EmptyString
      then Throw (newError "Empty model response from Bedrock Converse API")
      else Normal text
  end.

(** The test of the [catch] block. *)
Definition operationNotAllowed (err : JsError) : bool :=
  let name := default EmptyString (err_name err) in
  let msg := default EmptyString (err_message err) in
  String.eqb name "ValidationException"
  && includes (toLowerCase msg) "operation not allowed".

Definition isInferenceProfileArn (opts : NovaTextOptions) : bool :=
  startsWith (modelId opts) "arn:aws:bedrock:"
  && includes (modelId opts) ":inference-profile/".

Definition novaConverseText (opts : NovaTextOptions) : Bedrock string :=
  if isInferenceProfileArn opts then invokeModelFallback opts
  else
    Do (ConverseCommand (modelId opts) (payload opts))
      (fun resp : completion ConverseOutput =>
         match converseText resp with
         | Normal text => Ret (Normal text)
         | Throw err =>
             if operationNotAllowed err then invokeModelFallback opts
             else Ret (Throw err)
         end).
End WithHost.

End NovaClient.

(** ** routes/agent.ts *)

Module AgentRoute.
Import Js NovaClient Tools.

Inductive ToolName := MakePlan | Retrieve | WriteDraft.

Definition toolNameText (t : ToolName) : string :=
  match t with
  | MakePlan => "makePlan"
  | Retrieve => "retrieve"
  | WriteDraft => "writeDraft"
  end.

Inductive AgentStep :=
| StepModel (output : string)
| StepTool (tool : ToolName) (input : value) (output : ToolResult)
| StepError (message : string).

Record AgentResult := mkResult {
  final : string;
  result_steps : list AgentStep
}.

(** The type guard [isToolName]: [Some t] is the narrowing [x is ToolName],
    [None] the answer [false]. *)
Definition isToolName (x : value) : option ToolName :=
  if isStr x "makePlan" then Some MakePlan
  else if isStr x "retrieve" then Some Retrieve
  else if isStr x "writeDraft" then Some WriteDraft
  else None.

Definition fence : string := "```".

(** [trimmed.match(/^```(?:json)?\s*([\s\S]*?)\s*```$/i)], its group 1.
    The pattern matches when the text opens with a fence and what follows
    closes with one; [json], in any case, and the spaces next to the
    fences stay out of the group. *)
Definition fenceMatch (trimmed : string) : option string :=
  if startsWith trimmed fence then
    let rest := dropStart 3 trimmed in
    if endsWith rest fence then
      let inner := dropEnd 3 rest in
      let inner :=
        if startsWith (toLowerCase inner) "json" then dropStart 4 inner else inner in
      Some (trimEnd (trimStart inner))
    else None
  else None.

Definition extractJsonObject (text : string) : string :=
  let trimmed := trim text in
  let candidate :=
    match fenceMatch trimmed with
    | Some group => trim group
    | None => trimmed
    end in
  if startsWith candidate "{" || startsWith candidate "[" then candidate
  else
    let firstBrace := indexOf candidate "{" in
    let lastBrace := lastIndexOf candidate "}" in
    if (firstBrace >=? 0) && (lastBrace >? firstBrace)
    then slice candidate firstBrace (lastBrace + 1)
    else
      let firstBracket := indexOf candidate "[" in
      let lastBracket := lastIndexOf candidate "]" in
      if (firstBracket >=? 0) && (lastBracket >? firstBracket)
      then slice candidate firstBracket (lastBracket + 1)
      else candidate.

Record ErrorDetails := mkDetails {
  d_name : option string;
  d_message : string;
  d_code : option string;
  d_fault : option string;
  d_metadata : option Metadata
}.

(** The bodies passed to [res.json], one constructor per shape. *)
Inductive ResponseBody :=
| BodyError (error : string)
| BodyResult (result : AgentResult)
| BodyErrorSteps (error : string) (steps : list AgentStep)
| BodyFailure (error : string) (details : ErrorDetails) (hint : string)
    (steps : list AgentStep).

Record Response := mkResponse { status : Z; body : ResponseBody }.

(** The property names of a response body. *)
Definition bodyKeys (b : ResponseBody) : list string :=
  match b with
  | BodyError _ => ["error"]
  | BodyResult _ => ["final"; "steps"]
  | BodyErrorSteps _ _ => ["error"; "steps"]
  | BodyFailure _ _ _ _ => ["error"; "details"; "hint"; "steps"]
  end.

(** [process.env] and the parts of the request the handler reads. *)
Record Env := mkEnv {
  DEMO_API_KEY : option string;
  NOVA_MODEL_ID : option string;
  AWS_REGION : option string
}.

Record Request := mkRequest {
  demoApiKeyHeader : option string;
  req_body : value
}.

(** The state the handler mutates during a run. *)
Record RunState := mkRun {
  steps : list AgentStep;
  messages : list Message;
  toolCtx : ToolContext
}.

(** How one iteration of the loop ends after the model has answered. *)
Inductive TurnOutcome :=
| Respond (result : AgentResult) (st : RunState)
| Continue (st : RunState)
| Thrown (err : JsError) (st : RunState).

(** How the [try] block ends. *)
Inductive LoopExit :=
| Finished (result : AgentResult) (st : RunState)
| OutOfTurns (st : RunState)
| Caught (err : JsError) (st : RunState).

Definition hitValue (h : Retrieval.RetrievalHit) : value :=
  VObject [ ("id", VString (Retrieval.hit_id h));
            ("title", VString (Retrieval.hit_title h));
            ("snippet", VString (Retrieval.hit_snippet h));
            ("score", VNumber (Retrieval.hit_score h)) ].

Definition optionalString (s : option string) : value :=
  match s with
  | Some t => VString t
  | None => VUndefined
  end.

Definition resultValue (r : ToolResult) : value :=
  match r with
  | PlanResult plan => VObject [("plan", VArray (map VString plan))]
  | HitsResult hits => VObject [("hits", VArray (map hitValue hits))]
  | DraftResult draft => VObject [("draft", optionalString draft)]
  end.

Definition system : string :=
  "You are an agent. You MUST respond with a single JSON object only (no markdown, no extra text). "
  ++ "Choose one: "
  ++ "{" ++ quoted "action" ++ ":" ++ quoted "tool" ++ "," ++ quoted "tool" ++ ":"
  ++ quoted "makePlan" ++ "|" ++ quoted "retrieve" ++ "|" ++ quoted "writeDraft"
  ++ "," ++ quoted "input" ++ ":...} "
  ++ "or {" ++ quoted "action" ++ ":" ++ quoted "final" ++ "," ++ quoted "output"
  ++ ":" ++ quoted "..." ++ "}. "
  ++ "You are continuing a conversation; use the prior messages for context when answering follow-ups. "
  ++ "Be reliable: if you need constraints or context, call retrieve.".

Definition maxTurns : nat := 8.

Definition invalidDecision : string :=
  "Model did not return valid JSON decision. Ensure the model is following the JSON-only contract.".

Definition outOfTurns : string :=
  "Agent exceeded max turns without producing a final answer.".

(** One model invocation: the operation of the loop; its reply is the
    settled promise of [novaConverseText]. *)
Definition ModelReply (_ : NovaTextOptions) : Type := completion string.
Definition Agent (A : Type) : Type := prog NovaTextOptions ModelReply A.

(** [x ?? y] *)
Definition orElse (x y : value) : value :=
  match x with
  | VUndefined | VNull => y
  | _ => x
  end.

(** The entry kept for a member of [body.messages], or [null]. *)
Definition historyEntry (m : value) : option Message :=
  let role := get m "role" in
  let content := get m "content" in
  if negb (isStr role "user") && negb (isStr role "assistant") then None
  else
    match content with
    | VString c =>
        let trimmed := trim c in
        if String.eqb trimmed EmptyString then None
        else Some (mkMessage (if isStr role "user" then user else assistant) trimmed)
    | _ => None
    end.

(** [filter], [map], [filter] on the non-null results, [slice(-12)]. *)
Definition history (body : value) : list Message :=
  match get body "messages" with
  | VArray ms =>
      arraySliceFrom
        (omap historyEntry (List.filter (fun m => truthy m && typeofObject m) ms))
        (-12)
  | _ => []
  end.

Definition trimmedString (v : value) : string :=
  match v with
  | VString s => trim s
  | _ => EmptyString
  end.

Definition goalTurn (goal context : string) : Message :=
  mkMessage user
    (goal
     ++ (if String.eqb context EmptyString then EmptyString
         else nl ++ nl ++ "Context:" ++ nl ++ context)
     ++ nl ++ nl
     ++ "If needed, start by making a plan, then use tools as needed, then finalize.").

Definition initialMessages (body : value) : list Message :=
  history body
  ++ [goalTurn (trimmedString (get body "goal")) (trimmedString (get body "context"))].

Section WithHost.
Context {H : Host}.

Definition safeJsonParse (text : string) : value :=
  match JSON_parse (extractJsonObject text) with
  | Normal v => v
  | Throw _ => VNull
  end.

Definition toErrorDetails (err : JsError) : ErrorDetails :=
  mkDetails (err_name err)
    (match err_message err with
     | Some m => m
     | None => String_of_error err
     end)
    (err_code err) (err_fault err) (err_metadata err).

Definition callTool (tool : ToolName) (ctx : ToolContext) (input : value)
  : ToolContext * completion ToolResult :=
  match tool with
  | MakePlan => let '(ctx', r) := makePlan ctx input in (ctx', Normal r)
  | Retrieve => retrieve ctx input
  | WriteDraft => let '(ctx', r) := writeDraft ctx input in (ctx', Normal r)
  end.

(** The statements both tool branches run: call the tool, record the
    step, feed the output back as a user turn, [continue]. *)
Definition toolTurn (st : RunState) (tool : ToolName) (input : value) : TurnOutcome :=
  match callTool tool (toolCtx st) input with
  | (ctx', Throw e) => Thrown e (mkRun (steps st) (messages st) ctx')
  | (ctx', Normal toolOutput) =>
      Continue
        (mkRun
           (steps st ++ [StepTool tool input toolOutput])
           (messages st
            ++ [mkMessage user
                  (JSON_stringify
                     (VObject [ ("tool", VString (toolNameText tool));
                                ("output", resultValue toolOutput) ]))])
           ctx')
  end.

(** The body of the loop after [await novaConverseText]. *)
Definition turn (st0 : RunState) (modelText : string) : TurnOutcome :=
  let st :=
    mkRun (steps st0 ++ [StepModel modelText])
      (messages st0 ++ [mkMessage assistant modelText])
      (toolCtx st0) in
  let parsed := safeJsonParse modelText in
  if negb (truthy parsed) || negb (typeofObject parsed)
     || negb (hasProperty "action" parsed)
  then Thrown (newError invalidDecision) st
  else if isStr (get parsed "action") "final"
  then
    match toString (orElse (get parsed "output") (VString EmptyString)) with
    | Normal final => Respond (mkResult final (steps st)) st
    | Throw e => Thrown e st
    end
  else
    match isToolName (get parsed "action") with
    | Some tool => toolTurn st tool (get parsed "input")
    | None =>
        if isStr (get parsed "action") "tool" then
          match isToolName (get parsed "tool") with
          | None =>
              match toString (get parsed "tool") with
              | Normal name => Thrown (newError ("Unknown or missing tool: " ++ name)) st
              | Throw e => Thrown e st
              end
          | Some tool => toolTurn st tool (get parsed "input")
          end
        else
          match toString (get parsed "action") with
          | Normal name => Thrown (newError ("Unknown model action: " ++ name)) st
          | Throw e => Thrown e st
          end
    end.

Definition options (modelId : string) (st : RunState) : NovaTextOptions :=
  mkOptions modelId (Some system) (messages st) (Some 700) (Some (2 # 10)%Q).

(** The [for] loop, by recursion on the turns that remain
    ([maxTurns - turn]). *)
Fixpoint agentLoop (modelId : string) (turnsLeft : nat) (st : RunState)
  : Agent LoopExit :=
  match turnsLeft with
  | O => Ret (OutOfTurns st)
  | S rest =>
      Do (options modelId st)
        (fun reply : completion string =>
           match reply with
           | Throw err => Ret (Caught err st)
           | Normal modelText =>
               match turn st modelText with
               | Respond result st' => Ret (Finished result st')
               | Continue st' => agentLoop modelId rest st'
               | Thrown err st' => Ret (Caught err st')
               end
           end)
  end.

Definition hint (env : Env) : string :=
  "If this is an AWS/Bedrock issue, verify AWS_REGION="
  ++ default "(unset)" (AWS_REGION env)
  ++ ", credentials, Bedrock model access, and NOVA_MODEL_ID.".

(** What the handler sends once the [try] block is left. *)
Definition respond (env : Env) (exit : LoopExit) : Response :=
  match exit with
  | Finished result _ => mkResponse 200 (BodyResult result)
  | OutOfTurns st => mkResponse 500 (BodyErrorSteps outOfTurns (steps st))
  | Caught err st =>
      let details := toErrorDetails err in
      let message := d_message details in
      mkResponse 500
        (BodyFailure message details (hint env) (steps st ++ [StepError message]))
  end.

Definition nonEmpty (s : option string) : option string :=
  match s with
  | Some t => if String.eqb t EmptyString then None else Some t
  | None => None
  end.

Definition initialState (body : value) : RunState :=
  mkRun [] (initialMessages body) createToolContext.

(** [router.post('/agent', ...)] *)
Definition handler (env : Env) (req : Request) : Agent Response :=
  let refused :=
    match nonEmpty (DEMO_API_KEY env) with
    | Some expectedKey =>
        negb (bool_decide (demoApiKeyHeader req = Some expectedKey))
    | None => false
    end in
  if refused then Ret (mkResponse 401 (BodyError "Unauthorized"))
  else
    let body := orElse (req_body req) (VObject []) in
    let goal := trimmedString (get body "goal") in
    if String.eqb goal EmptyString
    then Ret (mkResponse 400 (BodyError "Missing required field: goal"))
    else
      match nonEmpty (NOVA_MODEL_ID env) with
      | None =>
          Ret (mkResponse 500
                 (BodyError "Missing NOVA_MODEL_ID. Set it in your server environment (and ensure Bedrock model access is enabled)."))
      | Some modelId =>
          bind (agentLoop modelId maxTurns (initialState body))
            (fun exit => Ret (respond env exit))
      end.
End WithHost.

End AgentRoute.

(** ** A reference host

    A reader for the JSON texts of the examples below (integers, strings
    with the one-character escapes, arrays, objects, the three literals)
    and fixed texts for the other host functions. *)

Module RefHost.
Import Js.

Definition isJsonSpace (c : ascii) : bool :=
  let n := code c in (n =? 32) || (n =? 9) || (n =? 10) || (n =? 13).

Fixpoint skipSpaces (s : string) : string :=
  match s with
  | String c s' => if isJsonSpace c then skipSpaces s' else s
  | EmptyString => EmptyString
  end.

Definition isDigit (c : ascii) : bool :=
  let n := code c in (48 <=? n) && (n <=? 57).

Fixpoint readDigits (s : string) (acc : Z) : Z * string :=
  match s with
  | String c s' =>
      if isDigit c then readDigits s' (10 * acc + (code c - 48)) else (acc, s)
  | EmptyString => (acc, EmptyString)
  end.

Definition unescape (c : ascii) : option ascii :=
  let n := code c in
  if (n =? 34) || (n =? 92) || (n =? 47) then Some c
  else if n =? 110 then Some (ascii_of_nat 10)
  else if n =? 116 then Some (ascii_of_nat 9)
  else if n =? 114 then Some (ascii_of_nat 13)
  else if n =? 98 then Some (ascii_of_nat 8)
  else if n =? 102 then Some (ascii_of_nat 12)
  else None.

(** The characters of a string literal after its opening quote. *)
Fixpoint readString (s : string) : option (string * string) :=
  match s with
  | EmptyString => None
  | String c s' =>
      if code c =? 34 then Some (EmptyString, s')
      else if code c =? 92 then
        match s' with
        | String e s'' =>
            match unescape e, readString s'' with
            | Some u, Some (t, rest) => Some (String u t, rest)
            | _, _ => None
            end
        | EmptyString => None
        end
      else if code c <? 32 then None
      else
        match readString s' with
        | Some (t, rest) => Some (String c t, rest)
        | None => None
        end
  end.

(** A later member replaces an earlier one of the same name. *)
Fixpoint setField (k : string) (v : value) (fields : list (string * value))
  : list (string * value) :=
  match fields with
  | [] => [(k, v)]
  | (k', v') :: rest =>
      if String.eqb k k' then (k, v) :: rest else (k', v') :: setField k v rest
  end.

Fixpoint readValue (fuel : nat) (s : string) : option (value * string) :=
  match fuel with
  | O => None
  | S fuel' =>
      match s with
      | EmptyString => None
      | String c s' =>
          if code c =? 123 then readMembers fuel' (skipSpaces s') []
          else if code c =? 91 then readItems fuel' (skipSpaces s') []
          else if code c =? 34 then
            match readString s' with
            | Some (t, rest) => Some (VString t, rest)
            | None => None
            end
          else if String.prefix "true" s then Some (VBool true, dropStart 4 s)
          else if String.prefix "false" s then Some (VBool false, dropStart 5 s)
          else if String.prefix "null" s then Some (VNull, dropStart 4 s)
          else if isDigit c then
            let '(n, rest) := readDigits s 0 in Some (VNumber n, rest)
          else if code c =? 45 then
            match s' with
            | String d _ =>
                if isDigit d
                then let '(n, rest) := readDigits s' 0 in Some (VNumber (- n), rest)
                else None
            | EmptyString => None
            end
          else None
      end
  end
with readMembers (fuel : nat) (s : string) (acc : list (string * value))
  : option (value * string) :=
  match fuel with
  | O => None
  | S fuel' =>
      match s with
      | EmptyString => None
      | String c s' =>
          if (code c =? 125) && bool_decide (acc = []) then Some (VObject acc, s')
          else if code c =? 34 then
            match readString s' with
            | Some (k, rest) =>
                match skipSpaces rest with
                | String colon rest' =>
                    if code colon =? 58 then
                      match readValue fuel' (skipSpaces rest') with
                      | Some (v, rest'') =>
                          let acc' := setField k v acc in
                          match skipSpaces rest'' with
                          | String e more =>
                              if code e =? 125 then Some (VObject acc', more)
                              else if code e =? 44
                              then readMembers fuel' (skipSpaces more) acc'
                              else None
                          | EmptyString => None
                          end
                      | None => None
                      end
                    else None
                | EmptyString => None
                end
            | None => None
            end
          else None
      end
  end
with readItems (fuel : nat) (s : string) (acc : list value)
  : option (value * string) :=
  match fuel with
  | O => None
  | S fuel' =>
      match s with
      | EmptyString => None
      | String c s' =>
          if (code c =? 93) && bool_decide (acc = []) then Some (VArray acc, s')
          else
            match readValue fuel' s with
            | Some (v, rest) =>
                let acc' := (acc ++ [v])%list in
                match skipSpaces rest with
                | String e more =>
                    if code e =? 93 then Some (VArray acc', more)
                    else if code e =? 44 then readItems fuel' (skipSpaces more) acc'
                    else None
                | EmptyString => None
                end
            | None => None
            end
      end
  end.

(** The characters of a string literal that JSON writes escaped. *)
Fixpoint escape (s : string) : string :=
match s with
| EmptyString => EmptyString
| String c s' =>
    let n := code c in
    (if n =? 34 then "\" ++ dq
     else if n =? 92 then "\\"
     else if n =? 10 then "\n"
     else if n =? 13 then "\r"
     else if n =? 9 then "\t"
     else String c EmptyString)
    ++ escape s'
end.

(** [JSON.stringify]: a member whose value is [undefined] is left out, an
    item that is [undefined] is written [null]. *)
Fixpoint stringifyValue (v : value) : string :=
match v with
| VUndefined | VNull => "null"
| VBool true => "true"
| VBool false => "false"
| VNumber n => pretty n
| VString s => quoted (escape s)
| VArray items => "[" ++ join "," (map stringifyValue items) ++ "]"
| VObject fields =>
    "{"
    ++ join ","
         ((fix members (fs : list (string * value)) : list string :=
             match fs with
             | [] => []
             | (k, VUndefined) :: rest => members rest
             | (k, x) :: rest =>
                 (quoted (escape k) ++ ":" ++ stringifyValue x) :: members rest
             end) fields)
    ++ "}"
end.

(** [String(v)]: the items of an array are joined by commas, [null] and
    [undefined] items being empty. *)
Fixpoint stringOf (v : value) : string :=
match v with
| VUndefined => "undefined"
| VNull => "null"
| VBool true => "true"
| VBool false => "false"
| VNumber n => pretty n
| VString s => s
| VArray items =>
    join ","
      (map (fun x => match x with
                     | VUndefined | VNull => EmptyString
                     | _ => stringOf x
                     end) items)
| VObject _ => "[object Object]"
end.

Definition syntaxError : JsError :=
  mkJsError (Some "SyntaxError") (Some "Unexpected token in JSON") None None None.

Definition parse (text : string) : completion value :=
  match readValue (S (String.length text)) (skipSpaces text) with
  | Some (v, rest) =>
      match skipSpaces rest with
      | EmptyString => Normal v
      | _ => Throw syntaxError
      end
  | None => Throw syntaxError
  end.

Definition host : Host := {|
  JSON_parse := parse;
  JSON_stringify := stringifyValue;
  String_of := stringOf;
  toPrimitiveError :=
    mkJsError (Some "TypeError") (Some "Cannot convert object to primitive value")
      None None None;
  String_of_error := fun e =>
    default "Error" (err_name e) ++ ": " ++ default EmptyString (err_message e);
  undefinedReadError := fun p =>
    mkJsError (Some "TypeError")
      (Some ("Cannot read properties of undefined (reading '" ++ p ++ "')"))
      None None None
|}.

End RefHost.

(** ** Vocabulary of the statements *)

Module Spec.
Import Js Retrieval NovaClient Tools AgentRoute.

(** The comparator that sorts by a key, larger keys first, and the lists it
    leaves. *)
Definition byKeyDesc {A} (key : A -> Z) (a b : A) : Z := key b - key a.

Definition descending {A} (key : A -> Z) : list A -> Prop :=
  StronglySorted (λ a b, key b <= key a).

(** The token set of a document: the tokens of its title and body. *)
Definition docTokenSet (doc : Doc) : gset string :=
  list_to_set (tokenize (doc_title doc ++ " " ++ doc_text doc)).

(** The occurrences of query tokens, repeated ones counted each time,
    that belong to the token set of the document. *)
Definition overlap (q : list string) (doc : Doc) : Z :=
  Z.of_nat (length (filter (λ term, term ∈ docTokenSet doc) q)).

Definition scoredAs (q : list string) (doc : Doc) : Scored :=
  mkScored doc (overlap q doc).

Definition hitFor (q : list string) (doc : Doc) : RetrievalHit :=
  toHit (scoredAs q doc).

(** [occurs c s]: the character [c] is somewhere in [s]. *)
Fixpoint occurs (c : ascii) (s : string) : Prop :=
  match s with
  | EmptyString => False
  | String x s' => x = c ∨ occurs c s'
  end.

(** The text the extraction works on: the trimmed text, without its
    fence when it has one. *)
Definition candidateOf (text : string) : string :=
  match fenceMatch (trim text) with
  | Some group => trim group
  | None => trim text
  end.

(** The inside of a fenced block without its [json] tag. *)
Definition untagged (inner : string) : string :=
  if startsWith (toLowerCase inner) "json" then dropStart 4 inner else inner.

Definition opens (s : string) : Prop :=
  startsWith s "{" = true ∨ startsWith s "[" = true.

(** Some [o] of [s] comes before some [cl] of [s]. *)
Definition hasPair (o cl : ascii) (s : string) : Prop :=
  ∃ pre mid post, s = pre ++ String o (mid ++ String cl post).

(** [r] is the part of [s] from its first [o] to its last [cl]. *)
Definition enclosed (o cl : ascii) (s r : string) : Prop :=
  ∃ pre mid post,
    s = pre ++ r ++ post
    ∧ r = String o (mid ++ String cl EmptyString)
    ∧ ¬ occurs o pre ∧ ¬ occurs cl post.

(** The five steps as the claim words them, on the text as it is
    given. *)
Definition extractAsWorded (text : string) : string :=
  let stripped := default text (fenceMatch text) in
  if startsWith stripped "{" || startsWith stripped "[" then stripped
  else
    let firstBrace := indexOf stripped "{" in
    let lastBrace := lastIndexOf stripped "}" in
    if (firstBrace >=? 0) && (lastBrace >? firstBrace)
    then slice stripped firstBrace (lastBrace + 1)
    else
      let firstBracket := indexOf stripped "[" in
      let lastBracket := lastIndexOf stripped "]" in
      if (firstBracket >=? 0) && (lastBracket >? firstBracket)
      then slice stripped firstBracket (lastBracket + 1)
      else text.

(** A parsed value that is an object with an [action] property. *)
Definition carriesAction (v : value) : Prop :=
  ∃ fields a, v = VObject fields ∧ lookupField "action" fields = Some a.

(** The extracted text does not parse, or parses to something that is
    no object with an [action] property. *)
Definition undecodable `{Host} (text : string) : Prop :=
  match JSON_parse (extractJsonObject text) with
  | Throw _ => True
  | Normal v => ¬ carriesAction v
  end.

(** The state after the Model step and the assistant turn of one
    iteration are recorded. *)
Definition heard (st : RunState) (modelText : string) : RunState :=
  mkRun (steps st ++ [StepModel modelText])%list
    (AgentRoute.messages st ++ [mkMessage assistant modelText])%list
    (toolCtx st).

Definition isModelStep (s : AgentStep) : bool :=
  match s with
  | StepModel _ => true
  | _ => false
  end.

Definition countModel (l : list AgentStep) : nat :=
  length (List.filter isModelStep l).

(** The run state a loop exit leaves behind. *)
Definition exitState (exit : LoopExit) : RunState :=
  match exit with
  | Finished _ st | OutOfTurns st | Caught _ st => st
  end.

(** The steps a response carries, none when its body has no [steps]. *)
Definition transcript (resp : Response) : list AgentStep :=
  match body resp with
  | BodyError _ => []
  | BodyResult result => result_steps result
  | BodyErrorSteps _ steps => steps
  | BodyFailure _ _ _ steps => steps
  end.

(** The reply of one model invocation of a run. *)
Definition replyOf (e : event NovaTextOptions ModelReply) : completion string :=
  projT2 e.

Definition succeeded (r : completion string) : bool :=
  match r with
  | Normal _ => true
  | Throw _ => false
  end.

(** The state reached when each of the model texts is a tool decision
    that is carried out, [None] as soon as one is not. *)
Fixpoint continued `{Host} (st : RunState) (texts : list string) : option RunState :=
  match texts with
  | [] => Some st
  | text :: rest =>
      match turn st text with
      | Continue st' => continued st' rest
      | _ => None
      end
  end.

(** The error of a dispatch on an unknown tool. *)
Definition unknownToolError (err : JsError) : Prop :=
  ∃ name, err = newError ("Unknown or missing tool: " ++ name).

(** The names of the tools, and the values that name one. *)
Definition toolNames : list string := ["makePlan"; "retrieve"; "writeDraft"].

Definition namesTool (v : value) : Prop :=
  ∃ name, name ∈ toolNames ∧ v = VString name.

(** A value that [String] cannot turn into a string: an object with an
    own property [toString], or an array that holds such a value. *)
Inductive noString : value -> Prop :=
| noString_object fields x :
    lookupField "toString" fields = Some x -> noString (VObject fields)
| noString_array items v :
    v ∈ items -> noString v -> noString (VArray items).

(** [sub] is a part of [s]; [s] begins with [pre]. *)
Definition contains (s sub : string) : Prop := ∃ pre post, s = pre ++ sub ++ post.

Definition beginsWith (s pre : string) : Prop := ∃ rest, s = pre ++ rest.

(** A model id that is the ARN of an inference profile. *)
Definition profileArn (id : string) : Prop :=
  beginsWith id "arn:aws:bedrock:" ∧ contains id ":inference-profile/".

(** A rejection of the validation class that says the operation is not
    allowed, in any letter case. *)
Definition notAllowed (err : JsError) : Prop :=
  err_name err = Some "ValidationException"
  ∧ ∃ msg, err_message err = Some msg
           ∧ contains (toLowerCase msg) "operation not allowed".

(** The text of the content blocks of a Converse response: the texts of
    its text blocks, one after the other. *)
Definition textBlocks (parts : list ContentBlock) : string :=
  foldr (λ p acc, match p with TextBlock t => t ++ acc | OtherBlock => acc end)
    EmptyString parts.

(** The text a content block of a response body holds: its [text], when
    the block is an object whose [text] is a string. *)
Definition textOfBlock (p : value) : string :=
  match p with
  | VObject fields =>
      match lookupField "text" fields with
      | Some (VString t) => t
      | _ => EmptyString
      end
  | _ => EmptyString
  end.

(** The text of the structured content blocks of a response body. *)
Definition blocksText (json : value) : string :=
  match get (get (get json "output") "message") "content" with
  | VArray ps => foldr (λ p acc, textOfBlock p ++ acc) EmptyString ps
  | _ => EmptyString
  end.

(** The flat fields, in the order they are tried. *)
Definition flatFields : list string :=
  ["outputText"; "generation"; "completion"; "text"].

Definition stringField (json : value) (k : string) : option string :=
  match get json k with
  | VString s => Some s
  | _ => None
  end.

(** The first flat field that holds a string, empty or not. *)
Fixpoint firstString (json : value) (ks : list string) : string :=
  match ks with
  | [] => EmptyString
  | k :: ks' =>
      match stringField json k with
      | Some s => s
      | None => firstString json ks'
      end
  end.

(** The reading "the first non-empty match wins" over all candidates. *)
Fixpoint firstNonEmpty (candidates : list string) : string :=
  match candidates with
  | [] => EmptyString
  | c :: cs => if String.eqb c EmptyString then firstNonEmpty cs else c
  end.

Definition firstNonEmptyCandidate (json : value) : string :=
  firstNonEmpty
    (blocksText json :: map (λ k, default EmptyString (stringField json k)) flatFields).

Definition converseSend (opts : NovaTextOptions) : Command :=
  ConverseCommand (modelId opts) (payload opts).

Definition invokeSend (opts : NovaTextOptions) : Command :=
  InvokeModelCommand (modelId opts) "application/json" "application/json" (payload opts).




(** The members of [body.messages] that are objects. *)
Definition objectMembers (ms : list value) : list value :=
  List.filter (fun m => truthy m && typeofObject m) ms.

(** The valid, non-empty entries of [body.messages], in order. *)
Definition validEntries (body : value) : list Message :=
  match get body "messages" with
  | VArray ms => omap historyEntry (objectMembers ms)
  | _ => []
  end.
End Spec.

(** ** Scenarios for the examples *)

Module Scenario.
Import Js NovaClient Tools AgentRoute.

Definition opts : NovaTextOptions :=
  mkOptions "amazon.nova-lite-v1:0" (Some "Answer in JSON.")
    [mkMessage user "hello"] None None.

Definition validationError : JsError :=
  mkJsError (Some "ValidationException") (Some "Operation not allowed") None None None.

(** Bedrock rejects every [ConverseCommand] and answers every
    [InvokeModelCommand] with a body that has an [outputText]. *)
Definition rejecting (n : nat) (c : Command) : Reply c :=
  match c with
  | ConverseCommand _ _ => Throw validationError
  | InvokeModelCommand _ _ _ _ =>
      Normal (mkInvokeOutput ("{" ++ quoted "outputText" ++ ":" ++ quoted "hello" ++ "}"))
  end.

(** A final decision, bare and inside a fence tagged [json]. *)
Definition finalJson : string :=
  "{" ++ quoted "action" ++ ":" ++ quoted "final" ++ ","
  ++ quoted "output" ++ ":" ++ quoted "x" ++ "}".

Definition finalValue : value :=
  VObject [("action", VString "final"); ("output", VString "x")].

Definition fencedFinal : string := "```json " ++ finalJson ++ " ```".

(** A JSON object after a space and before a remark. *)
Definition padded : string :=
  " {" ++ quoted "action" ++ ":" ++ quoted "final" ++ "} done".

(** A decision in the compact form whose action names no tool. *)
Definition compactUnknown : string :=
  "{" ++ quoted "action" ++ ":" ++ quoted "deleteAll" ++ ","
  ++ quoted "input" ++ ":" ++ quoted "x" ++ "}".

(** The same name in the canonical form. *)
Definition canonicalUnknown : string :=
  "{" ++ quoted "action" ++ ":" ++ quoted "tool" ++ ","
  ++ quoted "tool" ++ ":" ++ quoted "deleteAll" ++ ","
  ++ quoted "input" ++ ":" ++ quoted "x" ++ "}".

(** A decision in the canonical form whose [tool] is an object with an
    own property [toString]. *)
Definition unprintableTool : string :=
  "{" ++ quoted "action" ++ ":" ++ quoted "tool" ++ ","
  ++ quoted "tool" ++ ":{" ++ quoted "toString" ++ ":1}}".

(** A text that parses to an object without [action]. *)
Definition noAction : string := "{" ++ quoted "foo" ++ ":1}".

Definition planDecision : string :=
  "{" ++ quoted "action" ++ ":" ++ quoted "makePlan" ++ ","
  ++ quoted "input" ++ ":" ++ quoted "demo" ++ "}".

Definition env : Env := mkEnv None (Some "amazon.nova-lite-v1:0") None.

Definition request : Request :=
  mkRequest None (VObject [("goal", VString "Write a plan")]).

Definition start : RunState := initialState (req_body request).

(** The model answers every invocation with the same text. *)
Definition always (text : string) (n : nat) (opts : NovaTextOptions)
  : ModelReply opts := Normal text.

(** The ARN of an inference profile as the model id. *)
Definition arnOpts : NovaTextOptions :=
  mkOptions "arn:aws:bedrock:us-east-1:123456789012:inference-profile/us.amazon.nova-lite-v1:0"
    (Some "Answer in JSON.") [mkMessage user "hello"] None None.

(** A response body with two text blocks around a block of another kind,
    and an [outputText]. *)
Definition blocks : value :=
  VObject
    [ ("output",
        VObject
          [ ("message",
              VObject
                [ ("content",
                    VArray [ VObject [("text", VString "he")];
                             VObject [("image", VNumber 1)];
                             VObject [("text", VString "llo")] ]) ]) ]);
      ("outputText", VString "flat") ].

Definition blocksBody : string :=
  "{" ++ quoted "output" ++ ":{" ++ quoted "message" ++ ":{" ++ quoted "content"
  ++ ":[{" ++ quoted "text" ++ ":" ++ quoted "he" ++ "},{" ++ quoted "image"
  ++ ":1},{" ++ quoted "text" ++ ":" ++ quoted "llo" ++ "}]}},"
  ++ quoted "outputText" ++ ":" ++ quoted "flat" ++ "}".


(** A response body whose [outputText] is the empty string and whose
    [generation] holds text. *)
Definition emptyOutputText : value :=
  VObject [("outputText", VString EmptyString); ("generation", VString "hi")].

Definition emptyOutputTextBody : string :=
  "{" ++ quoted "outputText" ++ ":" ++ quoted "" ++ ","
  ++ quoted "generation" ++ ":" ++ quoted "hi" ++ "}".
End Scenario.

(** ** index.ts, and the agent as the server runs it *)

Module Server.
Import Js NovaClient AgentRoute.

(** [s.split(c)] for a one-character separator. *)
Fixpoint splitOnFrom (c : ascii) (s cur : string) : list string :=
  match s with
  | EmptyString => [cur]
  | String x s' =>
      if Ascii.eqb x c then cur :: splitOnFrom c s' EmptyString
      else splitOnFrom c s' (cur ++ String x EmptyString)
  end.

Definition splitOn (c : ascii) (s : string) : list string :=
  splitOnFrom c s EmptyString.

(** The [origin] option given to [cors]; [None] stands for [true], any
    origin. *)
Definition corsOrigins (CORS_ORIGIN : option string) : option (list string) :=
  match nonEmpty CORS_ORIGIN with
  | Some corsOrigin =>
      Some (filter (λ o, o ≠ EmptyString) (map trim (splitOn "," corsOrigin)))
  | None => None
  end.

Section WithHost.
Context {H : Host}.

(** A program of the route with [novaConverseText] run at each model
    invocation: what the server sends to Bedrock. *)
Fixpoint link {A} (m : Agent A) : prog Command Reply A :=
  match m with
  | Ret a => Ret a
  | Do opts k => bind (novaConverseText opts) (fun r => link (k r))
  end.

Definition served (env : Env) (req : Request) : prog Command Reply Response :=
  link (handler env req).
End WithHost.

End Server.

(** ** The client: [App], the second part of client/api/agent.ts *)

Module Client.
Import Js NovaClient AgentRoute.

(** A chat message; [steps] is optional and the code never sets it. *)
Record ChatMessage := mkChat {
  chat_role : Role;
  chat_content : string;
  chat_steps : option (list AgentStep)
}.

Definition userMessage (text : string) : ChatMessage := mkChat user text None.
Definition assistantMessage (text : string) : ChatMessage := mkChat assistant text None.

Record Counts := mkCounts { c_model : Z; c_tool : Z; c_error : Z }.

(** [stepCounts]: one pass over the steps of the result. *)
Definition stepCounts (steps : list AgentStep) : Counts :=
  foldl
    (λ counts s,
       match s with
       | StepModel _ => mkCounts (c_model counts + 1) (c_tool counts) (c_error counts)
       | StepTool _ _ _ => mkCounts (c_model counts) (c_tool counts + 1) (c_error counts)
       | StepError _ => mkCounts (c_model counts) (c_tool counts) (c_error counts + 1)
       end)
    (mkCounts 0 0 0) steps.

(** [Boolean(m.content.trim())] *)
Definition hasText (m : ChatMessage) : bool :=
  negb (String.eqb (trim (chat_content m)) EmptyString).

(** The [history] of [runAgent]: two filters, [map], [slice(-12)]. *)
Definition history (chat : list ChatMessage) : list Message :=
  arraySliceFrom
    (map (fun m => mkMessage (chat_role m) (chat_content m))
       (List.filter
          (fun m =>
             match chat_role m with
             | assistant => negb (String.eqb (trim (chat_content m)) EmptyString)
             | user => true
             end)
          (List.filter
             (fun m => match chat_role m with user => hasText m | assistant => hasText m end)
             chat)))
    (-12).

(** The text shown for the user's turn. *)
Definition userText (trimmedGoal trimmedContext : string) : string :=
  if String.eqb trimmedContext EmptyString then trimmedGoal
  else trimmedGoal ++ nl ++ nl ++ "Context:" ++ nl ++ trimmedContext.

Definition roleText (r : Role) : string :=
  match r with
  | user => "user"
  | assistant => "assistant"
  end.

Definition messageValue (m : Message) : value :=
  VObject [("role", VString (roleText (role m))); ("content", VString (content m))].

(** The object given to [JSON.stringify] for the request body; a property
    that is [undefined] is left out by the serialisation. *)
Definition requestBody (trimmedGoal trimmedContext : string) (history : list Message)
  : value :=
  VObject
    [ ("goal", VString trimmedGoal);
      ("context",
        if String.eqb trimmedContext EmptyString then VUndefined
        else VString trimmedContext);
      ("messages", VArray (map messageValue history)) ].

(** What [runAgent] posts for a goal, a context and the chat so far;
    [None] when it stops at "Goal is required." *)
Definition posted (goal context : string) (chat : list ChatMessage) : option value :=
  let trimmedGoal := trim goal in
  let trimmedContext := trim context in
  if String.eqb trimmedGoal EmptyString then None
  else Some (requestBody trimmedGoal trimmedContext (history chat)).

(** The chat after the first [setChat] of [runAgent]. *)
Definition asked (prev : list ChatMessage) (text : string) : list ChatMessage :=
  prev ++ [userMessage text; assistantMessage EmptyString].

(** The first empty assistant message of a list is given its text. *)
Fixpoint fillFirst (l : list ChatMessage) (text : string) : option (list ChatMessage) :=
  match l with
  | [] => None
  | m :: rest =>
      match chat_role m with
      | assistant =>
          if String.eqb (chat_content m) EmptyString
          then Some (assistantMessage text :: rest)
          else option_map (cons m) (fillFirst rest text)
      | user => option_map (cons m) (fillFirst rest text)
      end
  end.

(** The updater of the later [setChat]: the loop runs from the last
    message backwards, hence forwards on the reversed list. *)
Definition answered (prev : list ChatMessage) (text : string) : list ChatMessage :=
  match fillFirst (rev prev) text with
  | Some l => rev l
  | None => prev ++ [assistantMessage text]
  end.

(** The [error] and [final] properties of a response body, when they are
    strings. *)
Definition errorOf (b : ResponseBody) : option string :=
  match b with
  | BodyError e | BodyErrorSteps e _ | BodyFailure e _ _ _ => Some e
  | BodyResult _ => None
  end.

Definition finalOf (b : ResponseBody) : option string :=
  match b with
  | BodyResult r => Some (final r)
  | _ => None
  end.

(** What [runAgent] makes of a response: the answer, or the message of the
    error it throws. *)
Inductive Received :=
| Answer (final : option string)
| Failed (msg : string).

(** [resp.ok] *)
Definition ok (status : Z) : bool := (200 <=? status) && (status <=? 299).

Definition received (resp : Response) : Received :=
  if ok (status resp) then Answer (finalOf (body resp))
  else Failed (default "Request failed" (errorOf (body resp))).

End Client.

(** ** The forwarders: client/api/agent.ts and netlify/functions/api.js *)

Module Proxy.
Import Js AgentRoute.




(** [baseUrl.replace(/\/$/, '')]: one slash at the end is removed. *)
Definition stripSlash (baseUrl : string) : string :=
  if endsWith baseUrl "/" then dropEnd 1 baseUrl else baseUrl.

Definition target (baseUrl : string) : string := stripSlash baseUrl ++ "/api/agent".

(** [...(demoKey ? { 'x-demo-api-key': demoKey } : {})] *)
Definition keyHeader (demoKey : option string) : list (string * string) :=
  match nonEmpty demoKey with
  | Some k => [("x-demo-api-key", k)]
  | None => []
  end.

Definition forwardedHeaders (demoKey : option string) : list (string * string) :=
  ("content-type", "application/json") :: keyHeader demoKey.

(** [req.header(name)] on the server: header names are matched without
    regard to case. *)
Fixpoint header (name : string) (headers : list (string * string)) : option string :=
  match headers with
  | [] => None
  | (k, v) :: rest =>
      if String.eqb (toLowerCase k) (toLowerCase name) then Some v
      else header name rest
  end.

Section WithHost.
Context {H : Host}.


(** *** The Vercel function *)





(** *** The Netlify function *)



End WithHost.

(** *** From [fetch] to the server

    [fetch] takes the HTTP whitespace (TAB, LF, CR, SPACE) off both ends
    of a header value, and fails, so that no request is made, when what
    is left holds a character that a header value cannot be sent with: a
    control character other than TAB, or a code unit above 255.  The
    server reads the value as it was sent. *)
Definition isHttpSpace (c : ascii) : bool :=
  let n := code c in (n =? 9) || (n =? 10) || (n =? 13) || (n =? 32).

Fixpoint stripStart (s : string) : string :=
  match s with
  | String c s' => if isHttpSpace c then stripStart s' else s
  | EmptyString => EmptyString
  end.

Fixpoint stripEnd (s : string) : string :=
  match s with
  | EmptyString => EmptyString
  | String c s' =>
      match stripEnd s' with
      | EmptyString => if isHttpSpace c then EmptyString else String c EmptyString
      | rest => String c rest
      end
  end.

Definition normalize (v : string) : string := stripEnd (stripStart v).

Definition sendableChar (c : ascii) : bool :=
  let n := code c in
  (n =? 9) || ((32 <=? n) && (n <=? 126)) || ((128 <=? n) && (n <=? 255)).

Fixpoint sendable (v : string) : bool :=
  match v with
  | EmptyString => true
  | String c v' => sendableChar c && sendable v'
  end.

(** The headers as they are sent, and the request the server sees when
    they arrive with a body; [None] when [fetch] fails on them. *)
Definition sentHeaders (headers : list (string * string)) : list (string * string) :=
  map (fun '(k, v) => (k, normalize v)) headers.

Definition arriving (headers : list (string * string)) (body : value) : option Request :=
  let sent := sentHeaders headers in
  if forallb (fun '(k, v) => sendable v) sent
  then Some (mkRequest (header "x-demo-api-key" sent) body)
  else None.

End Proxy.

(** ** Vocabulary of the further statements *)

Module SpecX.
Import Js Retrieval NovaClient Tools AgentRoute Spec.

(** A token: not empty, made of lower-case letters and digits. *)
Definition wellFormedToken (t : string) : Prop :=
  t ≠ EmptyString ∧ ∀ c, occurs c t -> is_lower_alnum c = true.

(** The user turn that feeds the output of a tool back to the model. *)
Definition toolMessage `{Host} (tool : ToolName) (out : ToolResult) : Message :=
  mkMessage user
    (JSON_stringify
       (VObject [ ("tool", VString (toolNameText tool));
                  ("output", resultValue out) ])).

(** Steps that come in pairs: a Model step, the Tool step of its
    decision, and so on. *)
Fixpoint paired (l : list AgentStep) : bool :=
  match l with
  | [] => true
  | StepModel _ :: StepTool _ _ _ :: rest => paired rest
  | _ => false
  end.

(** The outputs of the Model steps of a transcript, in order. *)
Definition modelOutputs (l : list AgentStep) : list string :=
  omap (λ s, match s with StepModel text => Some text | _ => None end) l.

(** The options of one model invocation of a run. *)
Definition askOf (e : event NovaTextOptions ModelReply) : NovaTextOptions :=
  projT1 e.

(** The request passes the key check: no key is configured, or the
    header carries it. *)
Definition authorised (env : Env) (req : Request) : Prop :=
  match nonEmpty (DEMO_API_KEY env) with
  | Some expectedKey => demoApiKeyHeader req = Some expectedKey
  | None => True
  end.

(** The body the handler reads and the state its run starts from. *)
Definition bodyOf (req : Request) : value := orElse (req_body req) (VObject []).

Definition startOf (req : Request) : RunState := initialState (bodyOf req).

(** A history message as the server keeps it: its content trimmed. *)
Definition trimmedMessage (m : Message) : Message :=
  mkMessage (role m) (trim (content m)).

(** An assistant message that waits for its text. *)
Definition pending (m : Client.ChatMessage) : bool :=
  match Client.chat_role m with
  | assistant => String.eqb (Client.chat_content m) EmptyString
  | user => false
  end.

(** The sentence the server adds to the goal turn. *)
Definition goalSuffix : string :=
  nl ++ nl ++ "If needed, start by making a plan, then use tools as needed, then finalize.".





(** The model id and the payload of a command sent to Bedrock. *)
Definition commandModel (c : Command) : string :=
  match c with
  | ConverseCommand modelId _ => modelId
  | InvokeModelCommand modelId _ _ _ => modelId
  end.

Definition commandPayload (c : Command) : Payload :=
  match c with
  | ConverseCommand _ input => input
  | InvokeModelCommand _ _ _ body => body
  end.

(** The command of one exchange with Bedrock. *)
Definition commandOf (e : event Command Reply) : Command := projT1 e.

(** The value a final decision gives as its answer. *)
Definition outputOf `{Host} (text : string) : value :=
  orElse (get (safeJsonParse text) "output") (VString EmptyString).

(** The name a decision gives for a tool: its [action] in the compact
    form, its [tool] when the [action] is "tool". *)
Definition namedIn (parsed : value) (name : string) : Prop :=
  get parsed "action" = VString name
  ∨ (get parsed "action" = VString "tool" ∧ get parsed "tool" = VString name).

(** The state after a tool named [name] was called for the model text
    [text] on [input], gave [out] and left the context [ctx]: a Model
    step and a Tool step more, and the assistant turn and the user turn
    with the output of the tool. *)
Definition fedBack `{Host} (name : string) (out : ToolResult) : Message :=
  mkMessage user
    (JSON_stringify (VObject [("tool", VString name); ("output", resultValue out)])).

Definition carriedOut `{Host} (st : RunState) (text : string) (tool : ToolName)
    (name : string) (input : value) (out : ToolResult) (ctx : ToolContext) : RunState :=
  mkRun (steps st ++ [StepModel text; StepTool tool input out])%list
    (AgentRoute.messages st ++ [mkMessage assistant text; fedBack name out])%list
    ctx.

End SpecX.

(** ** Further examples *)

Module ScenarioX.
Import Js NovaClient Tools AgentRoute.

(** The model service answers the [n]-th invocation with the [n]-th
    entry of a script, and fails when the script is over. *)
Definition scripted (script : list (completion string)) (n : nat)
    (opts : NovaTextOptions) : ModelReply opts :=
  default (Throw (newError "no reply")) (script !! n).

Definition retrieveDecision : string :=
  "{" ++ quoted "action" ++ ":" ++ quoted "tool" ++ ","
  ++ quoted "tool" ++ ":" ++ quoted "retrieve" ++ ","
  ++ quoted "input" ++ ":" ++ quoted "video demo" ++ "}".

(** A plan, a retrieval, then the answer. *)
Definition threeTurns : list (completion string) :=
  [Normal Scenario.planDecision; Normal retrieveDecision; Normal Scenario.finalJson].

Definition throttled : JsError :=
  mkJsError (Some "ThrottlingException") (Some "Too many requests") None
    (Some "client") None.

(** A plan, then a failure of the model service. *)
Definition failsSecond : list (completion string) :=
  [Normal Scenario.planDecision; Throw throttled].

(** A text made of one text again and again. *)
Fixpoint repeated (n : nat) (s : string) : string :=
  match n with
  | O => EmptyString
  | S n' => s ++ repeated n' s
  end.





Definition baseUrl : option string := Some "https://api.example.com/".
End ScenarioX.

(** * Properties *)

Import Js Retrieval NovaClient Tools AgentRoute Spec.

(** ** Host lists and strings *)

Lemma append_cons (x : ascii) (a b : string) : String x a ++ b = String x (a ++ b).
Proof. reflexivity. Qed.

Lemma append_empty_l (b : string) : EmptyString ++ b = b.
Proof. reflexivity. Qed.

Lemma append_assoc (a b c : string) : (a ++ b) ++ c = a ++ (b ++ c).
Proof.
  induction a as [| x a IH]; [done |].
  by rewrite !append_cons, IH.
Qed.

Lemma append_empty_r (s : string) : s ++ EmptyString = s.
Proof.
  induction s as [| x s IH]; [done |].
  by rewrite append_cons, IH.
Qed.

Lemma relIndex_range n i : 0 <= n -> 0 <= relIndex n i <= n.
Proof. unfold relIndex. destruct (i <? 0) eqn:E; lia. Qed.

Lemma arraySlice_prefix {A} (l : list A) (limit : Z) :
  0 <= limit -> arraySlice l 0 limit = take (Z.to_nat limit) l.
Proof.
  intros Hl. unfold arraySlice, relIndex.
  replace (0 <? 0) with false by reflexivity.
  replace (limit <? 0) with false by (symmetry; apply Z.ltb_ge; lia).
  rewrite (Z.min_l 0) by lia. change (Z.to_nat 0) with 0%nat.
  rewrite drop_0, Z.sub_0_r.
  destruct (Z.le_ge_cases limit (Z.of_nat (length l))) as [Hle | Hge].
  - by rewrite Z.min_l.
  - rewrite Z.min_r by lia. rewrite Nat2Z.id.
    rewrite !take_ge by lia. done.
Qed.

Lemma arraySliceFrom_last {A} (l : list A) (k : nat) :
  arraySliceFrom l (- Z.of_nat (S k)) = drop (length l - S k) l.
Proof.
  unfold arraySliceFrom, arraySlice, relIndex.
  replace (- Z.of_nat (S k) <? 0) with true by (symmetry; apply Z.ltb_lt; lia).
  replace (Z.of_nat (length l) <? 0) with false by (symmetry; apply Z.ltb_ge; lia).
  rewrite Z.min_id.
  replace (Z.to_nat (Z.max (Z.of_nat (length l) + - Z.of_nat (S k)) 0))
    with (length l - S k)%nat by lia.
  apply take_ge. rewrite length_drop. lia.
Qed.

Section SortByKey.
Context {A : Type} (key : A -> Z).

Lemma sortInsert_perm x l : sortInsert (byKeyDesc key) x l ≡ₚ x :: l.
Proof.
  induction l as [| y l IH]; cbn; [done |].
  destruct (byKeyDesc key x y <=? 0); [done |].
  rewrite IH. apply Permutation_swap.
Qed.

Lemma arraySort_perm l : arraySort (byKeyDesc key) l ≡ₚ l.
Proof.
  induction l as [| x l IH]; cbn; [done |].
  by rewrite sortInsert_perm, IH.
Qed.

Lemma sortInsert_descending x l :
  descending key l -> descending key (sortInsert (byKeyDesc key) x l).
Proof.
  unfold descending, byKeyDesc.
  induction 1 as [| y l Hs IH Hy]; cbn.
  - repeat constructor.
  - destruct (key y - key x <=? 0) eqn:E.
    + apply Z.leb_le in E. constructor; [by constructor |].
      constructor; [lia |].
      eapply Forall_impl; [exact Hy |]. cbn. intros; lia.
    + apply Z.leb_gt in E. constructor; [exact IH |].
      rewrite sortInsert_perm. constructor; [lia | exact Hy].
Qed.

Lemma arraySort_descending l : descending key (arraySort (byKeyDesc key) l).
Proof.
  induction l as [| x l IH]; cbn; [constructor |].
  by apply sortInsert_descending.
Qed.

(** Stability: the elements of one key keep their order. *)
Lemma sortInsert_stable s x l :
  filter (λ a, key a = s) (sortInsert (byKeyDesc key) x l)
  = filter (λ a, key a = s) (x :: l).
Proof.
  induction l as [| y l IH]; cbn; [done |].
  unfold byKeyDesc at 1. destruct (key y - key x <=? 0) eqn:E; [done |].
  apply Z.leb_gt in E.
  rewrite (filter_cons _ y (sortInsert _ _ _)), IH.
  rewrite !filter_cons.
  destruct (decide (key y = s)) as [Hy | Hy], (decide (key x = s)) as [Hx | Hx];
    try done; lia.
Qed.

Lemma arraySort_stable s l :
  filter (λ a, key a = s) (arraySort (byKeyDesc key) l) = filter (λ a, key a = s) l.
Proof.
  induction l as [| x l IH]; cbn; [done |].
  rewrite sortInsert_stable, !filter_cons, IH. done.
Qed.
End SortByKey.

Lemma sortInsert_map {A B} (f : A -> B) (cmp : B -> B -> Z) x l :
  sortInsert cmp (f x) (map f l) = map f (sortInsert (λ a b, cmp (f a) (f b)) x l).
Proof.
  induction l as [| y l IH]; cbn; [done |].
  destruct (cmp (f x) (f y) <=? 0); cbn; [done |]. by rewrite IH.
Qed.

Lemma arraySort_map {A B} (f : A -> B) (cmp : B -> B -> Z) l :
  arraySort cmp (map f l) = map f (arraySort (λ a b, cmp (f a) (f b)) l).
Proof.
  induction l as [| x l IH]; cbn; [done |].
  by rewrite IH, sortInsert_map.
Qed.

(** ** retrieval.ts *)

Lemma filter_map_list {A B} (f : A -> B) (P : B -> Prop) `{!∀ b, Decision (P b)}
    (l : list A) :
  filter P (map f l) = map f (filter (λ a, P (f a)) l).
Proof.
  induction l as [| x l IH]; [done |].
  cbn [map]. rewrite !filter_cons, IH.
  by destruct (decide (P (f x))).
Qed.

Lemma filter_none {A} (P : A -> Prop) `{!∀ a, Decision (P a)} (l : list A) :
  (∀ a, ¬ P a) -> filter P l = [].
Proof.
  intros HP. induction l as [| x l IH]; [done |].
  rewrite filter_cons, IH. by destruct (decide (P x)) as [HPx | _]; [destruct (HP x) |].
Qed.

Lemma score_fold (termSet : gset string) (q : list string) (acc : Z) :
  foldl (λ acc term, acc + (if bool_decide (term ∈ termSet) then 1 else 0)) acc q
  = acc + Z.of_nat (length (filter (λ term, term ∈ termSet) q)).
Proof.
  revert acc. induction q as [| term q IH]; intros acc; cbn [foldl].
  - cbn. lia.
  - rewrite IH, filter_cons.
    case_bool_decide as Hin;
      [rewrite decide_True by done | rewrite decide_False by done];
      cbn [length]; lia.
Qed.

Lemma scoreDoc_overlap q doc : scoreDoc q doc = scoredAs q doc.
Proof.
  unfold scoreDoc, scoredAs, overlap, docTokenSet.
  f_equal. by rewrite score_fold.
Qed.

Lemma ranked_by_overlap q :
  ranked q
  = map (scoredAs q)
      (arraySort (byKeyDesc (overlap q)) (filter (λ doc, overlap q doc > 0) DOCS)).
Proof.
  unfold ranked.
  rewrite (map_ext _ _ (scoreDoc_overlap q)).
  rewrite filter_map_list, arraySort_map. done.
Qed.

Lemma tokens_length_zero (q : list string) :
  (Z.of_nat (length q) =? 0) = true -> q = [].
Proof. destruct q; [done | cbn; discriminate]. Qed.

Lemma arraySlice_map {A B} (f : A -> B) (l : list A) (start stop : Z) :
  arraySlice (map f l) start stop = map f (arraySlice l start stop).
Proof.
  unfold arraySlice. by rewrite length_map, List.skipn_map, List.firstn_map.
Qed.

(** C2. For every query and limit, the hits of [retrieve] are the documents
    whose overlap with the query is positive (the overlap being the number
    of query-token occurrences that belong to the token set of the
    document), each with that overlap as its score, in descending order of
    score, documents of equal score in corpus order, cut by
    [slice(0, limit)], that is to the first [limit] of them for a limit
    that is not negative; and the query "demo video" puts the document that
    holds both tokens first, with score 2, before the one that holds a
    single token. *)
Theorem retrieve_ranks_by_overlap (query : string) (limit : Z) :
  (let q := tokenize query in
   ∃ docs : list Doc,
     docs ≡ₚ filter (λ doc, overlap q doc > 0) DOCS
     ∧ StronglySorted (λ a b, overlap q b <= overlap q a) docs
     ∧ (∀ s, filter (λ doc, overlap q doc = s) docs
             = filter (λ doc, overlap q doc = s)
                 (filter (λ doc, overlap q doc > 0) DOCS))
     ∧ Retrieval.retrieve query limit = map (hitFor q) (arraySlice docs 0 limit)
     ∧ (0 <= limit -> arraySlice docs 0 limit = take (Z.to_nat limit) docs)
     ∧ ∀ doc, hit_score (hitFor q doc) = overlap q doc
              ∧ hit_id (hitFor q doc) = doc_id doc)
  ∧ map (λ h, (hit_id h, hit_score h)) (Retrieval.retrieve "demo video" 5)
    = [("hackathon-submission", 2); ("agentic-best-practices", 1)].
Proof.
  split; [| by vm_compute].
  intros q.
  exists (arraySort (byKeyDesc (overlap q)) (filter (λ doc, overlap q doc > 0) DOCS)).
  split; [apply arraySort_perm |].
  split; [apply (arraySort_descending (overlap q)) |].
  split; [intros s; apply (arraySort_stable (overlap q)) |].
  split; [| split; [apply arraySlice_prefix | done]].
  unfold Retrieval.retrieve. fold q.
  destruct (Z.of_nat (length q) =? 0) eqn:Hq.
  - apply tokens_length_zero in Hq. rewrite Hq.
    rewrite (filter_none (λ doc, overlap [] doc > 0))
      by (intros doc; unfold overlap; cbn; lia).
    cbn [arraySort]. unfold arraySlice. by rewrite drop_nil, take_nil.
  - by rewrite ranked_by_overlap, arraySlice_map, map_map.
Qed.

(** The claim at the query "3 minutes" with limit 1: two documents hold
    both tokens, and the one that comes first in the corpus is returned. *)
Lemma retrieve_ranks_by_overlap_witness :
  ∃ docs : list Doc,
    docs ≡ₚ filter (λ doc, overlap (tokenize "3 minutes") doc > 0) DOCS
    ∧ Retrieval.retrieve "3 minutes" 1
      = map (hitFor (tokenize "3 minutes")) (take 1 docs)
    ∧ map hit_id (Retrieval.retrieve "3 minutes" 1) = ["hackathon-submission"].
Proof.
  destruct (retrieve_ranks_by_overlap "3 minutes" 1)
    as [(docs & Hperm & _ & _ & Hhits & Hcut & _) _].
  exists docs. split; [exact Hperm |].
  split; [| by vm_compute].
  rewrite Hhits, Hcut; [reflexivity | lia].
Defined.

Example retrieve_tie_keeps_corpus_order :
  map (λ h, (hit_id h, hit_score h)) (Retrieval.retrieve "3 minutes" 5)
  = [("hackathon-submission", 2); ("agentic-best-practices", 2)].
Proof. by vm_compute. Qed.

(** ** tools.ts *)

(** C10. Each tool writes at most its own field of the Tool Context:
    [makePlan] leaves [draft] as it was, [writeDraft] leaves [plan] as it
    was, and [retrieve] leaves the whole context as it was, also when it
    throws. *)
Theorem tools_frame `{Host} (ctx : ToolContext) (input : value) :
  draft (fst (makePlan ctx input)) = draft ctx
  ∧ plan (fst (writeDraft ctx input)) = plan ctx
  ∧ fst (Tools.retrieve ctx input) = ctx.
Proof.
  split; [done |]. split; [done |].
  unfold Tools.retrieve. by destruct (inputText input).
Qed.

(** ** routes/agent.ts: the message history *)

Lemma historyEntry_valid (m : value) (msg : Message) :
  historyEntry m = Some msg ->
  content msg ≠ EmptyString
  ∧ ∃ c, get m "content" = VString c ∧ content msg = trim c
  ∧ ((get m "role" = VString "user" ∧ role msg = user)
     ∨ (get m "role" = VString "assistant" ∧ role msg = assistant)).
Proof.
  unfold historyEntry.
  destruct (negb (isStr (get m "role") "user") && negb (isStr (get m "role") "assistant"))
    eqn:Hrole; [done |].
  destruct (get m "content") as [| | | | c | |]; try done.
  destruct (String.eqb (trim c) EmptyString) eqn:He; [done |].
  intros [= <-]. cbn [content role].
  apply String.eqb_neq in He. split; [done |].
  exists c. split; [done |]. split; [done |].
  unfold isStr in *. destruct (get m "role") as [| | | | r | |]; try done.
  destruct (String.eqb r "user") eqn:Hu.
  - left. by apply String.eqb_eq in Hu as ->.
  - right. destruct (String.eqb r "assistant") eqn:Ha; [| done].
    by apply String.eqb_eq in Ha as ->.
Qed.


Lemma history_last_twelve (body : value) :
  history body = drop (length (validEntries body) - 12) (validEntries body).
Proof.
  unfold history, validEntries, objectMembers.
  destruct (get body "messages"); try done.
  apply (arraySliceFrom_last _ 11).
Qed.





(** ** Runs of programs *)

Lemma run_exec {Op Res A} (reply : nat -> ∀ op : Op, Res op) (n : nat)
    (m : prog Op Res A) :
  exec m (fst (run reply n m)) (snd (run reply n m)).
Proof.
  revert n. induction m as [a | op k IH]; intros n; cbn.
  - constructor.
  - specialize (IH (reply n op) (S n)).
    destruct (run reply (S n) (k (reply n op))) as [tr a]. cbn in *.
    by constructor.
Qed.

Lemma exec_inv {Op Res A} (m : prog Op Res A) (tr : list (event Op Res)) (b : A) :
  exec m tr b ->
  match m with
  | Ret a => tr = [] ∧ b = a
  | Do op k => ∃ (r : Res op) tr', tr = existT op r :: tr' ∧ exec (k r) tr' b
  end.
Proof. destruct 1; eauto. Qed.

Lemma exec_ret_inv {Op Res A} (a b : A) (tr : list (event Op Res)) :
  exec (Ret a) tr b -> tr = [] ∧ b = a.
Proof. apply (exec_inv (Ret a)). Qed.

Lemma exec_do_inv {Op Res A} (op : Op) (k : Res op -> prog Op Res A)
    (tr : list (event Op Res)) (b : A) :
  exec (Do op k) tr b ->
  ∃ (r : Res op) tr', tr = existT op r :: tr' ∧ exec (k r) tr' b.
Proof. apply (exec_inv (Do op k)). Qed.

Lemma exec_bind_inv {Op Res A B} (m : prog Op Res A) (f : A -> prog Op Res B)
    (tr : list (event Op Res)) (b : B) :
  exec (bind m f) tr b ->
  ∃ a tr1 tr2, tr = (tr1 ++ tr2)%list ∧ exec m tr1 a ∧ exec (f a) tr2 b.
Proof.
  revert tr. induction m as [a | op k IH]; intros tr; cbn.
  - intros Hf. exists a, [], tr. split; [done |]. split; [constructor | done].
  - intros Hdo. apply exec_do_inv in Hdo as (r & tr' & -> & Hk).
    apply IH in Hk as (a & tr1 & tr2 & -> & Hm & Hf).
    exists a, (existT op r :: tr1), tr2.
    split; [done |]. split; [by constructor | done].
Qed.

(** ** Host strings: indices and slices *)

Lemma length_append (a b : string) :
  String.length (a ++ b) = (String.length a + String.length b)%nat.
Proof.
  induction a as [| x a IH]; [done |].
  rewrite append_cons. cbn [String.length]. by rewrite IH.
Qed.

Lemma substring_all (s : string) : String.substring 0 (String.length s) s = s.
Proof. induction s as [| x s IH]; cbn; [done | by rewrite IH]. Qed.

Lemma substring_app_l (a b : string) :
  String.substring 0 (String.length a) (a ++ b) = a.
Proof.
  induction a as [| x a IH]; [by destruct b |].
  rewrite append_cons. cbn. by rewrite IH.
Qed.

Lemma substring_skip (a b : string) (n : nat) :
  String.substring (String.length a) n (a ++ b) = String.substring 0 n b.
Proof.
  induction a as [| x a IH]; [done |].
  rewrite append_cons. cbn. exact IH.
Qed.

Lemma slice_middle (pre r post : string) :
  slice (pre ++ r ++ post) (len pre) (len pre + len r) = r.
Proof.
  unfold slice, relIndex, len. rewrite !length_append.
  replace (Z.of_nat (String.length pre) <? 0) with false
    by (symmetry; apply Z.ltb_ge; lia).
  replace (Z.of_nat (String.length pre) + Z.of_nat (String.length r) <? 0) with false
    by (symmetry; apply Z.ltb_ge; lia).
  rewrite !Z.min_l by lia.
  replace (Z.to_nat (_ + _ - _)) with (String.length r) by lia.
  rewrite Nat2Z.id, substring_skip. apply substring_app_l.
Qed.

Lemma app_align (a b x y : string) :
  a ++ x = b ++ y -> (String.length a <= String.length b)%nat ->
  ∃ m, b = a ++ m ∧ x = m ++ y.
Proof.
  revert b. induction a as [| c a IH]; intros b Heq Hlen.
  - exists b. by rewrite append_empty_l in *.
  - destruct b as [| d b]; [cbn in Hlen; lia |].
    rewrite !append_cons in Heq. injection Heq as -> Heq.
    destruct (IH b Heq) as (m & -> & ->); [cbn in Hlen; lia |].
    by exists m.
Qed.

Lemma indexOf_lower (s : string) (c : ascii) : -1 <= indexOf s c.
Proof.
  induction s as [| d s IH]; cbn; [lia |].
  destruct (Ascii.eqb d c); [lia |].
  destruct (indexOf s c <? 0) eqn:E; lia.
Qed.

Lemma indexOf_found (s : string) (c : ascii) :
  0 <= indexOf s c ->
  ∃ pre post, s = pre ++ String c post ∧ len pre = indexOf s c ∧ ¬ occurs c pre.
Proof.
  induction s as [| d s IH]; cbn; [lia |].
  destruct (Ascii.eqb d c) eqn:Hd.
  - apply Ascii.eqb_eq in Hd as ->. intros _. exists EmptyString, s.
    split; [reflexivity |]. split; [reflexivity | cbn; tauto].
  - apply Ascii.eqb_neq in Hd.
    destruct (indexOf s c <? 0) eqn:E; [lia |]. apply Z.ltb_ge in E.
    intros _. destruct (IH E) as (pre & post & -> & Hlen & Hpre).
    exists (String d pre), post. split; [done |].
    split; [unfold len in *; cbn [String.length]; lia |].
    cbn. tauto.
Qed.

Lemma indexOf_absent (s : string) (c : ascii) :
  indexOf s c < 0 <-> ¬ occurs c s.
Proof.
  induction s as [| d s IH]; cbn; [intuition lia |].
  destruct (Ascii.eqb d c) eqn:Hd.
  - apply Ascii.eqb_eq in Hd. intuition lia.
  - apply Ascii.eqb_neq in Hd.
    destruct (indexOf s c <? 0) eqn:E.
    + apply Z.ltb_lt in E. intuition lia.
    + apply Z.ltb_ge in E. intuition lia.
Qed.

Lemma indexOf_upper (pre post : string) (c : ascii) :
  0 <= indexOf (pre ++ String c post) c <= len pre.
Proof.
  unfold len. induction pre as [| d pre IH].
  - rewrite append_empty_l. cbn. rewrite Ascii.eqb_refl. lia.
  - rewrite append_cons. cbn [indexOf String.length].
    destruct (Ascii.eqb d c); [lia |].
    destruct (indexOf _ c <? 0) eqn:E; [apply Z.ltb_lt in E |]; lia.
Qed.

Lemma lastIndexOf_found (s : string) (c : ascii) :
  0 <= lastIndexOf s c ->
  ∃ pre post, s = pre ++ String c post ∧ len pre = lastIndexOf s c ∧ ¬ occurs c post.
Proof.
  induction s as [| d s IH]; cbn; [lia |].
  destruct (0 <=? lastIndexOf s c) eqn:E.
  - apply Z.leb_le in E. intros _.
    destruct (IH E) as (pre & post & -> & Hlen & Hpost).
    exists (String d pre), post. split; [done |].
    split; [unfold len in *; cbn [String.length]; lia | done].
  - apply Z.leb_gt in E.
    destruct (Ascii.eqb d c) eqn:Hd; [| lia].
    apply Ascii.eqb_eq in Hd as ->. intros _.
    exists EmptyString, s. split; [reflexivity |]. split; [reflexivity |].
    clear IH. induction s as [| e s IHs]; cbn in *; [tauto |].
    destruct (0 <=? lastIndexOf s c) eqn:E'; [apply Z.leb_le in E'; lia |].
    apply Z.leb_gt in E'.
    destruct (Ascii.eqb e c) eqn:He; [lia |].
    apply Ascii.eqb_neq in He. intuition.
Qed.

Lemma lastIndexOf_lower (pre post : string) (c : ascii) :
  len pre <= lastIndexOf (pre ++ String c post) c.
Proof.
  unfold len. induction pre as [| d pre IH].
  - rewrite append_empty_l. cbn.
    destruct (0 <=? lastIndexOf post c) eqn:E; [apply Z.leb_le in E; lia |].
    rewrite Ascii.eqb_refl. lia.
  - rewrite append_cons. cbn [lastIndexOf String.length].
    destruct (0 <=? lastIndexOf _ c) eqn:E; [lia |].
    apply Z.leb_gt in E. lia.
Qed.

Lemma pair_slice (o cl : ascii) (s : string) :
  (indexOf s o >=? 0) && (lastIndexOf s cl >? indexOf s o) = true ->
  enclosed o cl s (slice s (indexOf s o) (lastIndexOf s cl + 1)).
Proof.
  rewrite andb_true_iff, Z.geb_le, Z.gtb_lt. intros [Hi Hj].
  destruct (indexOf_found s o Hi) as (pre1 & rest1 & Hs1 & Hlen1 & Hpre1).
  destruct (lastIndexOf_found s cl) as (pre2 & post2 & Hs2 & Hlen2 & Hpost2); [lia |].
  destruct (app_align (pre1 ++ String o EmptyString) pre2 rest1 (String cl post2))
    as (mid & Hpre2 & Hrest1).
  { rewrite append_assoc, append_cons, append_empty_l. congruence. }
  { rewrite length_append. cbn [String.length]. unfold len in *. lia. }
  exists pre1, mid, post2.
  assert (Hs : s = pre1 ++ String o (mid ++ String cl EmptyString) ++ post2).
  { rewrite Hs1, Hrest1. f_equal.
    by rewrite append_cons, append_assoc, append_cons, append_empty_l. }
  assert (Hslice : slice s (indexOf s o) (lastIndexOf s cl + 1)
                   = String o (mid ++ String cl EmptyString)).
  { rewrite <- Hlen1.
    replace (lastIndexOf s cl + 1)
      with (len pre1 + len (String o (mid ++ String cl EmptyString))).
    - rewrite Hs at 1. apply slice_middle.
    - rewrite <- Hlen2, Hpre2. unfold len.
      rewrite !length_append. cbn [String.length]. rewrite length_append.
      cbn [String.length]. lia. }
  rewrite Hslice. done.
Qed.

Lemma pair_test (o cl : ascii) (s : string) :
  (indexOf s o >=? 0) && (lastIndexOf s cl >? indexOf s o) = true
  <-> hasPair o cl s.
Proof.
  split.
  - intros Ht. destruct (pair_slice o cl s Ht) as (pre & mid & post & Hs & Hr & _).
    exists pre, mid, post. rewrite Hs at 1. rewrite Hr.
    by rewrite append_cons, append_assoc, append_cons, append_empty_l.
  - intros (pre & mid & post & ->).
    rewrite andb_true_iff, Z.geb_le, Z.gtb_lt.
    pose proof (indexOf_upper pre (mid ++ String cl post) o) as Hi.
    assert (Hj : len (pre ++ String o mid)
                 <= lastIndexOf (pre ++ String o (mid ++ String cl post)) cl).
    { replace (pre ++ String o (mid ++ String cl post))
        with ((pre ++ String o mid) ++ String cl post)
        by (by rewrite append_assoc, append_cons).
      apply lastIndexOf_lower. }
    unfold len in *. rewrite length_append in Hj. cbn [String.length] in Hj. lia.
Qed.

(** ** routes/agent.ts: the fence *)

Lemma prefix_split (a s : string) :
  String.prefix a s = true -> s = a ++ dropStart (String.length a) s.
Proof.
  unfold dropStart. revert s. induction a as [| x a IH]; intros s.
  - intros _. rewrite append_empty_l. cbn [String.length].
    rewrite Nat.sub_0_r. by rewrite substring_all.
  - destruct s as [| y s]; cbn [String.prefix]; [done |].
    destruct (ascii_dec x y) as [<- | _]; [| done].
    intros Ha. rewrite append_cons. cbn [String.length String.substring Nat.sub].
    by rewrite <- (IH s Ha).
Qed.

Lemma prefix_app (a b : string) : String.prefix a (a ++ b) = true.
Proof. apply String.prefix_correct, substring_app_l. Qed.

Lemma dropStart_app (a b : string) : dropStart (String.length a) (a ++ b) = b.
Proof.
  unfold dropStart. rewrite length_append.
  replace (String.length a + String.length b - String.length a)%nat
    with (String.length b) by lia.
  rewrite substring_skip. apply substring_all.
Qed.

Lemma dropEnd_app (a b : string) : dropEnd (String.length b) (a ++ b) = a.
Proof.
  unfold dropEnd. rewrite length_append.
  replace (String.length a + String.length b - String.length b)%nat
    with (String.length a) by lia.
  apply substring_app_l.
Qed.

Lemma endsWith_app (a b : string) : endsWith (a ++ b) b = true.
Proof.
  unfold endsWith. rewrite length_append.
  replace (String.length a + String.length b - String.length b)%nat
    with (String.length a) by lia.
  rewrite dropStart_app, String.eqb_refl, andb_true_r.
  apply Nat.leb_le. lia.
Qed.

Lemma substring_split (s : string) (n : nat) :
  (n <= String.length s)%nat ->
  s = String.substring 0 n s ++ dropStart n s.
Proof.
  unfold dropStart. revert n. induction s as [| x s IH]; intros n Hn.
  - cbn in Hn. by replace n with 0%nat by lia.
  - destruct n as [| n].
    + change (String.substring 0 0 (String x s)) with EmptyString.
      rewrite append_empty_l, Nat.sub_0_r. by rewrite substring_all.
    + cbn [String.substring String.length Nat.sub]. rewrite append_cons.
      rewrite <- (IH n); [done | cbn in Hn; lia].
Qed.

Lemma endsWith_split (s suf : string) :
  endsWith s suf = true -> s = dropEnd (String.length suf) s ++ suf.
Proof.
  unfold endsWith, dropEnd. rewrite andb_true_iff, Nat.leb_le, String.eqb_eq.
  intros [Hlen Hsuf].
  pose proof (substring_split s (String.length s - String.length suf)) as Hsp.
  rewrite Hsuf in Hsp. apply Hsp. lia.
Qed.

Lemma fenceMatch_wrapped (inner : string) :
  fenceMatch (fence ++ inner ++ fence) = Some (trim (untagged inner)).
Proof.
  unfold fenceMatch, startsWith.
  rewrite prefix_app.
  change 3%nat with (String.length fence).
  by rewrite dropStart_app, endsWith_app, dropEnd_app.
Qed.

Lemma fenceMatch_some (t g : string) :
  fenceMatch t = Some g -> ∃ inner, t = fence ++ inner ++ fence.
Proof.
  unfold fenceMatch, startsWith.
  destruct (String.prefix fence t) eqn:Hp; [| done].
  destruct (endsWith (dropStart 3 t) fence) eqn:He; [| done].
  intros _. exists (dropEnd 3 (dropStart 3 t)).
  apply prefix_split in Hp. apply endsWith_split in He.
  change (String.length fence) with 3%nat in *.
  by rewrite <- He, <- Hp.
Qed.

Lemma trimStart_fixed (s : string) : trimStart (trimStart s) = trimStart s.
Proof.
  induction s as [| c s IH]; [done |]. cbn.
  destruct (is_space c) eqn:Hc; [done |]. cbn. by rewrite Hc.
Qed.

Lemma trimEnd_fixed (s : string) : trimEnd (trimEnd s) = trimEnd s.
Proof.
  induction s as [| c s IH]; [done |]. cbn.
  destruct (trimEnd s) as [| d t] eqn:Ht.
  - destruct (is_space c) eqn:Hc; [done |]. cbn. by rewrite Hc.
  - cbn [trimEnd] in *. by rewrite IH.
Qed.

Lemma trimStart_trimEnd (s : string) :
  trimStart s = s -> trimStart (trimEnd s) = trimEnd s.
Proof.
  destruct s as [| c s]; [done |]. cbn.
  destruct (is_space c) eqn:Hc.
  - intros Hs. exfalso.
    assert (Hlen : (String.length (trimStart s) <= String.length s)%nat).
    { clear. induction s as [| d s IH]; cbn; [lia |].
      destruct (is_space d); cbn; lia. }
    rewrite Hs in Hlen. cbn in Hlen. lia.
  - intros _. destruct (trimEnd s); cbn; by rewrite Hc.
Qed.

Lemma trim_fixed (s : string) : trim (trim s) = trim s.
Proof.
  unfold trim.
  rewrite (trimStart_trimEnd (trimStart s)) by apply trimStart_fixed.
  apply trimEnd_fixed.
Qed.

(** ** novaClient.ts *)

Lemma operationNotAllowed_iff (err : JsError) :
  operationNotAllowed err = true
  <-> err_name err = Some "ValidationException"
      ∧ includes (toLowerCase (default EmptyString (err_message err)))
          "operation not allowed" = true.
Proof.
  unfold operationNotAllowed. rewrite andb_true_iff, String.eqb_eq.
  destruct (err_name err); cbn; intuition congruence.
Qed.

Lemma invokeModelFallback_exec `{Host} opts tr result :
  exec (invokeModelFallback opts) tr result ->
  ∃ r : completion InvokeOutput,
    tr = [existT (invokeSend opts) r] ∧ result = invokeText r.
Proof.
  intros Hex. apply exec_do_inv in Hex as (r & tr' & -> & Hk).
  apply exec_ret_inv in Hk as [-> ->]. by exists r.
Qed.

Lemma novaConverseText_runs `{Host} (opts : NovaTextOptions)
    (tr : list (event Command Reply)) (result : completion string) :
  exec (novaConverseText opts) tr result ->
  if isInferenceProfileArn opts
  then ∃ r : completion InvokeOutput,
         tr = [existT (invokeSend opts) r] ∧ result = invokeText r
  else ∃ r : completion ConverseOutput,
         match converseText r with
         | Normal text =>
             tr = [existT (converseSend opts) r] ∧ result = Normal text
         | Throw err =>
             if operationNotAllowed err
             then ∃ r2 : completion InvokeOutput,
                    tr = [existT (converseSend opts) r; existT (invokeSend opts) r2]
                    ∧ result = invokeText r2
             else tr = [existT (converseSend opts) r] ∧ result = Throw err
         end.
Proof.
  intros Hex. unfold novaConverseText in Hex.
  destruct (isInferenceProfileArn opts).
  - by apply invokeModelFallback_exec.
  - apply exec_do_inv in Hex as (r & tr' & -> & Hk). exists r.
    destruct (converseText r) as [text | err].
    + by apply exec_ret_inv in Hk as [-> ->].
    + destruct (operationNotAllowed err).
      * apply invokeModelFallback_exec in Hk as (r2 & -> & ->). by exists r2.
      * by apply exec_ret_inv in Hk as [-> ->].
Qed.

Lemma prefix_beginsWith (s pre : string) :
  String.prefix pre s = true <-> beginsWith s pre.
Proof.
  split.
  - intros Hp. eexists. by apply prefix_split.
  - intros [rest ->]. apply prefix_app.
Qed.

Lemma includes_contains (s sub : string) : includes s sub = true <-> contains s sub.
Proof.
  induction s as [| x s IH]; cbn [includes].
  - rewrite orb_false_r, prefix_beginsWith. split.
    + intros [rest Hs]. exists EmptyString, rest. by rewrite append_empty_l.
    + intros (pre & post & Hs). destruct pre as [| y pre]; [| done].
      rewrite append_empty_l in Hs. by exists post.
  - rewrite orb_true_iff, prefix_beginsWith, IH. split.
    + intros [[rest Hs] | (pre & post & Hs)].
      * exists EmptyString, rest. by rewrite append_empty_l.
      * exists (String x pre), post. by rewrite append_cons, Hs.
    + intros (pre & post & Hs). destruct pre as [| y pre].
      * left. rewrite append_empty_l in Hs. by exists post.
      * right. rewrite append_cons in Hs. injection Hs as _ Hs. by exists pre, post.
Qed.

Lemma operationNotAllowed_notAllowed (err : JsError) :
  operationNotAllowed err = true <-> notAllowed err.
Proof.
  rewrite operationNotAllowed_iff. unfold notAllowed.
  rewrite includes_contains. split.
  - intros [Hname Hmsg]. split; [done |].
    destruct (err_message err) as [msg |]; [by exists msg |].
    apply includes_contains in Hmsg. by vm_compute in Hmsg.
  - intros [Hname (msg & -> & Hmsg)]. done.
Qed.

Lemma isInferenceProfileArn_profileArn (opts : NovaTextOptions) :
  isInferenceProfileArn opts = true <-> profileArn (modelId opts).
Proof.
  unfold isInferenceProfileArn, profileArn, startsWith.
  by rewrite andb_true_iff, prefix_beginsWith, includes_contains.
Qed.

Lemma join_foldr (l : list string) :
  join EmptyString l = foldr String.append EmptyString l.
Proof.
  unfold join. induction l as [| x l IH]; [done |].
  cbn [foldr]. rewrite <- IH. destruct l as [| y l].
  - cbn. by rewrite append_empty_r.
  - cbn [String.concat]. by rewrite append_empty_l.
Qed.

Lemma textBlocks_join (parts : list ContentBlock) :
  join EmptyString (map blockText parts) = textBlocks parts.
Proof.
  rewrite join_foldr. unfold textBlocks.
  induction parts as [| p parts IH]; [done |].
  cbn [map foldr]. rewrite IH. by destruct p.
Qed.

Lemma partText_textOfBlock (p : value) : partText p = textOfBlock p.
Proof.
  unfold partText, textOfBlock, get. destruct p as [| | | | | | fields]; try done.
  destruct (lookupField "text" fields) as [x |]; [| done]. by destruct x.
Qed.

Lemma blocks_join (ps : list value) :
  join EmptyString (map partText ps)
  = foldr (λ p acc, textOfBlock p ++ acc) EmptyString ps.
Proof.
  rewrite join_foldr. induction ps as [| p ps IH]; [done |].
  cbn [map foldr]. by rewrite IH, partText_textOfBlock.
Qed.

Lemma converseText_blocks (resp : ConverseOutput) :
  converseText (Normal resp)
  = if String.eqb (textBlocks (default [] (out_content resp))) EmptyString
    then Throw (newError "Empty model response from Bedrock Converse API")
    else Normal (textBlocks (default [] (out_content resp))).
Proof. unfold converseText. by rewrite textBlocks_join. Qed.

(** C6. [novaConverseText] sends one [InvokeModelCommand], and nothing
    else, when the model id is the ARN of an inference profile: it begins
    with [arn:aws:bedrock:] and holds [:inference-profile/].  Otherwise it
    sends a [ConverseCommand] first.  When that command is rejected, it
    sends one [InvokeModelCommand] if the rejection is named
    [ValidationException] and its message holds "operation not allowed"
    in any case, and returns what that second attempt gives; every other
    rejection is thrown again as it is, after that single send.  When the
    command is answered, nothing else is sent: the text of the answer is
    returned, or the error for an empty answer thrown.  A rejection of the
    [InvokeModelCommand] is thrown as it is. *)
Theorem protocol_selection `{Host} (opts : NovaTextOptions)
    (tr : list (event Command Reply)) (result : completion string) :
  exec (novaConverseText opts) tr result ->
  (∀ err, operationNotAllowed err = true <-> notAllowed err)
  ∧ (isInferenceProfileArn opts = true <-> profileArn (modelId opts))
  ∧ (profileArn (modelId opts) ->
     ∃ r : completion InvokeOutput,
       tr = [existT (invokeSend opts) r] ∧ result = invokeText r)
  ∧ (¬ profileArn (modelId opts) ->
     ∃ (r : completion ConverseOutput) rest,
       tr = existT (converseSend opts) r :: rest
       ∧ match r with
         | Throw err =>
             (notAllowed err ->
              ∃ r2 : completion InvokeOutput,
                rest = [existT (invokeSend opts) r2] ∧ result = invokeText r2)
             ∧ (¬ notAllowed err -> rest = [] ∧ result = Throw err)
         | Normal out =>
             rest = []
             ∧ result
               = if String.eqb (textBlocks (default [] (out_content out))) EmptyString
                 then Throw (newError "Empty model response from Bedrock Converse API")
                 else Normal (textBlocks (default [] (out_content out)))
         end)
  ∧ (∀ e, invokeText (Throw e) = Throw e).
Proof.
  intros Hex. apply novaConverseText_runs in Hex.
  split; [apply operationNotAllowed_notAllowed |].
  split; [apply isInferenceProfileArn_profileArn |].
  split_and!; [| | done].
  - intros Harn. apply isInferenceProfileArn_profileArn in Harn.
    by rewrite Harn in Hex.
  - intros Harn. rewrite <- isInferenceProfileArn_profileArn in Harn.
    apply not_true_is_false in Harn. rewrite Harn in Hex.
    destruct Hex as (r & Hr). exists r.
    destruct r as [out | err].
    + rewrite converseText_blocks in Hr.
      destruct (String.eqb (textBlocks (default [] (out_content out))) EmptyString).
      * cbn in Hr. destruct Hr as [-> ->]. by exists [].
      * destruct Hr as [-> ->]. by exists [].
    + cbn [converseText] in Hr.
      destruct (operationNotAllowed err) eqn:Hna.
      * destruct Hr as (r2 & -> & ->). eexists. split; [done |].
        apply operationNotAllowed_notAllowed in Hna.
        split; [intros _; by exists r2 | done].
      * destruct Hr as [-> ->]. exists []. split; [done |].
        split; [| done]. intros Hyes.
        apply operationNotAllowed_notAllowed in Hyes. congruence.
Qed.

(** The claim on a model id that is no ARN, when Bedrock rejects the
    [ConverseCommand] with "Operation not allowed" and answers the
    [InvokeModelCommand]; and on the ARN of an inference profile, for
    which the [InvokeModelCommand] is the only command. *)
Lemma protocol_selection_witness :
  let m := novaConverseText (H := RefHost.host) Scenario.opts in
  let tr := fst (run Scenario.rejecting 0 m) in
  let result := snd (run Scenario.rejecting 0 m) in
  let m' := novaConverseText (H := RefHost.host) Scenario.arnOpts in
  let tr' := fst (run Scenario.rejecting 0 m') in
  let result' := snd (run Scenario.rejecting 0 m') in
  (exec m tr result
   ∧ ¬ profileArn (modelId Scenario.opts)
   ∧ result = Normal "hello"
   ∧ ∃ (r : completion ConverseOutput) (r2 : completion InvokeOutput),
       tr = [existT (converseSend Scenario.opts) r; existT (invokeSend Scenario.opts) r2]
       ∧ r = Throw Scenario.validationError)
  ∧ (exec m' tr' result'
     ∧ profileArn (modelId Scenario.arnOpts)
     ∧ result' = Normal "hello"
     ∧ ∃ r : completion InvokeOutput, tr' = [existT (invokeSend Scenario.arnOpts) r]).
Proof.
  intros m tr result m' tr' result'. split.
  - pose proof (protocol_selection (H := RefHost.host) Scenario.opts tr result
                  (run_exec Scenario.rejecting 0%nat m))
      as (Hclass & Harn & _ & Hconverse & _).
    assert (Hno : ¬ profileArn (modelId Scenario.opts)).
    { intros Hyes. apply Harn in Hyes. by vm_compute in Hyes. }
    split; [exact (run_exec Scenario.rejecting 0%nat m) |].
    split; [exact Hno |]. split; [by vm_compute |].
    exists (Throw Scenario.validationError). eexists. split; [| done].
    by vm_compute.
  - pose proof (protocol_selection (H := RefHost.host) Scenario.arnOpts tr' result'
                  (run_exec Scenario.rejecting 0%nat m'))
      as (_ & Harn & Hinvoke & _).
    assert (Hyes : profileArn (modelId Scenario.arnOpts)).
    { apply Harn. by vm_compute. }
    split; [exact (run_exec Scenario.rejecting 0%nat m') |].
    split; [exact Hyes |]. split; [by vm_compute |].
    destruct (Hinvoke Hyes) as (r & Htr & _). by exists r.
Defined.

Example fallback_after_rejection :
  snd (run Scenario.rejecting 0 (novaConverseText (H := RefHost.host) Scenario.opts))
  = Normal "hello"
  ∧ length (fst (run Scenario.rejecting 0
                   (novaConverseText (H := RefHost.host) Scenario.opts))) = 2%nat.
Proof. by vm_compute. Qed.

Lemma extractText_scan (json : value) :
  extractTextFromConverseLikeJson json
  = if String.eqb (blocksText json) EmptyString
    then firstString json flatFields
    else blocksText json.
Proof.
  unfold extractTextFromConverseLikeJson, blocksText, flatFields, firstString, stringField.
  destruct (get (get (get json "output") "message") "content");
    rewrite ?blocks_join; try done.
  all: destruct (get json "outputText"); try done.
  all: destruct (get json "generation"); try done.
  all: destruct (get json "completion"); try done.
  all: by destruct (get json "text").
Qed.

Lemma firstString_firstNonEmpty (json : value) (ks : list string) :
  (∀ k, k ∈ ks -> stringField json k ≠ Some EmptyString) ->
  firstString json ks
  = firstNonEmpty (map (λ k, default EmptyString (stringField json k)) ks).
Proof.
  induction ks as [| k ks IH]; intros Hks; [done |].
  cbn [firstString map firstNonEmpty].
  assert (Hk : stringField json k ≠ Some EmptyString)
    by apply Hks, list_elem_of_here.
  rewrite IH by (intros k' Hk'; by apply Hks, list_elem_of_further).
  destruct (stringField json k) as [s |]; cbn [default from_option id];
    [| reflexivity].
  destruct (String.eqb s EmptyString) eqn:He; [| done].
  apply String.eqb_eq in He. congruence.
Qed.

Lemma invokeText_nonempty `{Host} (r : completion InvokeOutput) (text : string) :
  invokeText r = Normal text -> text ≠ EmptyString.
Proof.
  unfold invokeText. destruct r as [resp | e]; [| done].
  destruct (JSON_parse (textBody resp)) as [json | e]; [| done].
  destruct (String.eqb _ EmptyString) eqn:He; [done |].
  intros [= <-]. by apply String.eqb_neq.
Qed.

Lemma converseText_nonempty (r : completion ConverseOutput) (text : string) :
  converseText r = Normal text -> text ≠ EmptyString.
Proof.
  unfold converseText. destruct r as [resp | e]; [| done].
  destruct (String.eqb _ EmptyString) eqn:He; [done |].
  intros [= <-]. by apply String.eqb_neq.
Qed.

Lemma novaConverseText_nonempty `{Host} (opts : NovaTextOptions)
    (tr : list (event Command Reply)) (text : string) :
  exec (novaConverseText opts) tr (Normal text) -> text ≠ EmptyString.
Proof.
  intros Hex. apply novaConverseText_runs in Hex.
  destruct (isInferenceProfileArn opts).
  - destruct Hex as (r & _ & Hr). by eapply invokeText_nonempty.
  - destruct Hex as (r & Hr).
    destruct (converseText r) as [t | err] eqn:Hc.
    + destruct Hr as [_ [= ->]]. by eapply converseText_nonempty.
    + destruct (operationNotAllowed err); [| by destruct Hr].
      destruct Hr as (r2 & _ & Hr). by eapply invokeText_nonempty.
Qed.

(** C7 as stated fails: with an empty [outputText] and a non-empty
    [generation], the first non-empty candidate is the generation, and the
    function returns the empty string. *)
Lemma first_non_empty_refuted :
  extractTextFromConverseLikeJson Scenario.emptyOutputText
  ≠ firstNonEmptyCandidate Scenario.emptyOutputText.
Proof. by vm_compute. Qed.

(** C7, amended. The text of a single-call response body is the text of
    its structured content blocks, the [text] strings of the blocks one
    after the other, when that text is not empty; otherwise it is the
    first of the flat fields [outputText], [generation], [completion],
    [text] that holds a string, whether that string is empty or not, and
    the empty string when none does.  When no flat field holds an empty
    string this is the first non-empty candidate.  Under both protocols an
    empty text is a failure and a text that is not empty is returned as it
    is; a body that is no JSON text is a failure too.  A text returned by
    [novaConverseText] is never empty. *)
Theorem extracted_text_scan `{Host} :
  (∀ json,
     extractTextFromConverseLikeJson json
     = if String.eqb (blocksText json) EmptyString
       then firstString json flatFields
       else blocksText json)
  ∧ (∀ json,
       (∀ k, k ∈ flatFields -> stringField json k ≠ Some EmptyString) ->
       extractTextFromConverseLikeJson json = firstNonEmptyCandidate json)
  ∧ (∀ resp json,
       JSON_parse (textBody resp) = Normal json ->
       invokeText (Normal resp)
       = if String.eqb (extractTextFromConverseLikeJson json) EmptyString
         then Throw (newError "Empty model response from Bedrock InvokeModel API")
         else Normal (extractTextFromConverseLikeJson json))
  ∧ (∀ resp e, JSON_parse (textBody resp) = Throw e -> invokeText (Normal resp) = Throw e)
  ∧ (∀ resp,
       converseText (Normal resp)
       = if String.eqb (textBlocks (default [] (out_content resp))) EmptyString
         then Throw (newError "Empty model response from Bedrock Converse API")
         else Normal (textBlocks (default [] (out_content resp))))
  ∧ (∀ opts tr text,
       exec (novaConverseText opts) tr (Normal text) -> text ≠ EmptyString).
Proof.
  split; [apply extractText_scan |].
  split.
  { intros json Hflat. rewrite extractText_scan.
    unfold firstNonEmptyCandidate. cbn [firstNonEmpty].
    destruct (String.eqb (blocksText json) EmptyString); [| done].
    by apply firstString_firstNonEmpty. }
  split.
  { intros resp json Hparse. unfold invokeText. by rewrite Hparse. }
  split.
  { intros resp e Hparse. unfold invokeText. by rewrite Hparse. }
  split; [apply converseText_blocks |].
  intros opts tr text. apply novaConverseText_nonempty.
Qed.

(** The amended claim on the body with an empty [outputText], for which
    the single-call protocol fails although [generation] holds text, and
    on a body with content blocks and an [outputText], for which the text
    of the blocks is returned. *)
Lemma extracted_text_scan_witness :
  (JSON_parse (Host := RefHost.host) Scenario.emptyOutputTextBody
   = Normal Scenario.emptyOutputText
   ∧ extractTextFromConverseLikeJson Scenario.emptyOutputText = EmptyString
   ∧ invokeText (H := RefHost.host) (Normal (mkInvokeOutput Scenario.emptyOutputTextBody))
     = Throw (newError "Empty model response from Bedrock InvokeModel API"))
  ∧ (JSON_parse (Host := RefHost.host) Scenario.blocksBody = Normal Scenario.blocks
     ∧ blocksText Scenario.blocks = "hello"
     ∧ invokeText (H := RefHost.host) (Normal (mkInvokeOutput Scenario.blocksBody))
       = Normal "hello")
  ∧ converseText
      (Normal (mkConverseOutput (Some [TextBlock "he"; OtherBlock; TextBlock "llo"])))
    = Normal "hello".
Proof.
  pose proof (extracted_text_scan (H := RefHost.host))
    as (Hscan & _ & Hinvoke & _ & Hconverse & _).
  assert (He : JSON_parse (Host := RefHost.host) Scenario.emptyOutputTextBody
               = Normal Scenario.emptyOutputText) by (by vm_compute).
  assert (Hb : JSON_parse (Host := RefHost.host) Scenario.blocksBody
               = Normal Scenario.blocks) by (by vm_compute).
  split_and!.
  - exact He.
  - by vm_compute.
  - rewrite (Hinvoke (mkInvokeOutput Scenario.emptyOutputTextBody) _ He). by vm_compute.
  - exact Hb.
  - by vm_compute.
  - rewrite (Hinvoke (mkInvokeOutput Scenario.blocksBody) _ Hb), Hscan. by vm_compute.
  - rewrite Hconverse. by vm_compute.
Defined.

(** ** routes/agent.ts: the extraction *)

Lemma extractJsonObject_candidate (text : string) :
  extractJsonObject text
  = let c := candidateOf text in
    if startsWith c "{" || startsWith c "[" then c
    else if (indexOf c "{" >=? 0) && (lastIndexOf c "}" >? indexOf c "{")
    then slice c (indexOf c "{") (lastIndexOf c "}" + 1)
    else if (indexOf c "[" >=? 0) && (lastIndexOf c "]" >? indexOf c "[")
    then slice c (indexOf c "[") (lastIndexOf c "]" + 1)
    else c.
Proof. reflexivity. Qed.

Lemma extract_fencedFinal : extractJsonObject Scenario.fencedFinal = Scenario.finalJson.
Proof. by vm_compute. Qed.

Lemma turn_final `{Host} (st : RunState) (text : string) (output : string) :
  JSON_parse (extractJsonObject text)
  = Normal (VObject [("action", VString "final"); ("output", VString output)]) ->
  turn st text
  = Respond (mkResult output (steps st ++ [StepModel text])%list)
      (mkRun (steps st ++ [StepModel text])%list
         (AgentRoute.messages st ++ [mkMessage assistant text])%list
         (toolCtx st)).
Proof. intros Hparse. unfold turn, safeJsonParse. by rewrite Hparse. Qed.

(** C3 as stated fails: on an object that follows a space and precedes a
    remark, the steps as worded slice from the first brace to the last,
    while the function, which trims first, finds the brace in front and
    returns object and remark. *)
Lemma extraction_as_worded_refuted :
  extractJsonObject Scenario.padded ≠ extractAsWorded Scenario.padded.
Proof. by vm_compute. Qed.

(** C3, amended. The extraction works on the trimmed text: when the
    trimmed text is fenced, the fence, its [json] tag and the spaces inside
    are removed.  If what is left opens with a brace or a bracket it is the
    result; otherwise, if one of its opening braces comes before one of its
    closing braces, the result runs from the first opening brace to the last
    closing brace; otherwise the same with brackets; otherwise the result
    is what is left (the trimmed text without its fence).  The fenced final
    decision is extracted without its fence and read as [Final] with
    output "x". *)
Theorem extraction_heuristic `{Host} :
  (∀ text,
     let c := candidateOf text in
     let r := extractJsonObject text in
     (∀ inner, trim text = fence ++ inner ++ fence -> c = trim (untagged inner))
     ∧ ((¬ ∃ inner, trim text = fence ++ inner ++ fence) -> c = trim text)
     ∧ (opens c -> r = c)
     ∧ (¬ opens c -> hasPair "{" "}" c -> enclosed "{" "}" c r)
     ∧ (¬ opens c -> ¬ hasPair "{" "}" c -> hasPair "[" "]" c ->
        enclosed "[" "]" c r)
     ∧ (¬ opens c -> ¬ hasPair "{" "}" c -> ¬ hasPair "[" "]" c -> r = c))
  ∧ extractJsonObject Scenario.fencedFinal = Scenario.finalJson
  ∧ (∀ st,
       JSON_parse Scenario.finalJson = Normal Scenario.finalValue ->
       ∃ st', turn st Scenario.fencedFinal
              = Respond (mkResult "x" (steps st ++ [StepModel Scenario.fencedFinal])%list)
                  st').
Proof.
  split; [| split; [exact extract_fencedFinal |]].
  - intros text c r.
    assert (Hr : r = if startsWith c "{" || startsWith c "[" then c
                     else if (indexOf c "{" >=? 0) && (lastIndexOf c "}" >? indexOf c "{")
                     then slice c (indexOf c "{") (lastIndexOf c "}" + 1)
                     else if (indexOf c "[" >=? 0) && (lastIndexOf c "]" >? indexOf c "[")
                     then slice c (indexOf c "[") (lastIndexOf c "]" + 1)
                     else c)
      by apply extractJsonObject_candidate.
    assert (Hopens : startsWith c "{" || startsWith c "[" = true <-> opens c)
      by apply orb_true_iff.
    pose proof (pair_test "{" "}" c) as Hbrace.
    pose proof (pair_test "[" "]" c) as Hbracket.
    pose proof (pair_slice "{" "}" c) as Hbraces.
    pose proof (pair_slice "[" "]" c) as Hbrackets.
    clearbody r.
    split.
    { intros inner Hin. subst c. unfold candidateOf.
      by rewrite Hin, fenceMatch_wrapped, trim_fixed. }
    split.
    { intros Hno. subst c. unfold candidateOf.
      destruct (fenceMatch (trim text)) as [g |] eqn:Hf; [| done].
      destruct Hno. by eapply fenceMatch_some. }
    destruct (startsWith c "{" || startsWith c "[").
    { assert (Ho : opens c) by tauto.
      split; [done |]. split; [done |]. split; done. }
    assert (Hnot : ¬ opens c) by (intros Ho; apply Hopens in Ho; done).
    split; [done |].
    destruct ((indexOf c "{" >=? 0) && (lastIndexOf c "}" >? indexOf c "{")).
    { assert (Hp : hasPair "{" "}" c) by tauto.
      split; [intros _ _; subst r; by apply Hbraces |].
      split; done. }
    assert (Hnb : ¬ hasPair "{" "}" c) by (intros Hp; apply Hbrace in Hp; done).
    split; [done |].
    destruct ((indexOf c "[" >=? 0) && (lastIndexOf c "]" >? indexOf c "[")).
    { assert (Hp : hasPair "[" "]" c) by tauto.
      split; [intros _ _ _; subst r; by apply Hbrackets | done]. }
    assert (Hnk : ¬ hasPair "[" "]" c) by (intros Hp; apply Hbracket in Hp; done).
    split; done.
  - intros st Hparse. eexists. apply turn_final.
    by rewrite extract_fencedFinal.
Qed.

(** The amended claim with the reference host, on the fenced final
    decision. *)
Lemma extraction_heuristic_witness :
  JSON_parse (Host := RefHost.host) Scenario.finalJson = Normal Scenario.finalValue
  ∧ ∃ st', turn (H := RefHost.host) (initialState (VObject [])) Scenario.fencedFinal
           = Respond
               (mkResult "x"
                  (steps (initialState (VObject [])) ++ [StepModel Scenario.fencedFinal])%list)
               st'.
Proof.
  split; [by vm_compute |].
  apply (proj2 (proj2 (extraction_heuristic (H := RefHost.host)))
           (initialState (VObject []))).
  by vm_compute.
Defined.

(** ** routes/agent.ts: one turn *)

Lemma guard_carriesAction (v : value) :
  negb (truthy v) || negb (typeofObject v) || negb (hasProperty "action" v) = false
  <-> carriesAction v.
Proof.
  unfold carriesAction. split.
  - destruct v as [| | b | n | s | items | fields]; cbn;
      rewrite ?orb_true_r; try done.
    destruct (lookupField "action" fields) as [a |] eqn:Ha; [eauto | done].
  - intros (fields & a & -> & Ha). cbn. by rewrite Ha.
Qed.

Lemma safeJsonParse_undecodable `{Host} (text : string) :
  undecodable text <-> ¬ carriesAction (safeJsonParse text).
Proof.
  unfold undecodable, safeJsonParse.
  destruct (JSON_parse (extractJsonObject text)) as [v | e]; [done |].
  split; [| done]. intros _ (fields & a & Hv & _). done.
Qed.

Lemma turn_undecodable `{Host} (st : RunState) (text : string) :
  undecodable text -> turn st text = Thrown (newError invalidDecision) (heard st text).
Proof.
  intros Hu. apply safeJsonParse_undecodable in Hu.
  rewrite <- guard_carriesAction in Hu. apply not_false_is_true in Hu.
  unfold turn. by rewrite Hu.
Qed.

Lemma callTool_throw `{Host} tool ctx input ctx' e :
  callTool tool ctx input = (ctx', Throw e) -> ctx' = ctx.
Proof.
  destruct tool; cbn; try done.
  unfold Tools.retrieve. destruct (inputText input); by intros [= <-].
Qed.

(** What [toolTurn] leaves: a thrown error and the state as it was, or one
    more Tool step. *)
Lemma toolTurn_outcome `{Host} (st : RunState) (tool : ToolName) (input : value) :
  (∃ e, toolTurn st tool input = Thrown e st)
  ∨ (∃ out st', toolTurn st tool input = Continue st'
                ∧ steps st' = (steps st ++ [StepTool tool input out])%list).
Proof.
  unfold toolTurn.
  destruct (callTool tool (toolCtx st) input) as [ctx' [out | e]] eqn:Hc.
  - right. by eexists _, _.
  - left. apply callTool_throw in Hc as ->. exists e. by destruct st.
Qed.

(** The shape of every outcome of a turn. *)
Lemma turn_outcome `{Host} (st : RunState) (text : string) :
  match turn st text with
  | Respond result st' => st' = heard st text ∧ result_steps result = steps st'
  | Continue st' =>
      ∃ tool input out,
        steps st' = (steps st ++ [StepModel text; StepTool tool input out])%list
  | Thrown _ st' => st' = heard st text
  end.
Proof.
  unfold turn. fold (heard st text).
  destruct (negb (truthy _) || negb (typeofObject _) || negb (hasProperty _ _)); [done |].
  destruct (isStr (get (safeJsonParse text) "action") "final");
    [by destruct (toString _) |].
  assert (Htool : ∀ tool input,
            match toolTurn (heard st text) tool input with
            | Respond _ _ => False
            | Continue st' =>
                ∃ tool input out,
                  steps st' = (steps st ++ [StepModel text; StepTool tool input out])%list
            | Thrown _ st' => st' = heard st text
            end).
  { intros tool input.
    destruct (toolTurn_outcome (heard st text) tool input)
      as [[e ->] | (out & st' & -> & Hst')]; [done |].
    exists tool, input, out. rewrite Hst'. cbn [heard steps].
    by rewrite <- app_assoc. }
  destruct (isToolName (get (safeJsonParse text) "action")) as [tool |].
  { specialize (Htool tool (get (safeJsonParse text) "input")).
    by destruct (toolTurn _ _ _). }
  destruct (isStr (get (safeJsonParse text) "action") "tool");
    [| by destruct (toString _)].
  destruct (isToolName (get (safeJsonParse text) "tool")) as [tool |];
    [| by destruct (toString _)].
  specialize (Htool tool (get (safeJsonParse text) "input")).
  by destruct (toolTurn _ _ _).
Qed.

Lemma countModel_app (a b : list AgentStep) :
  countModel (a ++ b) = (countModel a + countModel b)%nat.
Proof. unfold countModel. by rewrite List.filter_app, length_app. Qed.

Lemma turn_counts `{Host} (st : RunState) (text : string) :
  match turn st text with
  | Respond result st' =>
      countModel (steps st') = S (countModel (steps st))
      ∧ result_steps result = steps st'
      ∧ steps st `prefix_of` steps st'
  | Continue st' =>
      countModel (steps st') = S (countModel (steps st))
      ∧ steps st `prefix_of` steps st'
  | Thrown _ st' =>
      countModel (steps st') = S (countModel (steps st))
      ∧ steps st `prefix_of` steps st'
  end.
Proof.
  pose proof (turn_outcome st text) as Ht.
  destruct (turn st text) as [result st' | st' | err st'].
  - destruct Ht as [-> Hr]. cbn [heard steps]. rewrite countModel_app.
    split; [cbn; lia |]. split; [done |]. by apply prefix_app_r.
  - destruct Ht as (tool & input & out & ->). rewrite countModel_app.
    split; [cbn; lia |]. by apply prefix_app_r.
  - subst st'. cbn [heard steps]. rewrite countModel_app.
    split; [cbn; lia |]. by apply prefix_app_r.
Qed.

(** ** routes/agent.ts: the loop *)

Lemma agentLoop_step `{Host} (modelId : string) (n : nat) (st : RunState)
    (tr : list (event NovaTextOptions ModelReply)) (exit : LoopExit) :
  exec (agentLoop modelId (S n) st) tr exit ->
  ∃ (reply : completion string) tr',
    tr = existT (options modelId st) reply :: tr'
    ∧ match reply with
      | Throw err => tr' = [] ∧ exit = Caught err st
      | Normal text =>
          match turn st text with
          | Respond result st' => tr' = [] ∧ exit = Finished result st'
          | Continue st' => exec (agentLoop modelId n st') tr' exit
          | Thrown err st' => tr' = [] ∧ exit = Caught err st'
          end
      end.
Proof.
  cbn [agentLoop]. intros Hex.
  apply exec_do_inv in Hex as (reply & tr' & -> & Hk).
  exists reply, tr'. split; [done |].
  destruct reply as [text | err].
  - destruct (turn st text); [| done |]; by apply exec_ret_inv in Hk.
  - by apply exec_ret_inv in Hk.
Qed.

Lemma agentLoop_bound `{Host} (modelId : string) (n : nat) (st : RunState)
    (tr : list (event NovaTextOptions ModelReply)) (exit : LoopExit) :
  exec (agentLoop modelId n st) tr exit ->
  (length tr <= n)%nat
  ∧ countModel (steps (exitState exit))
    = (countModel (steps st) + length (List.filter succeeded (map replyOf tr)))%nat
  ∧ steps st `prefix_of` steps (exitState exit)
  ∧ (∀ st', exit = OutOfTurns st' ->
       length tr = n ∧ length (List.filter succeeded (map replyOf tr)) = n)
  ∧ (∀ result st', exit = Finished result st' -> result_steps result = steps st').
Proof.
  revert st tr. induction n as [| n IH]; intros st tr Hex.
  - apply exec_ret_inv in Hex as [-> ->]. cbn.
    split_and!; [lia | lia | done | done | done].
  - apply agentLoop_step in Hex as (reply & tr' & -> & Hr).
    destruct reply as [text | err].
    + pose proof (turn_counts st text) as Ht.
      destruct (turn st text) as [result st' | st' | err st'].
      * destruct Hr as [-> ->], Ht as (Hc & Hres & Hp). cbn.
        split_and!; [lia | lia | done | done |]. by intros ? ? [= <- <-].
      * destruct Ht as [Hc Hp].
        apply IH in Hr as (Hlen & Hcount & Hpre & Hout & Hfin).
        cbn [length map List.filter replyOf projT2 succeeded].
        split_and!; [lia | lia | by etrans | | done].
        intros st'' Hexit. destruct (Hout st'' Hexit) as [-> ->]. done.
      * destruct Hr as [-> ->], Ht as [Hc Hp]. cbn.
        split_and!; [lia | lia | done | done | done].
    + destruct Hr as [-> ->]. cbn.
      split_and!; [lia | lia | done | done | done].
Qed.

Lemma agentLoop_exhausts `{Host} (modelId : string) (texts : list string)
    (st st' : RunState) (tr : list (event NovaTextOptions ModelReply))
    (exit : LoopExit) :
  continued st texts = Some st' ->
  exec (agentLoop modelId (length texts) st) tr exit ->
  map replyOf tr = map Normal texts ->
  exit = OutOfTurns st'.
Proof.
  revert st tr. induction texts as [| text texts IH]; intros st tr Hc Hex Hr.
  - cbn in *. apply exec_ret_inv in Hex as [_ ->]. congruence.
  - cbn [length] in Hex. apply agentLoop_step in Hex as (reply & tr' & -> & Hstep).
    cbn [map replyOf projT2] in Hr. injection Hr as -> Hr.
    cbn [continued] in Hc.
    destruct (turn st text) as [? ? | st1 | ? ?]; [done | | done].
    by eapply IH.
Qed.

(** A request is refused before the run, or the run is the loop from the
    initial state and the response is what [respond] makes of its exit. *)
Lemma handler_runs `{Host} (env : Env) (req : Request)
    (tr : list (event NovaTextOptions ModelReply)) (resp : Response) :
  exec (handler env req) tr resp ->
  (tr = [] ∧ ∃ error, body resp = BodyError error ∧ status resp ≠ 200)
  ∨ (∃ modelId exit,
       exec (agentLoop modelId maxTurns
               (initialState (orElse (req_body req) (VObject [])))) tr exit
       ∧ resp = respond env exit).
Proof.
  unfold handler.
  destruct (match nonEmpty (DEMO_API_KEY env) with Some _ => _ | None => _ end).
  { intros Hex. apply exec_ret_inv in Hex as [-> ->]. left. split; [done |].
    by eexists. }
  destruct (String.eqb _ EmptyString).
  { intros Hex. apply exec_ret_inv in Hex as [-> ->]. left. split; [done |].
    by eexists. }
  destruct (nonEmpty (NOVA_MODEL_ID env)) as [modelId |].
  - intros Hex. apply exec_bind_inv in Hex as (exit & tr1 & tr2 & -> & Hloop & Hret).
    apply exec_ret_inv in Hret as [-> ->]. right.
    exists modelId, exit. by rewrite app_nil_r.
  - intros Hex. apply exec_ret_inv in Hex as [-> ->]. left. split; [done |].
    by eexists.
Qed.

Lemma respond_transcript `{Host} (env : Env) (exit : LoopExit) :
  countModel (transcript (respond env exit)) = countModel (steps (exitState exit))
  ∨ ∃ result st, exit = Finished result st.
Proof.
  destruct exit as [result st | st | err st].
  - right. by eexists _, _.
  - by left.
  - left. unfold respond, transcript. cbn [body exitState].
    rewrite countModel_app. cbn. lia.
Qed.

Lemma first_reply `{Host} (modelId : string) (n : nat) (st : RunState)
    (text : string) (tr : list (event NovaTextOptions ModelReply)) (exit : LoopExit) :
  exec (agentLoop modelId (S n) st) tr exit ->
  head (map replyOf tr) = Some (Normal text) ->
  ∀ err st', turn st text = Thrown err st' ->
  length tr = 1%nat ∧ exit = Caught err st'.
Proof.
  intros Hex Hhead err st' Hturn.
  apply agentLoop_step in Hex as (reply & tr' & -> & Hr).
  cbn in Hhead. injection Hhead as ->. rewrite Hturn in Hr.
  by destruct Hr as [-> ->].
Qed.

(** C1. Every run performs at most 8 model invocations; the transcript
    holds one Model step for each invocation that returned, hence at most
    8; when 8 invocations return and each of their texts is a tool decision
    that is carried out, the response is the failure "Agent exceeded max
    turns" with the transcript of those 8 turns; that response is never the
    response to a thrown error, a failed decision parse included, and its
    message is not the message of a failed parse. *)
Theorem turn_budget `{Host} (env : Env) (req : Request)
    (tr : list (event NovaTextOptions ModelReply)) (resp : Response) :
  exec (handler env req) tr resp ->
  (length tr <= 8)%nat
  ∧ countModel (transcript resp) = length (List.filter succeeded (map replyOf tr))
  ∧ (countModel (transcript resp) <= 8)%nat
  ∧ (∀ texts st',
       length texts = 8%nat ->
       map replyOf tr = map Normal texts ->
       continued (initialState (orElse (req_body req) (VObject []))) texts = Some st' ->
       resp = mkResponse 500 (BodyErrorSteps outOfTurns (steps st'))
       ∧ countModel (steps st') = 8%nat)
  ∧ (∀ error steps,
       body resp = BodyErrorSteps error steps ->
       error = outOfTurns ∧ length tr = 8%nat ∧ countModel steps = 8%nat)
  ∧ (∀ st err st', respond env (OutOfTurns st) ≠ respond env (Caught err st'))
  ∧ outOfTurns ≠ invalidDecision.
Proof.
  intros Hex.
  assert (Hdistinct : (∀ st err st', respond env (OutOfTurns st) ≠ respond env (Caught err st'))
                      ∧ outOfTurns ≠ invalidDecision) by done.
  apply handler_runs in Hex as [[-> (error & Hbody & Hstatus)] | (modelId & exit & Hloop & ->)].
  - unfold transcript. rewrite Hbody. cbn.
    split_and!; try lia; try tauto.
    + intros texts st' Hlen Hmap. by destruct texts.
    + intros error' steps' [=].
  - pose proof (agentLoop_bound _ _ _ _ _ Hloop) as (Hlen & Hcount & _ & Hout & Hfin).
    unfold maxTurns in *.
    change (countModel (steps (initialState _))) with 0%nat in Hcount.
    rewrite Nat.add_0_l in Hcount.
    assert (Htr : countModel (transcript (respond env exit))
                  = length (List.filter succeeded (map replyOf tr))).
    { rewrite <- Hcount.
      destruct (respond_transcript env exit) as [-> | (result & st & ->)]; [done |].
      cbn. by rewrite (Hfin result st eq_refl). }
    assert (Hle : (length (List.filter succeeded (map replyOf tr)) <= length tr)%nat).
    { etrans; [apply List.filter_length_le |]. by rewrite length_map. }
    split_and!; try lia; try tauto.
    + intros texts st' Htexts Hmap Hcont.
      rewrite <- Htexts in Hloop.
      pose proof (agentLoop_exhausts _ _ _ _ _ _ Hcont Hloop Hmap) as ->.
      split; [done |].
      destruct (Hout st' eq_refl) as [_ Hall].
      cbn [exitState] in Hcount. by rewrite Hcount.
    + intros error steps' Hbody.
      destruct exit as [result st | st | err st]; cbn in Hbody; try done.
      injection Hbody as <- <-. split; [done |].
      destruct (Hout st eq_refl) as [Hn Hall]. split; [done |].
      cbn [exitState] in Hcount. by rewrite Hcount.
Qed.

(** The claim on a run in which the model asks for [makePlan] at every
    turn: 8 invocations, then the failure for the exhausted budget. *)
Lemma turn_budget_witness :
  let m := handler (H := RefHost.host) Scenario.env Scenario.request in
  let tr := fst (run (Scenario.always Scenario.planDecision) 0 m) in
  let resp := snd (run (Scenario.always Scenario.planDecision) 0 m) in
  exec m tr resp
  ∧ length tr = 8%nat
  ∧ status resp = 500
  ∧ ∃ steps, body resp = BodyErrorSteps outOfTurns steps
             ∧ countModel steps = 8%nat ∧ length steps = 16%nat.
Proof.
  intros m tr resp.
  pose proof (turn_budget (H := RefHost.host) Scenario.env Scenario.request tr resp
                (run_exec (Scenario.always Scenario.planDecision) 0%nat m))
    as (_ & _ & _ & Hbudget & _).
  split; [exact (run_exec (Scenario.always Scenario.planDecision) 0%nat m) |].
  split; [by vm_compute |].
  destruct (Hbudget (replicate 8 Scenario.planDecision)
              (default Scenario.start
                 (continued (H := RefHost.host) Scenario.start
                    (replicate 8 Scenario.planDecision))))
    as [Hresp Hcount]; [by vm_compute .. |].
  rewrite Hresp. split; [done |].
  eexists. split; [done |]. split; [exact Hcount | by vm_compute].
Defined.

(** ** routes/agent.ts: failed decisions *)

(** C4 as stated fails: a text that parses to an object without [action]
    is not decodable as a decision, yet [safeJsonParse] returns the object,
    not [null]. *)
Lemma parse_absence_refuted :
  ¬ (∀ text, undecodable (H := RefHost.host) text ->
             safeJsonParse (H := RefHost.host) text = VNull).
Proof.
  intros Hall. specialize (Hall Scenario.noAction).
  assert (Hu : undecodable (H := RefHost.host) Scenario.noAction).
  { apply safeJsonParse_undecodable. intros (fields & a & Hv & Ha).
    vm_compute in Hv. injection Hv as <-. by vm_compute in Ha. }
  specialize (Hall Hu). by vm_compute in Hall.
Qed.

(** C4, amended. [safeJsonParse] never throws: it returns [null] when the
    extracted text does not parse, and the parsed value when it does.  When
    the text does not parse, or parses to something that is no object with
    an [action], the run ends at that turn with the decision-parse error,
    and its transcript is the earlier steps, one Model step for the turn
    and one Error step. *)
Theorem undecodable_fails `{Host} (env : Env) (modelId : string) (n : nat)
    (st : RunState) (text : string)
    (tr : list (event NovaTextOptions ModelReply)) (exit : LoopExit) :
  exec (agentLoop modelId (S n) st) tr exit ->
  head (map replyOf tr) = Some (Normal text) ->
  undecodable text ->
  (∀ e, JSON_parse (extractJsonObject text) = Throw e -> safeJsonParse text = VNull)
  ∧ (∀ v, JSON_parse (extractJsonObject text) = Normal v -> safeJsonParse text = v)
  ∧ length tr = 1%nat
  ∧ exit = Caught (newError invalidDecision) (heard st text)
  ∧ respond env exit
    = mkResponse 500
        (BodyFailure invalidDecision (toErrorDetails (newError invalidDecision))
           (hint env)
           (steps st ++ [StepModel text; StepError invalidDecision])%list).
Proof.
  intros Hex Hhead Hu.
  split; [by intros e He; unfold safeJsonParse; rewrite He |].
  split; [by intros v Hv; unfold safeJsonParse; rewrite Hv |].
  destruct (first_reply _ _ _ _ _ _ Hex Hhead _ _ (turn_undecodable st text Hu))
    as [Hlen ->].
  split; [done |]. split; [done |].
  cbn [respond heard steps]. by rewrite <- app_assoc.
Qed.

(** The amended claim on a first turn whose text is no JSON. *)
Lemma undecodable_fails_witness :
  let m := agentLoop (H := RefHost.host) "amazon.nova-lite-v1:0" 8 Scenario.start in
  let tr := fst (run (Scenario.always "I cannot answer.") 0 m) in
  let exit := snd (run (Scenario.always "I cannot answer.") 0 m) in
  length tr = 1%nat
  ∧ respond (H := RefHost.host) Scenario.env exit
    = mkResponse 500
        (BodyFailure invalidDecision
           (toErrorDetails (H := RefHost.host) (newError invalidDecision))
           (hint Scenario.env)
           [StepModel "I cannot answer."; StepError invalidDecision]).
Proof.
  intros m tr exit.
  destruct (undecodable_fails (H := RefHost.host) Scenario.env
              "amazon.nova-lite-v1:0" 7 Scenario.start "I cannot answer." tr exit)
    as (_ & _ & Hlen & _ & Hresp).
  - exact (run_exec (Scenario.always "I cannot answer.") 0%nat m).
  - by vm_compute.
  - by vm_compute.
  - by split.
Defined.

(** ** routes/agent.ts: unknown tools *)

Lemma unprintable_noString (v : value) : unprintable v = true <-> noString v.
Proof.
  revert v. fix IH 1. intros v.
  destruct v as [| | b | n | s | items | fields]; cbn [unprintable];
    try (split; [discriminate | inversion 1]).
  - assert (Hitems : Forall (λ x, unprintable x = true <-> noString x) items).
    { clear -IH. revert items. fix IHitems 1. intros [| x items].
      - constructor.
      - constructor; [apply IH | apply IHitems]. }
    clear IH. rewrite Forall_forall in Hitems. split.
    + intros Hex. apply List.existsb_exists in Hex as (x & Hin & Hx).
      apply list_elem_of_In in Hin.
      apply (noString_array items x); [done | by apply Hitems].
    + inversion 1 as [| items' x Hin Hx]; subst.
      apply List.existsb_exists. exists x.
      split; [by apply list_elem_of_In | by apply Hitems].
  - clear IH. rewrite bool_decide_eq_true. split.
    + intros [x Hx]. by apply (noString_object fields x).
    + inversion 1; subst. by eexists.
Qed.

Lemma toString_noString `{Host} (v : value) :
  noString v -> toString v = Throw toPrimitiveError.
Proof. intros Hv. apply unprintable_noString in Hv. unfold toString. by rewrite Hv. Qed.

Lemma toString_string `{Host} (v : value) :
  ¬ noString v ->
  ∃ name, toString v = Normal name
          ∧ (∀ s, v = VString s -> name = s)
          ∧ (v = VUndefined -> name = "undefined").
Proof.
  intros Hv. rewrite <- unprintable_noString in Hv. apply not_true_is_false in Hv.
  unfold toString. rewrite Hv. eexists. split; [done |].
  split; [by intros s -> | by intros ->].
Qed.

Lemma isToolName_none (v : value) : isToolName v = None <-> ¬ namesTool v.
Proof.
  unfold namesTool, toolNames. split.
  - intros Hv (name & Hin & ->).
    rewrite !elem_of_cons, elem_of_nil in Hin.
    by destruct Hin as [-> | [-> | [-> | []]]].
  - intros Hv. unfold isToolName, isStr.
    destruct v as [| | | | s | |]; try done.
    destruct (String.eqb s "makePlan") eqn:E1.
    { apply String.eqb_eq in E1 as ->. destruct Hv. eexists. split; [| done].
      apply list_elem_of_here. }
    destruct (String.eqb s "retrieve") eqn:E2.
    { apply String.eqb_eq in E2 as ->. destruct Hv. eexists. split; [| done].
      apply list_elem_of_further, list_elem_of_here. }
    destruct (String.eqb s "writeDraft") eqn:E3; [| done].
    apply String.eqb_eq in E3 as ->. destruct Hv. eexists. split; [| done].
    do 2 apply list_elem_of_further. apply list_elem_of_here.
Qed.

Lemma isStr_eq (v : value) (s : string) : isStr v s = true <-> v = VString s.
Proof.
  unfold isStr. destruct v as [| | | | t | |]; try (split; discriminate).
  rewrite String.eqb_eq. split; [by intros -> | by intros [= ->]].
Qed.

Lemma turn_unknown_tool `{Host} (st : RunState) (text : string) :
  carriesAction (safeJsonParse text) ->
  isStr (get (safeJsonParse text) "action") "tool" = true ->
  isToolName (get (safeJsonParse text) "tool") = None ->
  turn st text
  = Thrown
      match toString (get (safeJsonParse text) "tool") with
      | Normal name => newError ("Unknown or missing tool: " ++ name)
      | Throw e => e
      end
      (heard st text).
Proof.
  intros Hc Htool Hname. apply guard_carriesAction in Hc.
  unfold turn. rewrite Hc, Htool, Hname.
  destruct (get (safeJsonParse text) "action") as [| | | | s | |]; try done.
  unfold isStr in Htool. apply String.eqb_eq in Htool as ->.
  cbn. by destruct (toString _).
Qed.

Lemma turn_unknown_action `{Host} (st : RunState) (text : string) :
  carriesAction (safeJsonParse text) ->
  isStr (get (safeJsonParse text) "action") "final" = false ->
  isStr (get (safeJsonParse text) "action") "tool" = false ->
  isToolName (get (safeJsonParse text) "action") = None ->
  turn st text
  = Thrown
      match toString (get (safeJsonParse text) "action") with
      | Normal name => newError ("Unknown model action: " ++ name)
      | Throw e => e
      end
      (heard st text).
Proof.
  intros Hc Hfinal Htool Hname. apply guard_carriesAction in Hc.
  unfold turn. rewrite Hc, Hfinal, Hname, Htool. by destruct (toString _).
Qed.

(** C5 as stated fails: a decision in the compact form whose action names
    no tool ends the run with the error "Unknown model action", which is
    not the unknown-tool error. *)
Lemma unknown_tool_compact_refuted :
  ¬ ∃ err st',
      turn (H := RefHost.host) Scenario.start Scenario.compactUnknown = Thrown err st'
      ∧ unknownToolError err.
Proof.
  intros (err & st' & Hturn & name & ->).
  vm_compute in Hturn. discriminate Hturn.
Qed.

(** C5, amended. A decision in the canonical form whose [tool] is none of
    the three names ends the run with the unknown-tool error, which
    carries the name, or [undefined] for a missing [tool]; a decision
    whose [action] is neither [final], nor [tool], nor one of the three
    names ends the run with the unknown-action error.  The one exception
    is a [tool] or an [action] that [String] cannot turn into a string,
    an object with an own property [toString] or an array that holds one:
    the run then ends with the [TypeError] of that conversion.  In every
    case no further model invocation follows and the Tool Context is the
    one from before the turn. *)
Theorem unknown_tool_leaves_context `{Host} (modelId : string) (n : nat)
    (st : RunState) (text : string)
    (tr : list (event NovaTextOptions ModelReply)) (exit : LoopExit) :
  exec (agentLoop modelId (S n) st) tr exit ->
  head (map replyOf tr) = Some (Normal text) ->
  carriesAction (safeJsonParse text) ->
  let parsed := safeJsonParse text in
  (get parsed "action" = VString "tool" ->
   ¬ namesTool (get parsed "tool") ->
   length tr = 1%nat
   ∧ toolCtx (exitState exit) = toolCtx st
   ∧ ∃ err,
       exit = Caught err (heard st text)
       ∧ (∀ name, get parsed "tool" = VString name ->
                  err = newError ("Unknown or missing tool: " ++ name))
       ∧ (get parsed "tool" = VUndefined ->
          err = newError "Unknown or missing tool: undefined")
       ∧ (¬ noString (get parsed "tool") -> unknownToolError err)
       ∧ (noString (get parsed "tool") -> err = toPrimitiveError))
  ∧ (get parsed "action" ≠ VString "final" ->
     get parsed "action" ≠ VString "tool" ->
     ¬ namesTool (get parsed "action") ->
     length tr = 1%nat
     ∧ toolCtx (exitState exit) = toolCtx st
     ∧ ∃ err,
         exit = Caught err (heard st text)
         ∧ (∀ name, get parsed "action" = VString name ->
                    err = newError ("Unknown model action: " ++ name))
         ∧ (¬ noString (get parsed "action") ->
            ∃ name, err = newError ("Unknown model action: " ++ name))
         ∧ (noString (get parsed "action") -> err = toPrimitiveError)).
Proof.
  intros Hex Hhead Hc parsed. split.
  - intros Htool Hname.
    apply isStr_eq in Htool. apply isToolName_none in Hname.
    destruct (first_reply _ _ _ _ _ _ Hex Hhead _ _
                (turn_unknown_tool st text Hc Htool Hname)) as [Hlen ->].
    split_and!; [done | done |]. eexists. split; [done |]. fold parsed.
    split_and!.
    + intros name Hv.
      destruct (toString_string (get parsed "tool")) as (s & -> & Hs & _);
        [rewrite Hv; inversion 1 |].
      by rewrite (Hs name Hv).
    + intros Hv.
      destruct (toString_string (get parsed "tool")) as (s & -> & _ & Hs);
        [rewrite Hv; inversion 1 |].
      by rewrite (Hs Hv).
    + intros Hv. destruct (toString_string _ Hv) as (s & -> & _). by exists s.
    + intros Hv. by rewrite (toString_noString _ Hv).
  - intros Hfinal Htool Hname.
    rewrite <- isStr_eq in Hfinal, Htool.
    apply not_true_is_false in Hfinal, Htool. apply isToolName_none in Hname.
    destruct (first_reply _ _ _ _ _ _ Hex Hhead _ _
                (turn_unknown_action st text Hc Hfinal Htool Hname)) as [Hlen ->].
    split_and!; [done | done |]. eexists. split; [done |]. fold parsed.
    split_and!.
    + intros name Hv.
      destruct (toString_string (get parsed "action")) as (s & -> & Hs & _);
        [rewrite Hv; inversion 1 |].
      by rewrite (Hs name Hv).
    + intros Hv. destruct (toString_string _ Hv) as (s & -> & _). by exists s.
    + intros Hv. by rewrite (toString_noString _ Hv).
Qed.

(** The amended claim on the tool name [deleteAll] in the canonical form,
    after a plan was made, and on a [tool] that has no string form. *)
Lemma unknown_tool_leaves_context_witness :
  let st := default Scenario.start
              (continued (H := RefHost.host) Scenario.start [Scenario.planDecision]) in
  let m := agentLoop (H := RefHost.host) "amazon.nova-lite-v1:0" 7 st in
  let tr := fst (run (Scenario.always Scenario.canonicalUnknown) 0 m) in
  let exit := snd (run (Scenario.always Scenario.canonicalUnknown) 0 m) in
  let tr' := fst (run (Scenario.always Scenario.unprintableTool) 0 m) in
  let exit' := snd (run (Scenario.always Scenario.unprintableTool) 0 m) in
  (length tr = 1%nat
   ∧ exit = Caught (newError "Unknown or missing tool: deleteAll")
              (heard st Scenario.canonicalUnknown)
   ∧ toolCtx (exitState exit) = toolCtx st
   ∧ length (plan (toolCtx st)) = 5%nat)
  ∧ (length tr' = 1%nat
     ∧ exit' = Caught (toPrimitiveError (Host := RefHost.host))
                 (heard st Scenario.unprintableTool)
     ∧ toolCtx (exitState exit') = toolCtx st).
Proof.
  intros st m tr exit tr' exit'. split.
  - destruct (unknown_tool_leaves_context (H := RefHost.host)
                "amazon.nova-lite-v1:0" 6 st Scenario.canonicalUnknown tr exit)
      as [Hcanonical _].
    + exact (run_exec (Scenario.always Scenario.canonicalUnknown) 0%nat m).
    + by vm_compute.
    + apply guard_carriesAction. by vm_compute.
    + destruct Hcanonical as (Hlen & Hctx & err & Hexit & Hname & _).
      * by vm_compute.
      * apply isToolName_none. by vm_compute.
      * split; [exact Hlen |]. split; [| split; [exact Hctx | by vm_compute]].
        rewrite Hexit. f_equal. apply (Hname "deleteAll"). by vm_compute.
  - destruct (unknown_tool_leaves_context (H := RefHost.host)
                "amazon.nova-lite-v1:0" 6 st Scenario.unprintableTool tr' exit')
      as [Hcanonical _].
    + exact (run_exec (Scenario.always Scenario.unprintableTool) 0%nat m).
    + by vm_compute.
    + apply guard_carriesAction. by vm_compute.
    + destruct Hcanonical as (Hlen & Hctx & err & Hexit & _ & _ & _ & Hthrow).
      * by vm_compute.
      * apply isToolName_none. by vm_compute.
      * split; [exact Hlen |]. split; [| exact Hctx].
        rewrite Hexit. f_equal. apply Hthrow.
        apply unprintable_noString. by vm_compute.
Defined.

(** ** routes/agent.ts: failure responses *)

(** C9 as stated fails: the failure for the exhausted turn budget carries
    [error] and [steps], and neither [details] nor [hint]. *)
Lemma failure_shape_refuted :
  let resp := snd (run (Scenario.always Scenario.planDecision) 0
                     (handler (H := RefHost.host) Scenario.env Scenario.request)) in
  status resp = 500
  ∧ bodyKeys (body resp) ≠ ["error"; "details"; "hint"; "steps"].
Proof. by vm_compute. Qed.

(** C9, amended. A failure response has one of three shapes.  A request
    refused before the run (no key, no goal, no model id) is answered with
    [error] alone, and no model invocation is made.  A run that uses up its
    turns is answered with [error] and [steps].  A run ended by a thrown
    error is answered with [error], [details], [hint] and [steps].  In the
    last two cases [steps] is the transcript the run had accumulated,
    followed in the last case by the Error step. *)
Theorem failure_shapes `{Host} (env : Env) (req : Request)
    (tr : list (event NovaTextOptions ModelReply)) (resp : Response) :
  exec (handler env req) tr resp ->
  status resp ≠ 200 ->
  (tr = [] ∧ bodyKeys (body resp) = ["error"])
  ∨ (∃ modelId exit,
       exec (agentLoop modelId maxTurns
               (initialState (orElse (req_body req) (VObject [])))) tr exit
       ∧ status resp = 500
       ∧ ((∃ st, exit = OutOfTurns st
                 ∧ body resp = BodyErrorSteps outOfTurns (steps st)
                 ∧ bodyKeys (body resp) = ["error"; "steps"])
          ∨ (∃ err st, exit = Caught err st
                       ∧ body resp
                         = BodyFailure (d_message (toErrorDetails err))
                             (toErrorDetails err) (hint env)
                             (steps st ++ [StepError (d_message (toErrorDetails err))])%list
                       ∧ bodyKeys (body resp) = ["error"; "details"; "hint"; "steps"]))).
Proof.
  intros Hex Hstatus.
  apply handler_runs in Hex as [[-> (error & Hbody & _)] | (modelId & exit & Hloop & ->)].
  - left. by rewrite Hbody.
  - right. exists modelId, exit. split; [done |].
    destruct exit as [result st | st | err st]; [done | |].
    + split; [done |]. left. by exists st.
    + split; [done |]. right. by exists err, st.
Qed.

(** The amended claim on the run that uses up its turns. *)
Lemma failure_shapes_witness :
  let m := handler (H := RefHost.host) Scenario.env Scenario.request in
  let tr := fst (run (Scenario.always Scenario.planDecision) 0 m) in
  let resp := snd (run (Scenario.always Scenario.planDecision) 0 m) in
  status resp ≠ 200
  ∧ ((tr = [] ∧ bodyKeys (body resp) = ["error"])
     ∨ (∃ modelId exit,
          exec (agentLoop (H := RefHost.host) modelId maxTurns
                  (initialState (orElse (req_body Scenario.request) (VObject [])))) tr exit
          ∧ status resp = 500
          ∧ ((∃ st, exit = OutOfTurns st
                    ∧ body resp = BodyErrorSteps outOfTurns (steps st)
                    ∧ bodyKeys (body resp) = ["error"; "steps"])
             ∨ (∃ err st, exit = Caught err st
                          ∧ body resp
                            = BodyFailure
                                (d_message (toErrorDetails (H := RefHost.host) err))
                                (toErrorDetails (H := RefHost.host) err)
                                (hint Scenario.env)
                                (steps st
                                 ++ [StepError
                                       (d_message (toErrorDetails (H := RefHost.host) err))])%list
                          ∧ bodyKeys (body resp)
                            = ["error"; "details"; "hint"; "steps"])))).
Proof.
  intros m tr resp.
  assert (Hstatus : status resp ≠ 200) by (by vm_compute).
  split; [exact Hstatus |].
  apply (failure_shapes (H := RefHost.host) Scenario.env Scenario.request tr resp).
  - exact (run_exec (Scenario.always Scenario.planDecision) 0%nat m).
  - exact Hstatus.
Defined.


(** * Further properties *)

Import Server Client Proxy SpecX.

(** ** retrieval.ts: tokens *)

Lemma occurs_app (c : ascii) (a b : string) :
  occurs c (a ++ b) <-> occurs c a ∨ occurs c b.
Proof.
  induction a as [| x a IH].
  - rewrite append_empty_l. cbn. tauto.
  - rewrite append_cons. cbn. rewrite IH. tauto.
Qed.

Lemma occurs_map_chars (f : ascii -> ascii) (c : ascii) (s : string) :
  occurs c (map_chars f s) -> ∃ d, c = f d.
Proof.
  induction s as [| x s IH]; cbn; [done |].
  intros [<- | Hc]; [by exists x | by apply IH].
Qed.

Lemma blank_kept (d : ascii) :
  is_lower_alnum (blank d) = true ∨ is_space (blank d) = true.
Proof.
  unfold blank. destruct (is_lower_alnum d || is_space d) eqn:E.
  - by apply orb_true_iff in E.
  - right. reflexivity.
Qed.

(** The pieces of a split hold no space, and nothing but characters of
    the text or of the piece under way. *)
Lemma splitSpacesFrom_pieces (P : ascii -> Prop) (s cur : string) (inRun : bool) :
  (∀ c, occurs c s -> is_space c = false -> P c) ->
  (∀ c, occurs c cur -> P c) ->
  Forall (λ piece, ∀ c, occurs c piece -> P c) (splitSpacesFrom s cur inRun).
Proof.
  revert cur inRun. induction s as [| x s IH]; intros cur inRun Hs Hcur; cbn.
  - by constructor.
  - assert (Hs' : ∀ c, occurs c s -> is_space c = false -> P c)
      by (intros c Hc; apply Hs; by right).
    destruct (is_space x) eqn:Hx.
    + destruct inRun; [by apply IH |].
      constructor; [done |]. by apply IH.
    + apply IH; [done |].
      intros c Hc. apply occurs_app in Hc as [Hc | Hc]; [by apply Hcur |].
      cbn in Hc. destruct Hc as [<- | []]. apply Hs; [by left | done].
Qed.

(** X1. Every token is not empty and holds only lower-case letters and
    digits, whatever the text. *)
Theorem tokenize_tokens (s : string) : Forall wellFormedToken (tokenize s).
Proof.
  assert (Hpieces : Forall (λ piece, ∀ c, occurs c piece -> is_lower_alnum c = true)
                      (splitSpaces (map_chars blank (toLowerCase s)))).
  { apply (splitSpacesFrom_pieces (λ c, is_lower_alnum c = true)); [| done].
    intros c Hc Hspace. apply occurs_map_chars in Hc as [d ->].
    destruct (blank_kept d) as [Ha | Hsp]; [done | congruence]. }
  unfold tokenize. apply Forall_forall. intros t Ht.
  apply list_elem_of_filter in Ht as [Hne Ht]. split; [done |].
  rewrite Forall_forall in Hpieces. by apply Hpieces.
Qed.

(** ** retrieval.ts: what the hits depend on *)

Lemma overlap_perm (q1 q2 : list string) (doc : Doc) :
  q1 ≡ₚ q2 -> overlap q1 doc = overlap q2 doc.
Proof. intros Hq. unfold overlap. by rewrite Hq. Qed.

Lemma ranked_perm (q1 q2 : list string) : q1 ≡ₚ q2 -> ranked q1 = ranked q2.
Proof.
  intros Hq. unfold ranked. f_equal. f_equal.
  apply map_ext. intros doc.
  by rewrite !scoreDoc_overlap; unfold scoredAs; rewrite (overlap_perm q1 q2).
Qed.

(** X2. The hits depend on the query only through its tokens, whatever
    their order: two queries with the same tokens, each as often, get the
    same hits. *)
Theorem retrieve_token_multiset (a b : string) (limit : Z) :
  tokenize a ≡ₚ tokenize b ->
  Retrieval.retrieve a limit = Retrieval.retrieve b limit.
Proof.
  intros Hq. unfold Retrieval.retrieve.
  by rewrite (ranked_perm _ _ Hq), (Permutation_length Hq).
Qed.

Lemma retrieve_token_multiset_witness :
  Retrieval.retrieve "video demo" 5 = Retrieval.retrieve "Demo, VIDEO!" 5.
Proof.
  apply (retrieve_token_multiset "video demo" "Demo, VIDEO!" 5).
  vm_compute. apply perm_swap.
Defined.

Lemma lower_char_fixed (c : ascii) : lower_char (lower_char c) = lower_char c.
Proof. destruct c as [[] [] [] [] [] [] [] []]; reflexivity. Qed.

Lemma toLowerCase_fixed (s : string) : toLowerCase (toLowerCase s) = toLowerCase s.
Proof.
  unfold toLowerCase. induction s as [| c s IH]; cbn; [done |].
  by rewrite lower_char_fixed, IH.
Qed.

(** X3. Letter case does not matter to retrieval: a query and its
    lower-case form have the same tokens and get the same hits. *)
Theorem retrieve_ignores_case (query : string) (limit : Z) :
  tokenize (toLowerCase query) = tokenize query
  ∧ Retrieval.retrieve (toLowerCase query) limit = Retrieval.retrieve query limit.
Proof.
  assert (Ht : tokenize (toLowerCase query) = tokenize query)
    by (unfold tokenize; by rewrite toLowerCase_fixed).
  split; [done |]. unfold Retrieval.retrieve. by rewrite Ht.
Qed.

(** ** retrieval.ts: bounds on the hits *)

Lemma arraySlice_from_start {A} (l : list A) (stop : Z) :
  ∃ k, arraySlice l 0 stop = take k l.
Proof.
  unfold arraySlice. eexists.
  replace (relIndex (Z.of_nat (length l)) 0) with 0; [by rewrite Z.sub_0_r |].
  unfold relIndex. cbn. lia.
Qed.

Lemma overlap_bounds (q : list string) (doc : Doc) :
  0 <= overlap q doc <= Z.of_nat (length q).
Proof.
  unfold overlap. split; [lia |].
  apply inj_le, length_filter.
Qed.

Lemma DOCS_ids : NoDup (doc_id <$> DOCS).
Proof. apply (bool_decide_unpack _). by vm_compute. Qed.

(** X4. Whatever the query and the limit, every hit is a document of the
    corpus, no document is returned twice, there are at most as many hits
    as documents, at most [limit] when the limit is not negative, and the
    score of a hit is at least 1 and at most the number of query tokens.
    A query without tokens gets no hit. *)
Theorem retrieve_bounds (query : string) (limit : Z) :
  Forall (λ h, ∃ doc, doc ∈ DOCS ∧ hit_id h = doc_id doc ∧ hit_title h = doc_title doc
                      ∧ 1 <= hit_score h <= Z.of_nat (length (tokenize query)))
    (Retrieval.retrieve query limit)
  ∧ NoDup (hit_id <$> Retrieval.retrieve query limit)
  ∧ (length (Retrieval.retrieve query limit) <= length DOCS)%nat
  ∧ (0 <= limit -> Z.of_nat (length (Retrieval.retrieve query limit)) <= limit)
  ∧ (tokenize query = [] -> Retrieval.retrieve query limit = []).
Proof.
  set (q := tokenize query).
  set (docs := arraySort (byKeyDesc (overlap q)) (filter (λ doc, overlap q doc > 0) DOCS)).
  assert (Hperm : docs ≡ₚ filter (λ doc, overlap q doc > 0) DOCS)
    by apply arraySort_perm.
  assert (Hempty : q = [] -> Retrieval.retrieve query limit = []).
  { intros Hq. unfold Retrieval.retrieve. fold q. by rewrite Hq. }
  destruct (arraySlice_from_start docs limit) as [k Hk].
  assert (Hhits : q ≠ [] -> Retrieval.retrieve query limit = hitFor q <$> take k docs).
  { intros Hq. unfold Retrieval.retrieve. fold q.
    destruct (Z.of_nat (length q) =? 0) eqn:E;
      [by apply tokens_length_zero in E |].
    rewrite ranked_by_overlap, arraySlice_map, map_map. fold docs. by rewrite Hk. }
  destruct (decide (q = [])) as [Hq | Hq].
  { rewrite (Hempty Hq). cbn. split_and!; try done; try lia. constructor. }
  rewrite (Hhits Hq).
  assert (Hkept : take k docs ⊆+ filter (λ doc, overlap q doc > 0) DOCS).
  { etrans; [apply sublist_submseteq, sublist_take |]. by rewrite Hperm. }
  assert (Hsub : take k docs ⊆+ DOCS).
  { etrans; [exact Hkept |]. apply sublist_submseteq, sublist_filter. }
  split_and!.
  - apply Forall_fmap, Forall_forall. intros doc Hdoc.
    pose proof (elem_of_submseteq _ _ _ Hdoc Hkept) as Hin.
    apply list_elem_of_filter in Hin as [Hpos Hin].
    exists doc. cbn. pose proof (overlap_bounds q doc). split_and!; try done; lia.
  - rewrite <- list_fmap_compose.
    change (hit_id ∘ hitFor q) with doc_id.
    assert (Hdocs : NoDup (doc_id <$> docs)).
    { rewrite Hperm. eapply sublist_NoDup; [apply DOCS_ids | apply fmap_sublist, sublist_filter]. }
    eapply sublist_NoDup; [exact Hdocs | apply fmap_sublist, sublist_take].
  - rewrite length_fmap. by apply submseteq_length.
  - intros Hl. rewrite length_fmap, <- Hk.
    rewrite arraySlice_prefix by done. rewrite length_take. lia.
  - done.
Qed.

(** ** retrieval.ts: the snippet *)

Lemma length_substring_start (s : string) (n : nat) :
  (n <= String.length s)%nat -> String.length (String.substring 0 n s) = n.
Proof.
  revert n. induction s as [| x s IH]; intros n Hn.
  - cbn in Hn. by replace n with 0%nat by lia.
  - destruct n as [| n]; [done |]. cbn. rewrite IH; [done | cbn in Hn; lia].
Qed.

(** X5. The snippet of a hit is the text of its document when the text
    has at most 400 code units; otherwise it is the first 400 code units
    of the text followed by the ellipsis, the one code unit U+2026, in
    the place of the rest: a cut snippet has 401 code units, and no
    snippet has more. *)
Theorem snippet_cut (x : Scored) :
  let text := doc_text (d x) in
  let snippet := hit_snippet (toHit x) in
  (len text <= 400 -> snippet = text)
  ∧ (len text > 400 ->
     ∃ pre rest,
       text = pre ++ rest
       ∧ String.length pre = 400%nat
       ∧ rest ≠ EmptyString
       ∧ snippet = pre ++ ellipsis
       ∧ len snippet = 401)
  ∧ len snippet <= 401
  ∧ (∃ c, ellipsis = String c EmptyString ∧ code c = 8230).
Proof.
  intros text snippet.
  assert (Hshort : len text <= 400 -> snippet = text).
  { intros Hlen. subst snippet. unfold toHit. cbn [hit_snippet]. fold text.
    replace (len text >? 400) with false; [done |].
    symmetry. rewrite Z.gtb_ltb. apply Z.ltb_ge. lia. }
  assert (Hcut : len text > 400 ->
            ∃ pre rest,
              text = pre ++ rest
              ∧ String.length pre = 400%nat
              ∧ rest ≠ EmptyString
              ∧ snippet = pre ++ ellipsis
              ∧ len snippet = 401).
  { intros Hlen. subst snippet. unfold toHit. cbn [hit_snippet]. fold text.
    replace (len text >? 400) with true
      by (symmetry; rewrite Z.gtb_ltb; apply Z.ltb_lt; lia).
    unfold len in Hlen.
    pose proof (substring_split text 400 ltac:(lia)) as Hsplit.
    pose proof (length_substring_start text 400 ltac:(lia)) as Hpre.
    assert (Hslice : slice text 0 400 = String.substring 0 400 text).
    { unfold slice, relIndex, len. cbn [Z.ltb Z.compare].
      rewrite Z.min_l, Z.min_l by lia. reflexivity. }
    rewrite Hslice.
    exists (String.substring 0 400 text), (dropStart 400 text).
    split_and!; [done | done | | done |].
    - intros Hrest. apply (f_equal String.length) in Hsplit.
      rewrite Hrest, append_empty_r, Hpre in Hsplit. lia.
    - unfold len. rewrite length_append, Hpre. by cbn. }
  split_and!; [done | done | |].
  - destruct (Z_le_gt_dec (len text) 400) as [Hle | Hgt].
    + rewrite (Hshort Hle). lia.
    + destruct (Hcut Hgt) as (pre & rest & _ & _ & _ & _ & Hlen). lia.
  - eexists. split; [reflexivity | by vm_compute].
Qed.

(** A text of 450 code units: the snippet is its first 400 and the
    ellipsis. *)
Lemma snippet_cut_witness :
  let x := mkScored (mkDoc "id" "title" (ScenarioX.repeated 450 "a")) 1 in
  len (doc_text (d x)) > 400
  ∧ hit_snippet (toHit x) = ScenarioX.repeated 400 "a" ++ ellipsis
  ∧ len (hit_snippet (toHit x)) = 401.
Proof.
  intros x.
  assert (Hlong : len (doc_text (d x)) > 400) by (by vm_compute).
  split; [exact Hlong |]. split; [by vm_compute |].
  destruct (proj1 (proj2 (snippet_cut x)) Hlong) as (pre & rest & _ & _ & _ & _ & Hlen).
  exact Hlen.
Defined.

(** ** tools.ts: how the tools compose *)

(** X6. The result of [makePlan] is the plan the context then holds: five
    steps, the first naming the input, whatever the context held before.
    The result of [writeDraft] is the draft the context then holds, the
    input itself when the input is a string.  Of two plans, or two drafts,
    the later one stays; a plan and a draft can be written in either
    order. *)
Theorem tools_compose `{Host} (ctx ctx' : ToolContext) (i1 i2 : value) :
  snd (makePlan ctx i1) = PlanResult (plan (fst (makePlan ctx i1)))
  ∧ length (plan (fst (makePlan ctx i1))) = 5%nat
  ∧ (∀ s, i1 = VString s ->
          head (plan (fst (makePlan ctx i1))) = Some ("Understand the goal: " ++ s))
  ∧ plan (fst (makePlan ctx i1)) = plan (fst (makePlan ctx' i1))
  ∧ snd (writeDraft ctx i1) = DraftResult (draft (fst (writeDraft ctx i1)))
  ∧ (∀ s, i1 = VString s -> draft (fst (writeDraft ctx i1)) = Some s)
  ∧ fst (makePlan (fst (makePlan ctx i1)) i2) = fst (makePlan ctx i2)
  ∧ fst (writeDraft (fst (writeDraft ctx i1)) i2) = fst (writeDraft ctx i2)
  ∧ fst (makePlan (fst (writeDraft ctx i1)) i2)
    = fst (writeDraft (fst (makePlan ctx i2)) i1).
Proof.
  split_and!; try done.
  - by intros s ->.
  - by intros s ->.
Qed.

(** ** routes/agent.ts: tool names and the two forms of a tool decision *)

Lemma isToolName_iff (x : value) (tool : ToolName) :
  isToolName x = Some tool <-> x = VString (toolNameText tool).
Proof.
  split.
  - unfold isToolName, isStr. destruct x as [| | | | s | |]; try done.
    destruct (String.eqb s "makePlan") eqn:E1;
      [apply String.eqb_eq in E1 as ->; by intros [= <-] |].
    destruct (String.eqb s "retrieve") eqn:E2;
      [apply String.eqb_eq in E2 as ->; by intros [= <-] |].
    destruct (String.eqb s "writeDraft") eqn:E3;
      [apply String.eqb_eq in E3 as ->; by intros [= <-] | done].
  - intros ->. by destruct tool.
Qed.

Lemma isToolName_not_final (x : value) (tool : ToolName) :
  isToolName x = Some tool -> isStr x "final" = false ∧ isStr x "tool" = false.
Proof.
  intros Hx. apply isToolName_iff in Hx as ->. by destruct tool.
Qed.

Lemma turn_named `{Host} (st : RunState) (text : string) (tool : ToolName) :
  carriesAction (safeJsonParse text) ->
  namedIn (safeJsonParse text) (toolNameText tool) ->
  turn st text = toolTurn (heard st text) tool (get (safeJsonParse text) "input").
Proof.
  intros Hc Hnamed. apply guard_carriesAction in Hc.
  unfold turn. fold (heard st text). rewrite Hc.
  destruct Hnamed as [Haction | [Haction Htool]].
  - apply isToolName_iff in Haction.
    destruct (isToolName_not_final _ _ Haction) as [Hfinal _].
    by rewrite Hfinal, Haction.
  - apply isToolName_iff in Htool. rewrite Haction. cbn. by rewrite Htool.
Qed.

(** X8. What a tool decision does, in either form: when the [action], or
    the [tool] of a decision whose [action] is "tool", is [makePlan],
    [retrieve] or [writeDraft], the turn calls that tool on [input] with
    the Tool Context of the run, records the Model step and the Tool step
    with the input and the output, and sends the output back in a user
    turn under the name of the tool; when [retrieve] throws, the run ends
    with its error after the Model step.  In the compact form the
    property [tool] is not looked at.  No other decision is carried out.
    A decision whose [action] is "final" ends the run with its [output]
    as a string, the empty string when [output] is absent or [null];
    when [output] has no string form the run ends with the [TypeError] of
    the conversion. *)
Theorem decision_forms_agree `{Host} (st : RunState) (text : string) :
  carriesAction (safeJsonParse text) ->
  let parsed := safeJsonParse text in
  let input := get parsed "input" in
  (namedIn parsed "makePlan" ->
   turn st text
   = Continue (carriedOut st text MakePlan "makePlan" input
                 (snd (makePlan (toolCtx st) input)) (fst (makePlan (toolCtx st) input))))
  ∧ (namedIn parsed "writeDraft" ->
     turn st text
     = Continue (carriedOut st text WriteDraft "writeDraft" input
                   (snd (writeDraft (toolCtx st) input))
                   (fst (writeDraft (toolCtx st) input))))
  ∧ (namedIn parsed "retrieve" ->
     turn st text
     = match Tools.retrieve (toolCtx st) input with
       | (ctx, Normal out) => Continue (carriedOut st text Retrieve "retrieve" input out ctx)
       | (ctx, Throw e) => Thrown e (heard st text)
       end)
  ∧ (∀ st', turn st text = Continue st' -> ∃ name, name ∈ toolNames ∧ namedIn parsed name)
  ∧ (get parsed "action" = VString "final" ->
     (noString (outputOf text) -> turn st text = Thrown toPrimitiveError (heard st text))
     ∧ (¬ noString (outputOf text) ->
        ∃ answer,
          turn st text
          = Respond (mkResult answer (steps st ++ [StepModel text])%list) (heard st text)
          ∧ (∀ s, get parsed "output" = VString s -> answer = s)
          ∧ (get parsed "output" = VUndefined ∨ get parsed "output" = VNull ->
             answer = EmptyString))).
Proof.
  intros Hc parsed input.
  assert (Hrun : ∀ tool, namedIn parsed (toolNameText tool) ->
            turn st text = toolTurn (heard st text) tool input)
    by (intros tool; by apply turn_named).
  split_and!.
  - intros Hn. rewrite (Hrun MakePlan Hn). unfold toolTurn, carriedOut, fedBack.
    cbn. by rewrite <- !app_assoc.
  - intros Hn. rewrite (Hrun WriteDraft Hn). unfold toolTurn, carriedOut, fedBack.
    cbn. by rewrite <- !app_assoc.
  - intros Hn. rewrite (Hrun Retrieve Hn). unfold toolTurn, carriedOut, fedBack.
    cbn [callTool heard toolCtx steps AgentRoute.messages].
    destruct (Tools.retrieve (toolCtx st) input) as [ctx [out | e]] eqn:Hr.
    + cbn. by rewrite <- !app_assoc.
    + unfold Tools.retrieve in Hr. destruct (inputText input); [done |].
      by injection Hr as <- _.
  - intros st' Ht. subst parsed input. clear Hrun.
    assert (Hlisted : ∀ t, toolNameText t ∈ toolNames).
    { intros t. unfold toolNames. rewrite !elem_of_cons. destruct t; cbn; tauto. }
    apply guard_carriesAction in Hc.
    unfold turn in Ht. rewrite Hc in Ht. revert Ht.
    destruct (isStr (get (safeJsonParse text) "action") "final");
      [by destruct (toString _) |].
    destruct (isToolName (get (safeJsonParse text) "action")) as [t |] eqn:Ha.
    { intros _. apply isToolName_iff in Ha. exists (toolNameText t).
      split; [done | by left]. }
    destruct (isStr (get (safeJsonParse text) "action") "tool") eqn:Hat;
      [| by destruct (toString _)].
    destruct (isToolName (get (safeJsonParse text) "tool")) as [t |] eqn:Htl;
      [| by destruct (toString _)].
    intros _. apply isToolName_iff in Htl. apply isStr_eq in Hat.
    exists (toolNameText t). split; [done | by right].
  - intros Hfinal. subst parsed input. clear Hrun.
    apply isStr_eq in Hfinal. apply guard_carriesAction in Hc.
    unfold turn. fold (heard st text). rewrite Hc, Hfinal.
    fold (outputOf text). split.
    + intros Hno. by rewrite (toString_noString _ Hno).
    + intros Hok. destruct (toString_string _ Hok) as (answer & -> & Hs & _).
      exists answer. split; [done |]. unfold outputOf in Hs.
      split.
      * intros s Hout. apply (Hs s). by rewrite Hout.
      * intros [Hout | Hout]; apply (Hs EmptyString); by rewrite Hout.
Qed.

(** The compact form of a plan request with the reference host. *)
Lemma decision_forms_agree_witness :
  let parsed := safeJsonParse (H := RefHost.host) Scenario.planDecision in
  carriesAction parsed
  ∧ namedIn parsed "makePlan"
  ∧ turn (H := RefHost.host) Scenario.start Scenario.planDecision
    = Continue
        (carriedOut (H := RefHost.host) Scenario.start Scenario.planDecision MakePlan
           "makePlan" (VString "demo")
           (snd (makePlan (H := RefHost.host) (toolCtx Scenario.start) (VString "demo")))
           (fst (makePlan (H := RefHost.host) (toolCtx Scenario.start) (VString "demo")))).
Proof.
  intros parsed.
  assert (Hc : carriesAction parsed).
  { apply guard_carriesAction. by vm_compute. }
  assert (Hn : namedIn parsed "makePlan") by (left; by vm_compute).
  split; [exact Hc |]. split; [exact Hn |].
  exact (proj1 (decision_forms_agree (H := RefHost.host) Scenario.start
                  Scenario.planDecision Hc) Hn).
Defined.

(** ** routes/agent.ts: a tool that throws *)

Lemma inputText_none `{Host} (input : value) :
  inputText input = None <-> input = VUndefined.
Proof. by destruct input. Qed.

(** X9. A tool call throws in one case only: [retrieve] without an input.
    It then throws the [TypeError] of a method read from [undefined], and
    the run state, its Tool Context included, is as it was; no Tool step is
    recorded.  [makePlan] and [writeDraft] accept every input, an absent
    one too. *)
Theorem tool_throws_only_without_query `{Host} (st : RunState) (tool : ToolName)
    (input : value) :
  ((∃ err st', toolTurn st tool input = Thrown err st')
   <-> tool = Retrieve ∧ input = VUndefined)
  ∧ toolTurn st Retrieve VUndefined = Thrown (undefinedReadError "toLowerCase") st
  ∧ (∀ result st', toolTurn st tool input ≠ Respond result st').
Proof.
  assert (Hret : toolTurn st Retrieve VUndefined
                 = Thrown (undefinedReadError "toLowerCase") st)
    by (by destruct st).
  split_and!; [| done |].
  - split.
    + intros (err & st' & Ht). unfold toolTurn, callTool in Ht.
      destruct tool; try done.
      unfold Tools.retrieve in Ht.
      destruct (inputText input) eqn:Hi; [done |].
      by apply inputText_none in Hi.
    + intros [-> ->]. eauto.
  - intros result st' Ht. unfold toolTurn in Ht.
    by destruct (callTool tool (toolCtx st) input) as [? [? | ?]].
Qed.

(** ** routes/agent.ts: the course of a run *)

Lemma toolTurn_continue `{Host} (st st' : RunState) (tool : ToolName) (input : value) :
  toolTurn st tool input = Continue st' ->
  ∃ out ctx',
    callTool tool (toolCtx st) input = (ctx', Normal out)
    ∧ st' = mkRun (steps st ++ [StepTool tool input out])%list
              (AgentRoute.messages st ++ [toolMessage tool out])%list ctx'.
Proof.
  unfold toolTurn.
  destruct (callTool tool (toolCtx st) input) as [ctx' [out | e]]; [| done].
  intros [= <-]. by exists out, ctx'.
Qed.

Lemma turn_continue `{Host} (st st' : RunState) (text : string) :
  turn st text = Continue st' ->
  ∃ tool, toolTurn (heard st text) tool (get (safeJsonParse text) "input") = Continue st'.
Proof.
  unfold turn. fold (heard st text).
  destruct (negb (truthy _) || negb (typeofObject _) || negb (hasProperty _ _)); [done |].
  destruct (isStr (get (safeJsonParse text) "action") "final");
    [by destruct (toString _) |].
  destruct (isToolName (get (safeJsonParse text) "action")) as [tool |]; [by exists tool |].
  destruct (isStr (get (safeJsonParse text) "action") "tool");
    [| by destruct (toString _)].
  destruct (isToolName (get (safeJsonParse text) "tool")) as [tool |];
    [by exists tool | by destruct (toString _)].
Qed.

(** A turn that is carried out adds a Model step and a Tool step to the
    transcript, and an assistant turn and a user turn to the
    conversation. *)
Lemma turn_continue_state `{Host} (st st' : RunState) (text : string) :
  turn st text = Continue st' ->
  ∃ tool out ctx',
    callTool tool (toolCtx st) (get (safeJsonParse text) "input") = (ctx', Normal out)
    ∧ st' = mkRun
              (steps st
               ++ [StepModel text; StepTool tool (get (safeJsonParse text) "input") out])%list
              (AgentRoute.messages st ++ [mkMessage assistant text; toolMessage tool out])%list
              ctx'.
Proof.
  intros Ht. apply turn_continue in Ht as (tool & Ht).
  apply toolTurn_continue in Ht as (out & ctx' & Hcall & ->).
  exists tool, out, ctx'. split; [done |].
  cbn [heard steps AgentRoute.messages toolCtx]. by rewrite <- !app_assoc.
Qed.

Lemma turn_respond `{Host} (st st' : RunState) (text : string) (result : AgentResult) :
  turn st text = Respond result st' ->
  carriesAction (safeJsonParse text)
  ∧ isStr (get (safeJsonParse text) "action") "final" = true
  ∧ st' = heard st text
  ∧ ∃ answer,
      toString (outputOf text) = Normal answer
      ∧ result = mkResult answer (steps st ++ [StepModel text])%list.
Proof.
  unfold turn. fold (heard st text). fold (outputOf text).
  destruct (negb (truthy _) || negb (typeofObject _) || negb (hasProperty _ _)) eqn:Hg;
    [done |].
  apply guard_carriesAction in Hg.
  destruct (isStr (get (safeJsonParse text) "action") "final") eqn:Hf.
  - destruct (toString (outputOf text)) as [answer | e]; [| done].
    intros [= <- <-]. split_and!; [done .. |]. by exists answer.
  - intros Ht. exfalso.
    assert (Htool : ∀ tool input, toolTurn (heard st text) tool input ≠ Respond result st').
    { intros tool input. unfold toolTurn.
      by destruct (callTool tool (toolCtx (heard st text)) input) as [? [? | ?]]. }
    destruct (isToolName (get (safeJsonParse text) "action")) as [tool |];
      [by eapply Htool |].
    destruct (isStr (get (safeJsonParse text) "action") "tool");
      [| by destruct (toString _)].
    destruct (isToolName (get (safeJsonParse text) "tool")) as [tool |];
      [by eapply Htool | by destruct (toString _)].
Qed.

Lemma paired_app (l k : list AgentStep) :
  paired l = true -> paired (l ++ k) = paired k.
Proof.
  revert l. fix IH 1. intros l Hp.
  destruct l as [| s l]; [reflexivity |].
  destruct s as [text | tool input out | message];
    [| discriminate Hp | discriminate Hp].
  destruct l as [| s l]; [discriminate Hp |].
  destruct s as [text' | tool input out | message];
    [discriminate Hp | | discriminate Hp].
  cbn. apply IH. exact Hp.
Qed.

Lemma modelOutputs_app (l k : list AgentStep) :
  modelOutputs (l ++ k) = (modelOutputs l ++ modelOutputs k)%list.
Proof. apply omap_app. Qed.

(** The state after turns that were carried out: the transcript has grown
    by one pair of steps for each, the conversation by two messages. *)
Lemma continued_steps `{Host} (texts : list string) (st st' : RunState) :
  continued st texts = Some st' ->
  ∃ l, steps st' = (steps st ++ l)%list
       ∧ paired l = true
       ∧ modelOutputs l = texts
       ∧ length (AgentRoute.messages st')
         = (length (AgentRoute.messages st) + 2 * length texts)%nat.
Proof.
  revert st. induction texts as [| text texts IH]; intros st.
  - intros [= <-]. exists []. rewrite app_nil_r. cbn. split_and!; [done .. | lia].
  - cbn [continued]. destruct (turn st text) as [| st1 |] eqn:Ht; try done.
    intros Hc. apply IH in Hc as (l & Hl & Hp & Hm & Hlen).
    apply turn_continue_state in Ht as (tool & out & ctx' & _ & ->).
    cbn [steps AgentRoute.messages] in Hl, Hlen.
    exists (StepModel text :: StepTool tool (get (safeJsonParse text) "input") out :: l).
    split_and!.
    + rewrite Hl. by rewrite <- app_assoc.
    + done.
    + cbn. by rewrite <- Hm.
    + rewrite Hlen, length_app. cbn [length]. lia.
Qed.

(** A run whose first replies are texts of turns that are carried out
    goes on, after them, as a run from the state they lead to. *)
Lemma agentLoop_follows `{Host} (modelId : string) (texts : list string) (n : nat)
    (st st' : RunState) (rest : list (completion string))
    (tr : list (event NovaTextOptions ModelReply)) (exit : LoopExit) :
  continued st texts = Some st' ->
  exec (agentLoop modelId n st) tr exit ->
  map replyOf tr = (map Normal texts ++ rest)%list ->
  (length texts <= n)%nat
  ∧ ∃ tr', exec (agentLoop modelId (n - length texts) st') tr' exit
           ∧ map replyOf tr' = rest.
Proof.
  revert n st tr. induction texts as [| text texts IH]; intros n st tr Hc Hex Hr.
  - injection Hc as <-. cbn. split; [lia |]. exists tr. by rewrite Nat.sub_0_r.
  - cbn [continued] in Hc. destruct (turn st text) as [| st1 |] eqn:Ht; try done.
    destruct n as [| n].
    { apply exec_ret_inv in Hex as [-> _]. done. }
    apply agentLoop_step in Hex as (reply & tr1 & -> & Hstep).
    cbn [map replyOf projT2 app] in Hr. injection Hr as -> Hr.
    rewrite Ht in Hstep.
    destruct (IH n st1 tr1 Hc Hstep Hr) as (Hlen & tr' & Hex' & Hrest).
    cbn [length]. split; [lia |]. by exists tr'.
Qed.

(** Every run of the loop: turns that are carried out, then the budget is
    used up, or the model service fails, or a last text ends the run. *)
Lemma agentLoop_runs `{Host} (modelId : string) (n : nat) (st : RunState)
    (tr : list (event NovaTextOptions ModelReply)) (exit : LoopExit) :
  exec (agentLoop modelId n st) tr exit ->
  ∃ texts st',
    continued st texts = Some st'
    ∧ match exit with
      | OutOfTurns st'' =>
          st'' = st' ∧ length texts = n ∧ map replyOf tr = map Normal texts
      | Finished result st'' =>
          ∃ text, (length texts < n)%nat
                  ∧ map replyOf tr = map Normal (texts ++ [text])
                  ∧ turn st' text = Respond result st''
      | Caught err st'' =>
          (length texts < n)%nat
          ∧ ((map replyOf tr = (map Normal texts ++ [Throw err])%list ∧ st'' = st')
             ∨ ∃ text, map replyOf tr = map Normal (texts ++ [text])
                       ∧ turn st' text = Thrown err st'')
      end.
Proof.
  revert st tr. induction n as [| n IH]; intros st tr Hex.
  - apply exec_ret_inv in Hex as [-> ->]. by exists [], st.
  - apply agentLoop_step in Hex as (reply & tr' & -> & Hr).
    destruct reply as [text | err].
    + destruct (turn st text) as [result st1 | st1 | err st1] eqn:Ht.
      * destruct Hr as [-> ->]. exists [], st. split; [done |].
        exists text. cbn. split_and!; [lia | done | done].
      * apply IH in Hr as (texts & st' & Hc & Hexit).
        exists (text :: texts), st'. cbn [continued]. rewrite Ht. split; [done |].
        destruct exit as [result st2 | st2 | err st2].
        -- destruct Hexit as (last & Hlen & Hreplies & Hturn).
           exists last. cbn. rewrite Hreplies. split_and!; [lia | done | done].
        -- destruct Hexit as (-> & Hlen & Hreplies).
           cbn. rewrite Hreplies. split_and!; [done | lia | done].
        -- destruct Hexit as (Hlen & Hcase). cbn [length]. split; [lia |].
           destruct Hcase as [[Hreplies ->] | (last & Hreplies & Hturn)].
           ++ left. cbn. by rewrite Hreplies.
           ++ right. exists last. cbn. by rewrite Hreplies.
      * destruct Hr as [-> ->]. exists [], st. split; [done |].
        cbn [length]. split; [lia |]. right. by exists text.
    + destruct Hr as [-> ->]. exists [], st. split; [done |].
      cbn [length]. split; [lia |]. by left.
Qed.

Lemma paired_length (l : list AgentStep) :
  paired l = true -> length l = (2 * length (modelOutputs l))%nat.
Proof.
  revert l. fix IH 1. intros l Hp.
  destruct l as [| s l]; [reflexivity |].
  destruct s as [text | tool input out | message];
    [| discriminate Hp | discriminate Hp].
  destruct l as [| s l]; [discriminate Hp |].
  destruct s as [text' | tool input out | message];
    [discriminate Hp | | discriminate Hp].
  change (S (S (length l)) = (2 * S (length (modelOutputs l)))%nat).
  rewrite (IH l Hp). lia.
Qed.

Lemma filter_succeeded_normal (texts : list string) :
  List.filter succeeded (map Normal texts) = map Normal texts.
Proof. induction texts as [| t texts IH]; cbn; [done | by rewrite IH]. Qed.

Lemma filter_succeeded_app (a b : list (completion string)) :
  List.filter succeeded (a ++ b) = (List.filter succeeded a ++ List.filter succeeded b)%list.
Proof. apply List.filter_app. Qed.

(** The checks of the handler, in their order, and the run that follows
    them. *)
Lemma handler_cases `{Host} (env : Env) (req : Request)
    (tr : list (event NovaTextOptions ModelReply)) (resp : Response) :
  exec (handler env req) tr resp ->
  (tr = []
   ∧ ((¬ authorised env req ∧ resp = mkResponse 401 (BodyError "Unauthorized"))
      ∨ (authorised env req
         ∧ trimmedString (get (bodyOf req) "goal") = EmptyString
         ∧ resp = mkResponse 400 (BodyError "Missing required field: goal"))
      ∨ (authorised env req
         ∧ trimmedString (get (bodyOf req) "goal") ≠ EmptyString
         ∧ nonEmpty (NOVA_MODEL_ID env) = None
         ∧ status resp = 500 ∧ ∃ error, body resp = BodyError error)))
  ∨ (authorised env req
     ∧ trimmedString (get (bodyOf req) "goal") ≠ EmptyString
     ∧ ∃ modelId exit,
         nonEmpty (NOVA_MODEL_ID env) = Some modelId
         ∧ exec (agentLoop modelId maxTurns (startOf req)) tr exit
         ∧ resp = respond env exit).
Proof.
  unfold handler, authorised, startOf, bodyOf.
  destruct (nonEmpty (DEMO_API_KEY env)) as [expectedKey |].
  - destruct (bool_decide (demoApiKeyHeader req = Some expectedKey)) eqn:Hkey; cbn [negb].
    + apply bool_decide_eq_true in Hkey. revert Hkey.
      generalize (demoApiKeyHeader req = Some expectedKey). intros P HP.
      destruct (String.eqb _ EmptyString) eqn:Hgoal.
      { intros Hex. apply exec_ret_inv in Hex as [-> ->]. left. split; [done |].
        right. left. by apply String.eqb_eq in Hgoal. }
      apply String.eqb_neq in Hgoal.
      destruct (nonEmpty (NOVA_MODEL_ID env)) as [modelId |].
      * intros Hex.
        apply exec_bind_inv in Hex as (exit & tr1 & tr2 & -> & Hloop & Hret).
        apply exec_ret_inv in Hret as [-> ->]. right.
        split_and!; [done | done |]. exists modelId, exit. by rewrite app_nil_r.
      * intros Hex. apply exec_ret_inv in Hex as [-> ->]. left. split; [done |].
        right. right. split_and!; [done | done | done | done |]. by eexists.
    + apply bool_decide_eq_false in Hkey.
      intros Hex. apply exec_ret_inv in Hex as [-> ->]. left. split; [done |].
      by left.
  - destruct (String.eqb _ EmptyString) eqn:Hgoal.
    { intros Hex. apply exec_ret_inv in Hex as [-> ->]. left. split; [done |].
      right. left. by apply String.eqb_eq in Hgoal. }
    apply String.eqb_neq in Hgoal.
    destruct (nonEmpty (NOVA_MODEL_ID env)) as [modelId |].
    + intros Hex.
      apply exec_bind_inv in Hex as (exit & tr1 & tr2 & -> & Hloop & Hret).
      apply exec_ret_inv in Hret as [-> ->]. right.
      split_and!; [done | done |]. exists modelId, exit. by rewrite app_nil_r.
    + intros Hex. apply exec_ret_inv in Hex as [-> ->]. left. split; [done |].
      right. right. split_and!; [done | done | done | done |]. by eexists.
Qed.

(** Every run of the handler that reaches the loop, by the way it ends. *)
Lemma handler_course `{Host} (env : Env) (req : Request)
    (tr : list (event NovaTextOptions ModelReply)) (resp : Response) :
  exec (handler env req) tr resp ->
  (tr = [] ∧ ∃ error, body resp = BodyError error ∧ status resp ≠ 200)
  ∨ ∃ texts st,
      continued (startOf req) texts = Some st
      ∧ paired (steps st) = true
      ∧ modelOutputs (steps st) = texts
      ∧ ((length texts = 8%nat
          ∧ map replyOf tr = map Normal texts
          ∧ resp = mkResponse 500 (BodyErrorSteps outOfTurns (steps st)))
         ∨ (∃ text answer,
              (length texts < 8)%nat
              ∧ map replyOf tr = map Normal (texts ++ [text])
              ∧ carriesAction (safeJsonParse text)
              ∧ isStr (get (safeJsonParse text) "action") "final" = true
              ∧ toString (outputOf text) = Normal answer
              ∧ resp = mkResponse 200
                         (BodyResult
                            (mkResult answer (steps st ++ [StepModel text])%list)))
         ∨ (∃ err,
              (length texts < 8)%nat
              ∧ map replyOf tr = (map Normal texts ++ [Throw err])%list
              ∧ resp = respond env (Caught err st))
         ∨ (∃ text err,
              (length texts < 8)%nat
              ∧ map replyOf tr = map Normal (texts ++ [text])
              ∧ turn st text = Thrown err (heard st text)
              ∧ resp = respond env (Caught err (heard st text)))).
Proof.
  intros Hex.
  apply handler_runs in Hex as [Hrefused | (modelId & exit & Hloop & ->)]; [by left |].
  right. apply agentLoop_runs in Hloop as (texts & st & Hc & Hexit).
  exists texts, st. fold (bodyOf req) in Hc. fold (startOf req) in Hc.
  destruct (continued_steps _ _ _ Hc) as (l & Hl & Hp & Hm & _).
  change (steps (startOf req)) with (@nil AgentStep) in Hl. rewrite app_nil_l in Hl.
  rewrite Hl. split_and!; [done .. |].
  unfold maxTurns in Hexit.
  destruct exit as [result st2 | st2 | err st2].
  - destruct Hexit as (text & Hlen & Hreplies & Hturn).
    apply turn_respond in Hturn as (Hca & Hfinal & -> & answer & Hanswer & ->).
    right. left. exists text, answer. rewrite <- Hl. by split_and!.
  - destruct Hexit as (-> & Hlen & Hreplies). left. rewrite <- Hl. by split_and!.
  - destruct Hexit as (Hlen & [[Hreplies ->] | (text & Hreplies & Hturn)]).
    + right. right. left. by exists err.
    + right. right. right. exists text, err.
      pose proof (turn_outcome st text) as Ho. rewrite Hturn in Ho. subst st2.
      by split_and!.
Qed.

Lemma turn_final_decision `{Host} (st : RunState) (text : string) :
  carriesAction (safeJsonParse text) ->
  get (safeJsonParse text) "action" = VString "final" ->
  turn st text
  = match toString (outputOf text) with
    | Normal answer =>
        Respond (mkResult answer (steps st ++ [StepModel text])%list) (heard st text)
    | Throw e => Thrown e (heard st text)
    end.
Proof.
  intros Hc Hfinal. apply guard_carriesAction in Hc. apply isStr_eq in Hfinal.
  unfold turn. by rewrite Hc, Hfinal.
Qed.

(** A run whose replies are texts of turns that are carried out and a
    last text: the last turn decides the response. *)
Lemma handler_last_turn `{Host} (env : Env) (req : Request)
    (tr : list (event NovaTextOptions ModelReply)) (resp : Response)
    (texts : list string) (text : string) (st : RunState) :
  exec (handler env req) tr resp ->
  map replyOf tr = map Normal (texts ++ [text]) ->
  continued (startOf req) texts = Some st ->
  match turn st text with
  | Respond result _ => resp = mkResponse 200 (BodyResult result)
  | Thrown err st' => resp = respond env (Caught err st')
  | Continue _ => True
  end.
Proof.
  intros Hex Hreplies Hc.
  apply handler_runs in Hex as [[-> _] | (modelId & exit & Hloop & ->)].
  { by destruct texts. }
  rewrite map_app in Hreplies.
  destruct (agentLoop_follows _ _ _ _ _ _ _ _ Hc Hloop Hreplies)
    as (Hlen & tr' & Hex' & Hrest).
  destruct (maxTurns - length texts)%nat as [| n].
  { apply exec_ret_inv in Hex' as [-> _]. done. }
  apply agentLoop_step in Hex' as (reply & tr2 & -> & Hstep).
  cbn in Hrest. injection Hrest as -> Hrest.
  destruct (turn st text) as [result st' | st' | err st']; [| done |];
    by destruct Hstep as [_ ->].
Qed.

(** X10. A response with the status 200 comes from one kind of run only:
    every model invocation returned, every text but the last was a tool
    decision that was carried out, fewer than 8 of them, and the last text
    was a decision with the action "final" whose [output] has a string
    form.  The response then carries that string as [final], the [output]
    itself when it is a string, and as [steps] the steps of the turns
    before it followed by the Model step of the last text.  Conversely a
    run with such replies is answered so; when the [output] of the final
    decision has no string form, the response is the failure with the
    status 500 whose transcript ends with the Model step and the Error
    step of the conversion. *)
Theorem success_is_final_decision `{Host} (env : Env) (req : Request)
    (tr : list (event NovaTextOptions ModelReply)) (resp : Response) :
  exec (handler env req) tr resp ->
  (status resp = 200 ->
   ∃ texts text st answer,
     map replyOf tr = map Normal (texts ++ [text])
     ∧ (length texts < 8)%nat
     ∧ continued (startOf req) texts = Some st
     ∧ carriesAction (safeJsonParse text)
     ∧ get (safeJsonParse text) "action" = VString "final"
     ∧ ¬ noString (outputOf text)
     ∧ toString (outputOf text) = Normal answer
     ∧ (∀ s, get (safeJsonParse text) "output" = VString s -> answer = s)
     ∧ resp = mkResponse 200
                (BodyResult (mkResult answer (steps st ++ [StepModel text])%list)))
  ∧ (∀ texts text st,
       map replyOf tr = map Normal (texts ++ [text]) ->
       continued (startOf req) texts = Some st ->
       carriesAction (safeJsonParse text) ->
       get (safeJsonParse text) "action" = VString "final" ->
       (∀ answer,
          toString (outputOf text) = Normal answer ->
          resp = mkResponse 200
                   (BodyResult (mkResult answer (steps st ++ [StepModel text])%list)))
       ∧ (noString (outputOf text) ->
          status resp = 500
          ∧ transcript resp
            = (steps st
               ++ [StepModel text;
                   StepError (d_message (toErrorDetails toPrimitiveError))])%list)).
Proof.
  intros Hex. split.
  - intros Hstatus.
    apply handler_course in Hex
      as [(_ & error & _ & Hne) | (texts & st & Hc & _ & _ & Hcase)]; [done |].
    destruct Hcase as [(_ & _ & ->) | [(text & answer & Hlen & Hr & Hca & Hf & Ha & ->)
                      | [(err & _ & _ & ->) | (text & err & _ & _ & _ & ->)]]];
      try done.
    exists texts, text, st, answer. apply isStr_eq in Hf.
    assert (Hok : ¬ noString (outputOf text)).
    { intros Hno. rewrite (toString_noString _ Hno) in Ha. done. }
    split_and!; try done.
    intros s Hs. destruct (toString_string _ Hok) as (answer' & Ha' & Hstr & _).
    rewrite Ha in Ha'. injection Ha' as <-. apply Hstr.
    unfold outputOf. by rewrite Hs.
  - intros texts text st Hreplies Hc Hca Hfinal.
    pose proof (handler_last_turn _ _ _ _ _ _ _ Hex Hreplies Hc) as Hlast.
    rewrite (turn_final_decision st text Hca Hfinal) in Hlast. split.
    + intros answer Ha. by rewrite Ha in Hlast.
    + intros Hno. rewrite (toString_noString _ Hno) in Hlast. rewrite Hlast.
      split; [done |]. unfold transcript, respond. cbn [body heard steps].
      by rewrite <- app_assoc.
Qed.

(** A plan, a retrieval, then the final decision: the answer is [x]
    after two turns. *)
Lemma success_is_final_decision_witness :
  let m := handler (H := RefHost.host) Scenario.env Scenario.request in
  let tr := fst (run (ScenarioX.scripted ScenarioX.threeTurns) 0 m) in
  let resp := snd (run (ScenarioX.scripted ScenarioX.threeTurns) 0 m) in
  exec m tr resp
  ∧ status resp = 200
  ∧ finalOf (body resp) = Some "x"
  ∧ ∃ texts text st answer,
      map replyOf tr = map Normal (texts ++ [text])
      ∧ (length texts < 8)%nat
      ∧ continued (H := RefHost.host) (startOf Scenario.request) texts = Some st
      ∧ toString (H := RefHost.host) (outputOf (H := RefHost.host) text) = Normal answer
      ∧ resp = mkResponse 200
                 (BodyResult (mkResult answer (steps st ++ [StepModel text])%list)).
Proof.
  intros m tr resp.
  assert (Hstatus : status resp = 200) by (by vm_compute).
  split; [exact (run_exec (ScenarioX.scripted ScenarioX.threeTurns) 0%nat m) |].
  split; [exact Hstatus |]. split; [by vm_compute |].
  destruct (proj1 (success_is_final_decision (H := RefHost.host) Scenario.env
                     Scenario.request tr resp
                     (run_exec (ScenarioX.scripted ScenarioX.threeTurns) 0%nat m))
              Hstatus)
    as (texts & text & st & answer & Hr & Hlen & Hc & _ & _ & _ & Ha & _ & Hresp).
  by exists texts, text, st, answer.
Defined.

(** The outputs of the Model steps of a response are the texts the model
    invocations returned. *)
Lemma handler_model_outputs `{Host} (env : Env) (req : Request)
    (tr : list (event NovaTextOptions ModelReply)) (resp : Response) :
  exec (handler env req) tr resp ->
  map Normal (modelOutputs (transcript resp)) = List.filter succeeded (map replyOf tr).
Proof.
  intros Hex.
  apply handler_course in Hex
    as [(-> & error & Hbody & _) | (texts & st & Hc & Hp & Hm & Hcase)].
  { unfold transcript. by rewrite Hbody. }
  destruct Hcase as [(Hn & Hr & ->) | [(text & answer & Hn & Hr & _ & _ & _ & ->)
                    | [(err & Hn & Hr & ->) | (text & err & Hn & Hr & _ & ->)]]];
    unfold transcript, respond; cbn [body heard steps result_steps]; rewrite Hr.
  - by rewrite filter_succeeded_normal, Hm.
  - by rewrite filter_succeeded_normal, modelOutputs_app, Hm.
  - rewrite filter_succeeded_app, filter_succeeded_normal, modelOutputs_app, Hm.
    cbn. by rewrite !app_nil_r.
  - rewrite filter_succeeded_normal, !modelOutputs_app, Hm.
    cbn. by rewrite app_nil_r.
Qed.

(** X11. The transcript of every response is made of the Model and Tool
    steps of the turns that were carried out, in pairs, followed by
    nothing when the turn budget is used up (8 pairs), by the Model step of
    the final decision in an answer, and by an Error step, or a Model step
    and an Error step, in a failure.  The Error step is the last step, its
    message is the [error] of the body, and no other body has one.  The
    outputs of the Model steps are the texts the model invocations
    returned, in order. *)
Theorem transcript_shape `{Host} (env : Env) (req : Request)
    (tr : list (event NovaTextOptions ModelReply)) (resp : Response) :
  exec (handler env req) tr resp ->
  map Normal (modelOutputs (transcript resp)) = List.filter succeeded (map replyOf tr)
  ∧ ∃ pairs,
      paired pairs = true
      ∧ match body resp with
        | BodyError _ => pairs = [] ∧ tr = []
        | BodyResult result =>
            (length pairs <= 14)%nat
            ∧ ∃ text, result_steps result = (pairs ++ [StepModel text])%list
        | BodyErrorSteps _ l => length pairs = 16%nat ∧ l = pairs
        | BodyFailure error details _ l =>
            (length pairs <= 14)%nat
            ∧ d_message details = error
            ∧ (l = (pairs ++ [StepError error])%list
               ∨ ∃ text, l = (pairs ++ [StepModel text; StepError error])%list)
        end.
Proof.
  intros Hex. split; [by apply (handler_model_outputs env req) |].
  apply handler_course in Hex
    as [(-> & error & Hbody & _) | (texts & st & Hc & Hp & Hm & Hcase)].
  { rewrite Hbody. by exists []. }
  pose proof (paired_length _ Hp) as Hlen. rewrite Hm in Hlen.
  exists (steps st). split; [done |].
  destruct Hcase as [(Hn & Hr & ->) | [(text & answer & Hn & Hr & _ & _ & _ & ->)
                    | [(err & Hn & Hr & ->) | (text & err & Hn & Hr & _ & ->)]]];
    unfold respond; cbn [body heard steps result_steps].
  - split; [lia | done].
  - split; [lia |]. by exists text.
  - split_and!; [lia | done |]. by left.
  - split_and!; [lia | done |]. right. exists text. by rewrite <- app_assoc.
Qed.

(** The run of a plan, a retrieval and the answer: two pairs of steps and
    the Model step of the answer. *)
Lemma transcript_shape_witness :
  let m := handler (H := RefHost.host) Scenario.env Scenario.request in
  let tr := fst (run (ScenarioX.scripted ScenarioX.threeTurns) 0 m) in
  let resp := snd (run (ScenarioX.scripted ScenarioX.threeTurns) 0 m) in
  exec m tr resp
  ∧ length (transcript resp) = 5%nat
  ∧ map Normal (modelOutputs (transcript resp)) = List.filter succeeded (map replyOf tr).
Proof.
  intros m tr resp.
  split; [exact (run_exec (ScenarioX.scripted ScenarioX.threeTurns) 0%nat m) |].
  split; [by vm_compute |].
  exact (proj1 (transcript_shape (H := RefHost.host) Scenario.env Scenario.request tr resp
                  (run_exec (ScenarioX.scripted ScenarioX.threeTurns) 0%nat m))).
Defined.

(** ** routes/agent.ts: a failure of the model service *)

(** X12. When a model invocation throws, the run ends there: the throwing
    reply is the last one, all replies before it were tool decisions that
    were carried out, no Model step is recorded for it, and the response is
    the failure with the status 500 whose [error] and Error step carry the
    message of the thrown error (or its string form when it has none),
    whose [details] carry its name, code, fault and metadata, and whose
    [steps] keep the steps of the turns before. *)
Theorem service_error_relayed `{Host} (env : Env) (req : Request)
    (tr : list (event NovaTextOptions ModelReply)) (resp : Response) (err : JsError) :
  exec (handler env req) tr resp ->
  Throw err ∈ map replyOf tr ->
  let message := default (String_of_error err) (err_message err) in
  ∃ pairs,
    paired pairs = true
    ∧ map replyOf tr = (map Normal (modelOutputs pairs) ++ [Throw err])%list
    ∧ resp = mkResponse 500
               (BodyFailure message
                  (mkDetails (err_name err) message (err_code err) (err_fault err)
                     (err_metadata err))
                  (hint env)
                  (pairs ++ [StepError message])%list).
Proof.
  intros Hex Hin message.
  assert (Hnormal : ∀ texts : list string, Throw err ∉ map Normal texts).
  { intros texts Hel. apply list_elem_of_fmap in Hel as (t & [=] & _). }
  apply handler_course in Hex
    as [(-> & _) | (texts & st & Hc & Hp & Hm & Hcase)].
  { by apply elem_of_nil in Hin. }
  destruct Hcase as [(Hn & Hr & ->) | [(text & answer & Hn & Hr & _ & _ & _ & ->)
                    | [(err' & Hn & Hr & ->) | (text & err' & Hn & Hr & _ & ->)]]];
    rewrite Hr in Hin; try by apply Hnormal in Hin.
  apply elem_of_app in Hin as [Hin | Hin]; [by apply Hnormal in Hin |].
  apply list_elem_of_singleton in Hin. injection Hin as <-.
  exists (steps st). rewrite Hm. split_and!; [done | done |].
  unfold respond, toErrorDetails, message. cbn [d_message].
  by destruct (err_message err).
Qed.

(** A plan is made, then the service throttles the second invocation. *)
Lemma service_error_relayed_witness :
  let m := handler (H := RefHost.host) Scenario.env Scenario.request in
  let tr := fst (run (ScenarioX.scripted ScenarioX.failsSecond) 0 m) in
  let resp := snd (run (ScenarioX.scripted ScenarioX.failsSecond) 0 m) in
  exec m tr resp
  ∧ Throw ScenarioX.throttled ∈ map replyOf tr
  ∧ ∃ pairs,
      paired pairs = true
      ∧ map replyOf tr
        = (map Normal (modelOutputs pairs) ++ [Throw ScenarioX.throttled])%list
      ∧ resp = mkResponse 500
                 (BodyFailure "Too many requests"
                    (mkDetails (Some "ThrottlingException") "Too many requests" None
                       (Some "client") None)
                    (hint Scenario.env)
                    (pairs ++ [StepError "Too many requests"])%list).
Proof.
  intros m tr resp.
  assert (Hin : Throw ScenarioX.throttled ∈ map replyOf tr).
  { vm_compute. apply list_elem_of_further, list_elem_of_here. }
  split; [exact (run_exec (ScenarioX.scripted ScenarioX.failsSecond) 0%nat m) |].
  split; [exact Hin |].
  exact (service_error_relayed (H := RefHost.host) Scenario.env Scenario.request tr resp
           ScenarioX.throttled
           (run_exec (ScenarioX.scripted ScenarioX.failsSecond) 0%nat m) Hin).
Defined.

(** ** routes/agent.ts: what the model is sent *)

Lemma agentLoop_asks `{Host} (modelId : string) (n : nat) (st : RunState)
    (tr : list (event NovaTextOptions ModelReply)) (exit : LoopExit) :
  exec (agentLoop modelId n st) tr exit ->
  (∀ opts, head (map askOf tr) = Some opts -> opts = options modelId st)
  ∧ (∀ i opts, map askOf tr !! i = Some opts ->
       NovaClient.modelId opts = modelId
       ∧ NovaClient.system opts = Some AgentRoute.system
       ∧ maxTokens opts = Some 700
       ∧ temperature opts = Some (2 # 10)%Q
       ∧ length (NovaClient.messages opts)
         = (length (AgentRoute.messages st) + 2 * i)%nat)
  ∧ (∀ i opts text opts',
       map askOf tr !! i = Some opts ->
       map replyOf tr !! i = Some (Normal text) ->
       map askOf tr !! S i = Some opts' ->
       ∃ tool out,
         NovaClient.messages opts'
         = (NovaClient.messages opts ++ [mkMessage assistant text; toolMessage tool out])%list).
Proof.
  revert st tr. induction n as [| n IH]; intros st tr Hex.
  - apply exec_ret_inv in Hex as [-> _]. by split_and!.
  - apply agentLoop_step in Hex as (reply & tr' & -> & Hr).
    assert (Htail : tr' = []
                    ∨ ∃ text st', reply = Normal text ∧ turn st text = Continue st'
                                  ∧ exec (agentLoop modelId n st') tr' exit).
    { destruct reply as [text | err]; [| left; by destruct Hr].
      destruct (turn st text) as [result st' | st' | err st'] eqn:Ht;
        [left; by destruct Hr | right; by exists text, st' | left; by destruct Hr]. }
    clear Hr. cbn [map askOf replyOf projT1 projT2 head].
    split_and!.
    + by intros opts [= <-].
    + intros [| i] opts.
      * intros [= <-]. cbn. split_and!; [done .. | lia].
      * cbn [lookup list_lookup]. intros Hi.
        destruct Htail as [-> | (text & st' & -> & Ht & Hex')]; [done |].
        destruct (IH _ _ Hex') as (_ & Hfixed & _).
        destruct (Hfixed i opts Hi) as (? & ? & ? & ? & Hlen).
        split_and!; [done .. |]. rewrite Hlen.
        apply turn_continue_state in Ht as (tool & out & ctx' & _ & ->).
        cbn [AgentRoute.messages]. rewrite length_app. cbn [length]. lia.
    + intros i opts text opts' Hi Hreply Hnext.
      destruct Htail as [-> | (text0 & st' & -> & Ht & Hex')]; [done |].
      destruct (IH _ _ Hex') as (Hhead & _ & Hgrow).
      destruct i as [| i].
      * injection Hi as <-. injection Hreply as <-.
        destruct tr' as [| e tr']; [done |].
        assert (Ho : opts' = options modelId st').
        { apply Hhead. cbn in Hnext |- *. congruence. }
        subst opts'.
        apply turn_continue_state in Ht as (tool & out & ctx' & _ & ->).
        by exists tool, out.
      * by eapply Hgrow.
Qed.

Lemma history_length (body : value) : (length (AgentRoute.history body) <= 12)%nat.
Proof. rewrite history_last_twelve, length_drop. lia. Qed.

(** X13. Every model invocation of a run carries the configured model id,
    the fixed system prompt, [maxTokens] 700 and [temperature] 0.2.  The
    first one carries the history and the goal turn; each later one
    carries the messages of the one before followed by two more: the
    assistant turn with the text the model returned and the user turn with
    the output of the tool.  The [i]-th invocation, counted from 0, hence
    carries [2 * i] messages more than the first, at most 27 in all. *)
Theorem conversation_grows `{Host} (env : Env) (req : Request)
    (tr : list (event NovaTextOptions ModelReply)) (resp : Response) :
  exec (handler env req) tr resp ->
  (∀ opts, head (map askOf tr) = Some opts ->
     NovaClient.messages opts = initialMessages (bodyOf req))
  ∧ (∀ i opts, map askOf tr !! i = Some opts ->
       Some (NovaClient.modelId opts) = nonEmpty (NOVA_MODEL_ID env)
       ∧ NovaClient.system opts = Some AgentRoute.system
       ∧ maxTokens opts = Some 700
       ∧ temperature opts = Some (2 # 10)%Q
       ∧ length (NovaClient.messages opts)
         = (length (initialMessages (bodyOf req)) + 2 * i)%nat
       ∧ (length (NovaClient.messages opts) <= 27)%nat)
  ∧ (∀ i opts text opts',
       map askOf tr !! i = Some opts ->
       map replyOf tr !! i = Some (Normal text) ->
       map askOf tr !! S i = Some opts' ->
       ∃ tool out,
         NovaClient.messages opts'
         = (NovaClient.messages opts ++ [mkMessage assistant text; toolMessage tool out])%list).
Proof.
  intros Hex.
  apply handler_cases in Hex
    as [[-> _] | (_ & _ & modelId & exit & Hmodel & Hloop & _)]; [by split_and! |].
  pose proof (agentLoop_bound _ _ _ _ _ Hloop) as (Hlen & _).
  destruct (agentLoop_asks _ _ _ _ _ Hloop) as (Hhead & Hfixed & Hgrow).
  split_and!; [| | done].
  - intros opts Hopts. by rewrite (Hhead opts Hopts).
  - intros i opts Hi.
    destruct (Hfixed i opts Hi) as (Hid & Hsys & Htok & Htemp & Hmsgs).
    split_and!; [by rewrite Hmodel, Hid | done .. |].
    apply lookup_lt_Some in Hi. rewrite length_map in Hi. unfold maxTurns in Hlen.
    rewrite Hmsgs. change (AgentRoute.messages (startOf req)) with (initialMessages (bodyOf req)).
    unfold initialMessages. rewrite length_app. cbn [length].
    pose proof (history_length (bodyOf req)). lia.
Qed.

(** The run of a plan, a retrieval and the answer: the third invocation
    carries the goal turn and four more messages. *)
Lemma conversation_grows_witness :
  let m := handler (H := RefHost.host) Scenario.env Scenario.request in
  let tr := fst (run (ScenarioX.scripted ScenarioX.threeTurns) 0 m) in
  let resp := snd (run (ScenarioX.scripted ScenarioX.threeTurns) 0 m) in
  exec m tr resp
  ∧ ∃ opts, map askOf tr !! 2%nat = Some opts
            ∧ length (NovaClient.messages opts) = 5%nat
            ∧ maxTokens opts = Some 700.
Proof.
  intros m tr resp.
  split; [exact (run_exec (ScenarioX.scripted ScenarioX.threeTurns) 0%nat m) |].
  assert (Hi : ∃ opts, map askOf tr !! 2%nat = Some opts).
  { vm_compute. by eexists. }
  destruct Hi as (opts & Hi). exists opts. split; [exact Hi |].
  destruct (proj1 (proj2 (conversation_grows (H := RefHost.host) Scenario.env
                            Scenario.request tr resp
                            (run_exec (ScenarioX.scripted ScenarioX.threeTurns) 0%nat m)))
              2%nat opts Hi) as (_ & _ & Htok & _ & Hlen & _).
  split; [exact Hlen | exact Htok].
Defined.

(** ** routes/agent.ts: the checks before the run *)



(** ** The agent as the server runs it: the commands sent to Bedrock *)

Lemma novaConverseText_sends `{Host} (opts : NovaTextOptions)
    (tr : list (event Command Reply)) (result : completion string) :
  exec (novaConverseText opts) tr result ->
  (1 <= length tr <= 2)%nat
  ∧ Forall (λ e, commandOf e = converseSend opts ∨ commandOf e = invokeSend opts) tr.
Proof.
  intros Hex. apply novaConverseText_runs in Hex.
  destruct (isInferenceProfileArn opts).
  - destruct Hex as (r & -> & _). cbn. split; [lia |].
    constructor; [by right | constructor].
  - destruct Hex as (r & Hr). destruct (converseText r) as [text | err].
    + destruct Hr as [-> _]. cbn. split; [lia |]. constructor; [by left | constructor].
    + destruct (operationNotAllowed err).
      * destruct Hr as (r2 & -> & _). cbn. split; [lia |].
        constructor; [by left |]. constructor; [by right | constructor].
      * destruct Hr as [-> _]. cbn. split; [lia |]. constructor; [by left | constructor].
Qed.

(** A run of a linked program is a run of the program in which every
    model invocation is a run of [novaConverseText]. *)
Lemma link_exec `{Host} {A} (m : Agent A) (tr : list (event Command Reply)) (a : A) :
  exec (link m) tr a ->
  ∃ atr : list (event NovaTextOptions ModelReply),
    exec m atr a
    ∧ (length atr <= length tr <= 2 * length atr)%nat
    ∧ Forall (λ r, ∀ text, r = Normal text -> text ≠ EmptyString) (map replyOf atr)
    ∧ Forall (λ e, ∃ opts, opts ∈ map askOf atr
                           ∧ (commandOf e = converseSend opts
                              ∨ commandOf e = invokeSend opts)) tr.
Proof.
  revert tr. induction m as [b | opts k IH]; intros tr; cbn [link].
  - intros Hex. apply exec_ret_inv in Hex as [-> ->].
    exists []. split_and!; [constructor | cbn; lia | cbn; lia | constructor | constructor].
  - intros Hex. apply exec_bind_inv in Hex as (r & tr1 & tr2 & -> & Hnova & Hk).
    apply IH in Hk as (atr & Hatr & Hlen & Hne & Hcmd).
    pose proof (novaConverseText_sends _ _ _ Hnova) as (Hlen1 & Hcmd1).
    exists (existT opts r :: atr).
    split_and!.
    + by constructor.
    + rewrite length_app. cbn [length]. lia.
    + rewrite length_app. cbn [length]. lia.
    + cbn [map replyOf projT2]. constructor; [| done].
      intros text ->. by eapply novaConverseText_nonempty.
    + apply Forall_app. split.
      * eapply Forall_impl; [exact Hcmd1 |]. intros e He. exists opts.
        split; [apply list_elem_of_here | done].
      * eapply Forall_impl; [exact Hcmd |]. intros e (opts' & Hin & He).
        exists opts'. split; [by apply list_elem_of_further | done].
Qed.

Lemma systemBlocks_system (opts : NovaTextOptions) :
  NovaClient.system opts = Some AgentRoute.system ->
  systemBlocks opts = Some [AgentRoute.system].
Proof. unfold systemBlocks. by intros ->. Qed.

(** X15. With [novaConverseText] in the place of each model invocation,
    a request makes the server send at most 16 commands to Bedrock, two
    for each of at most 8 invocations.  Every command carries the
    configured model id, the system prompt as its one system block,
    [maxTokens] 700 and [temperature] 0.2.  No Model step of the
    transcript has an empty output, and a response with the status 200
    has cost at least one command. *)
Theorem served_commands `{Host} (env : Env) (req : Request)
    (tr : list (event Command Reply)) (resp : Response) :
  exec (served env req) tr resp ->
  (length tr <= 16)%nat
  ∧ Forall (λ e, Some (commandModel (commandOf e)) = nonEmpty (NOVA_MODEL_ID env)
                 ∧ p_system (commandPayload (commandOf e)) = Some [AgentRoute.system]
                 ∧ p_inferenceConfig (commandPayload (commandOf e))
                   = mkInferenceConfig 700 (2 # 10)%Q) tr
  ∧ Forall (λ text, text ≠ EmptyString) (modelOutputs (transcript resp))
  ∧ (status resp = 200 -> tr ≠ []).
Proof.
  intros Hex. apply link_exec in Hex as (atr & Hatr & Hlen & Hne & Hcmd).
  pose proof (handler_model_outputs _ _ _ _ Hatr) as Hmodel.
  assert (Hasks : ∀ opts, opts ∈ map askOf atr ->
            Some (NovaClient.modelId opts) = nonEmpty (NOVA_MODEL_ID env)
            ∧ NovaClient.system opts = Some AgentRoute.system
            ∧ maxTokens opts = Some 700
            ∧ temperature opts = Some (2 # 10)%Q).
  { intros opts Hin. apply list_elem_of_lookup in Hin as (i & Hi).
    pose proof Hatr as Hcases.
    apply handler_cases in Hcases
      as [[-> _] | (_ & _ & modelId & exit & Hm & Hloop & _)]; [done |].
    destruct (agentLoop_asks _ _ _ _ _ Hloop) as (_ & Hfixed & _).
    destruct (Hfixed i opts Hi) as (Hid & ? & ? & ? & _).
    split_and!; [by rewrite Hm, Hid | done ..]. }
  assert (Hbudget : (length atr <= 8)%nat).
  { apply handler_runs in Hatr as [[-> _] | (modelId & exit & Hloop & _)]; [cbn; lia |].
    by apply agentLoop_bound in Hloop as [? _]. }
  split_and!.
  - lia.
  - eapply Forall_impl; [exact Hcmd |]. intros e (opts & Hin & He).
    destruct (Hasks opts Hin) as (Hid & Hsys & Htok & Htemp).
    assert (Hp : p_system (payload opts) = Some [AgentRoute.system]
                 ∧ p_inferenceConfig (payload opts) = mkInferenceConfig 700 (2 # 10)%Q).
    { unfold payload. cbn [p_system p_inferenceConfig].
      by rewrite (systemBlocks_system _ Hsys), Htok, Htemp. }
    by destruct He as [-> | ->].
  - apply Forall_forall. intros text Hin.
    assert (Hr : Normal text ∈ List.filter succeeded (map replyOf atr)).
    { rewrite <- Hmodel. by apply list_elem_of_fmap_2. }
    apply list_elem_of_In, List.filter_In in Hr as [Hr _]. apply list_elem_of_In in Hr.
    rewrite Forall_forall in Hne. by apply (Hne _ Hr).
  - intros Hstatus ->. destruct atr as [| e atr]; [| cbn in Hlen; lia].
    apply handler_runs in Hatr as [(_ & error & Hbody & Hne200) | (modelId & exit & Hloop & _)];
      [done |].
    unfold maxTurns in Hloop. by apply agentLoop_step in Hloop as (? & ? & ? & _).
Qed.

(** Bedrock rejects every [ConverseCommand]; its answer to the
    [InvokeModelCommand] is no decision, so the run ends after two
    commands. *)
Lemma served_commands_witness :
  let m := served (H := RefHost.host) Scenario.env Scenario.request in
  let tr := fst (run Scenario.rejecting 0 m) in
  let resp := snd (run Scenario.rejecting 0 m) in
  exec m tr resp
  ∧ length tr = 2%nat
  ∧ modelOutputs (transcript resp) = ["hello"]
  ∧ Forall (λ text, text ≠ EmptyString) (modelOutputs (transcript resp)).
Proof.
  intros m tr resp.
  split; [exact (run_exec Scenario.rejecting 0%nat m) |].
  split; [by vm_compute |].
  split; [by vm_compute |].
  exact (proj1 (proj2 (proj2 (served_commands (H := RefHost.host) Scenario.env
                                Scenario.request tr resp
                                (run_exec Scenario.rejecting 0%nat m))))).
Defined.

(** ** The client and the server *)

Lemma arraySliceFrom_twelve {A} (l : list A) :
  arraySliceFrom l (-12) = drop (length l - 12) l.
Proof. apply (arraySliceFrom_last l 11). Qed.

Lemma arraySliceFrom_short {A} (l : list A) :
  (length l <= 12)%nat -> arraySliceFrom l (-12) = l.
Proof.
  intros Hlen. rewrite arraySliceFrom_twelve.
  replace (length l - 12)%nat with 0%nat by lia. apply drop_0.
Qed.

Lemma arraySliceFrom_length {A} (l : list A) :
  (length (arraySliceFrom l (-12)) <= 12)%nat.
Proof. rewrite arraySliceFrom_twelve, length_drop. lia. Qed.

Lemma arraySliceFrom_Forall {A} (P : A -> Prop) (l : list A) :
  Forall P l -> Forall P (arraySliceFrom l (-12)).
Proof. rewrite arraySliceFrom_twelve. apply Forall_drop. Qed.

Lemma client_history_valid (chat : list ChatMessage) :
  Forall (λ m, trim (content m) ≠ EmptyString) (Client.history chat).
Proof.
  unfold Client.history. apply arraySliceFrom_Forall.
  apply Forall_forall. intros m Hm.
  apply list_elem_of_In, List.in_map_iff in Hm as (c & <- & Hc).
  apply List.filter_In in Hc as [Hc _]. apply List.filter_In in Hc as [_ Hc].
  cbn [content]. unfold hasText in Hc.
  apply String.eqb_neq. apply negb_true_iff. by destruct (chat_role c).
Qed.

Lemma objects_kept (h : list Message) :
  List.filter (fun m => truthy m && typeofObject m) (map messageValue h)
  = map messageValue h.
Proof. induction h as [| m h IH]; [done |]. cbn. by rewrite IH. Qed.

Lemma historyEntry_messageValue (m : Message) :
  trim (content m) ≠ EmptyString ->
  historyEntry (messageValue m) = Some (trimmedMessage m).
Proof.
  intros Hne. apply String.eqb_neq in Hne.
  unfold historyEntry, messageValue, trimmedMessage.
  destruct m as [[|] c]; cbn in *; by rewrite Hne.
Qed.

Lemma omap_messageValue (h : list Message) :
  Forall (λ m, trim (content m) ≠ EmptyString) h ->
  omap historyEntry (map messageValue h) = map trimmedMessage h.
Proof.
  induction 1 as [| m h Hm _ IH]; [done |].
  cbn. rewrite (historyEntry_messageValue m Hm). cbn. by rewrite IH.
Qed.

(** X16. What the client posts is never refused for its goal: the posted
    goal is the trimmed goal, which is not empty, and the posted context
    the trimmed context.  The history the server keeps is the client's
    history, at most 12 messages, each with its content trimmed; the goal
    turn the model is sent is the text the client shows for the user's
    turn followed by the server's closing sentence.  Whatever the key, the
    response to the posted body never has the status 400. *)
Theorem client_request_accepted `{Host} (goal context : string)
    (chat : list ChatMessage) (posted : value) :
  Client.posted goal context chat = Some posted ->
  trim goal ≠ EmptyString
  ∧ trimmedString (get posted "goal") = trim goal
  ∧ trimmedString (get posted "context") = trim context
  ∧ (length (Client.history chat) <= 12)%nat
  ∧ AgentRoute.history posted = map trimmedMessage (Client.history chat)
  ∧ initialMessages posted
    = (map trimmedMessage (Client.history chat)
       ++ [mkMessage user (userText (trim goal) (trim context) ++ goalSuffix)])%list
  ∧ (∀ env key tr resp,
       exec (handler env (mkRequest key posted)) tr resp -> status resp ≠ 400).
Proof.
  unfold Client.posted.
  destruct (String.eqb (trim goal) EmptyString) eqn:Hgoal; [done |].
  intros [= <-]. apply String.eqb_neq in Hgoal.
  assert (Hg : trimmedString (get (requestBody (trim goal) (trim context)
                                     (Client.history chat)) "goal") = trim goal).
  { cbn. apply trim_fixed. }
  assert (Hc : trimmedString (get (requestBody (trim goal) (trim context)
                                     (Client.history chat)) "context") = trim context).
  { cbn. destruct (String.eqb (trim context) EmptyString) eqn:Hctx.
    - by apply String.eqb_eq in Hctx as ->.
    - apply trim_fixed. }
  assert (Hh : AgentRoute.history (requestBody (trim goal) (trim context)
                                     (Client.history chat))
               = map trimmedMessage (Client.history chat)).
  { unfold AgentRoute.history, requestBody. cbn [get lookupField].
    cbn. rewrite objects_kept, omap_messageValue by apply client_history_valid.
    apply arraySliceFrom_short. rewrite length_map. apply arraySliceFrom_length. }
  split_and!; [done | done | done | apply arraySliceFrom_length | done | |].
  - unfold initialMessages. rewrite Hh, Hg, Hc. do 3 f_equal.
    unfold goalTurn, userText, goalSuffix.
    destruct (String.eqb (trim context) EmptyString); [done |].
    by rewrite !append_assoc.
  - intros env key tr resp Hex Hstatus.
    apply handler_cases in Hex as [[_ Hrefused] | (_ & _ & modelId & exit & _ & _ & ->)].
    + destruct Hrefused as [(_ & ->) | [(_ & Hempty & _) | (_ & _ & _ & Hs & _)]].
      * done.
      * unfold bodyOf in Hempty. cbn [req_body orElse requestBody] in Hempty.
        rewrite Hg in Hempty. done.
      * rewrite Hs in Hstatus. done.
    + by destruct exit.
Qed.

(** A follow-up question after one exchange. *)
Lemma client_request_accepted_witness :
  let chat := [userMessage "Write a plan"; assistantMessage " Here it is. "] in
  ∃ posted,
    Client.posted " Shorter, please " "" chat = Some posted
    ∧ initialMessages posted
      = [ mkMessage user "Write a plan"; mkMessage assistant "Here it is.";
          mkMessage user ("Shorter, please" ++ goalSuffix) ].
Proof.
  intros chat.
  exists (default VNull (Client.posted " Shorter, please " "" chat)).
  assert (Hp : Client.posted " Shorter, please " "" chat
               = Some (default VNull (Client.posted " Shorter, please " "" chat)))
    by (by vm_compute).
  split; [exact Hp |].
  destruct (client_request_accepted (H := RefHost.host) " Shorter, please " "" chat _ Hp)
    as (_ & _ & _ & _ & _ & Hinit & _).
  rewrite Hinit. by vm_compute.
Defined.

(** ** The client: the chat *)

Lemma fillFirst_app (waiting : list ChatMessage) (m : ChatMessage)
    (rest : list ChatMessage) (text : string) :
  Forall (λ x, pending x = false) waiting ->
  pending m = true ->
  fillFirst (waiting ++ m :: rest) text
  = Some (waiting ++ assistantMessage text :: rest)%list.
Proof.
  intros Hw Hm. induction Hw as [| x waiting Hx _ IH]; cbn.
  - unfold pending in Hm. destruct (chat_role m); [done |]. by rewrite Hm.
  - rewrite IH. unfold pending in Hx. destruct (chat_role x); [done |]. by rewrite Hx.
Qed.

Lemma fillFirst_none (l : list ChatMessage) (text : string) :
  Forall (λ x, pending x = false) l -> fillFirst l text = None.
Proof.
  induction 1 as [| x l Hx _ IH]; cbn; [done |].
  rewrite IH. unfold pending in Hx. destruct (chat_role x); [done |]. by rewrite Hx.
Qed.

(** X17. The answer goes into the last assistant message that is still
    empty, and the other messages stay as they are; when no assistant
    message is empty the answer is added at the end.  After the chat was
    extended for a question, the answer hence fills the placeholder that
    was added with it: the chat is the former chat, the user's text and
    the answer. *)
Theorem answer_fills_placeholder (text : string) :
  (∀ before m after,
     pending m = true ->
     Forall (λ x, pending x = false) after ->
     answered (before ++ m :: after) text
     = (before ++ assistantMessage text :: after)%list)
  ∧ (∀ chat,
       Forall (λ x, pending x = false) chat ->
       answered chat text = (chat ++ [assistantMessage text])%list)
  ∧ (∀ prev question,
       answered (asked prev question) text
       = (prev ++ [userMessage question; assistantMessage text])%list).
Proof.
  assert (Hfill : ∀ before m after,
            pending m = true ->
            Forall (λ x, pending x = false) after ->
            answered (before ++ m :: after) text
            = (before ++ assistantMessage text :: after)%list).
  { intros before m after Hm Hafter. unfold answered.
    rewrite rev_app_distr. cbn [rev]. rewrite <- app_assoc. cbn [app].
    rewrite fillFirst_app; [| by apply Forall_rev | done].
    rewrite rev_app_distr. cbn [rev]. rewrite !rev_involutive.
    by rewrite <- app_assoc. }
  split_and!; [done | |].
  - intros chat Hchat. unfold answered.
    by rewrite fillFirst_none by by apply Forall_rev.
  - intros prev question. unfold asked.
    change [userMessage question; assistantMessage EmptyString]
      with ([userMessage question] ++ assistantMessage EmptyString :: [])%list.
    rewrite app_assoc.
    rewrite (Hfill (prev ++ [userMessage question])%list
               (assistantMessage EmptyString) [] eq_refl) by constructor.
    by rewrite <- app_assoc.
Qed.

Lemma stepCounts_paired (l : list AgentStep) (counts : Counts) :
  paired l = true ->
  foldl
    (λ counts s,
       match s with
       | StepModel _ => mkCounts (c_model counts + 1) (c_tool counts) (c_error counts)
       | StepTool _ _ _ => mkCounts (c_model counts) (c_tool counts + 1) (c_error counts)
       | StepError _ => mkCounts (c_model counts) (c_tool counts) (c_error counts + 1)
       end) counts l
  = mkCounts (c_model counts + Z.of_nat (length (modelOutputs l)))
      (c_tool counts + Z.of_nat (length (modelOutputs l))) (c_error counts).
Proof.
  revert l counts. fix IH 1. intros l counts Hp.
  destruct l as [| s l].
  { destruct counts. cbn. f_equal; lia. }
  destruct s as [text | tool input out | message];
    [| discriminate Hp | discriminate Hp].
  destruct l as [| s l]; [discriminate Hp |].
  destruct s as [text' | tool input out | message];
    [discriminate Hp | | discriminate Hp].
  change (modelOutputs (StepModel text :: StepTool tool input out :: l))
    with (text :: modelOutputs l).
  cbn [foldl length]. rewrite (IH l _ Hp). cbn [c_model c_tool c_error].
  f_equal; lia.
Qed.

(** X18. The counters the client shows for an answer of the server: no
    error, one Model step more than Tool steps, and as many Model steps as
    model invocations were made, between 1 and 8. *)
Theorem counts_of_answer `{Host} (env : Env) (req : Request)
    (tr : list (event NovaTextOptions ModelReply)) (resp : Response)
    (result : AgentResult) :
  exec (handler env req) tr resp ->
  body resp = BodyResult result ->
  let counts := stepCounts (result_steps result) in
  c_error counts = 0
  ∧ c_model counts = c_tool counts + 1
  ∧ c_model counts = Z.of_nat (length tr)
  ∧ 1 <= c_model counts <= 8.
Proof.
  intros Hex Hbody counts. subst counts.
  apply handler_course in Hex
    as [(_ & error & Hb & _) | (texts & st & Hc & Hp & Hm & Hcase)]; [congruence |].
  destruct Hcase as [(_ & _ & ->) | [(text & answer & Hn & Hr & _ & _ & _ & ->)
                    | [(err & _ & _ & ->) | (text & err & _ & _ & _ & ->)]]];
    try done.
  injection Hbody as <-. cbn [result_steps].
  unfold stepCounts. rewrite foldl_app, (stepCounts_paired _ _ Hp), Hm.
  cbn [foldl c_model c_tool c_error].
  assert (Hlen : length tr = S (length texts)).
  { rewrite <- (length_map replyOf tr), Hr, length_map, length_app. cbn. lia. }
  rewrite Hlen. lia.
Qed.

(** The run of a plan, a retrieval and the answer: three Model steps and
    two Tool steps. *)
Lemma counts_of_answer_witness :
  let m := handler (H := RefHost.host) Scenario.env Scenario.request in
  let tr := fst (run (ScenarioX.scripted ScenarioX.threeTurns) 0 m) in
  let resp := snd (run (ScenarioX.scripted ScenarioX.threeTurns) 0 m) in
  ∃ result,
    exec m tr resp
    ∧ body resp = BodyResult result
    ∧ c_error (stepCounts (result_steps result)) = 0
    ∧ c_model (stepCounts (result_steps result)) = 3.
Proof.
  intros m tr resp.
  assert (Hb : ∃ result, body resp = BodyResult result) by (vm_compute; by eexists).
  destruct Hb as (result & Hb). exists result.
  destruct (counts_of_answer (H := RefHost.host) Scenario.env Scenario.request tr resp
              result (run_exec (ScenarioX.scripted ScenarioX.threeTurns) 0%nat m) Hb)
    as (Herr & _ & Hmodel & _).
  split; [exact (run_exec (ScenarioX.scripted ScenarioX.threeTurns) 0%nat m) |].
  split; [exact Hb |]. split; [exact Herr |].
  rewrite Hmodel. by vm_compute.
Defined.

(** X19. What the client makes of a response of the server: a response
    with the status 200 is read as the answer, with the [final] of the
    result; every other response makes the client throw, and the message
    it throws is the [error] of the body, never the fallback text for a
    body without one. *)
Theorem client_reads_response `{Host} (env : Env) (req : Request)
    (tr : list (event NovaTextOptions ModelReply)) (resp : Response) :
  exec (handler env req) tr resp ->
  match received resp with
  | Answer answer =>
      status resp = 200
      ∧ ∃ result, body resp = BodyResult result ∧ answer = Some (final result)
  | Failed msg =>
      status resp ≠ 200 ∧ errorOf (body resp) = Some msg
  end.
Proof.
  intros Hex.
  apply handler_cases in Hex as [[_ Hrefused] | (_ & _ & modelId & exit & _ & _ & ->)].
  - destruct Hrefused as [(_ & ->) | [(_ & _ & ->) | (_ & _ & _ & Hs & error & Hb)]];
      [done | done |].
    unfold received. rewrite Hs, Hb. done.
  - destruct exit as [result st | st | err st]; [| done | done].
    cbn. split; [done |]. by exists result.
Qed.

(** The answer after a plan and a retrieval, as the client reads it. *)
Lemma client_reads_response_witness :
  let m := handler (H := RefHost.host) Scenario.env Scenario.request in
  let tr := fst (run (ScenarioX.scripted ScenarioX.threeTurns) 0 m) in
  let resp := snd (run (ScenarioX.scripted ScenarioX.threeTurns) 0 m) in
  exec m tr resp
  ∧ received resp = Answer (Some "x")
  ∧ status resp = 200.
Proof.
  intros m tr resp.
  pose proof (client_reads_response (H := RefHost.host) Scenario.env Scenario.request
                tr resp (run_exec (ScenarioX.scripted ScenarioX.threeTurns) 0%nat m))
    as Hread.
  assert (Hr : received resp = Answer (Some "x")) by (by vm_compute).
  rewrite Hr in Hread.
  split; [exact (run_exec (ScenarioX.scripted ScenarioX.threeTurns) 0%nat m) |].
  split; [exact Hr | exact (proj1 Hread)].
Defined.

(** ** The forwarders *)

Lemma stripSlash_slash (b : string) : stripSlash (b ++ "/") = b.
Proof.
  unfold stripSlash. rewrite endsWith_app.
  apply (dropEnd_app b "/").
Qed.

(** X20. The forwarders reach the same address whether the base URL is
    configured with a slash at its end or without: one slash at the end is
    dropped before [/api/agent] is added, and one only. *)
Theorem target_normalised (b : string) :
  target (b ++ "/") = b ++ "/api/agent"
  ∧ (endsWith b "/" = false -> target b = b ++ "/api/agent")
  ∧ target (b ++ "//") = b ++ "//api/agent".
Proof.
  unfold target. split_and!.
  - by rewrite stripSlash_slash.
  - intros Hno. unfold stripSlash. by rewrite Hno.
  - change "//" with ("/" ++ "/"). rewrite <- append_assoc, stripSlash_slash.
    by rewrite append_assoc.
Qed.







(** ** The forwarders and the key check of the server *)




(** The same key with a space at its end on both sides: the server gets
    the key without the space and answers 401. *)
Example forwarded_key_with_space :
  let env := mkEnv (Some "s3cret ") (Some "amazon.nova-lite-v1:0") None in
  ∃ req,
    arriving (forwardedHeaders (Some "s3cret ")) (req_body Scenario.request) = Some req
    ∧ demoApiKeyHeader req = Some "s3cret"
    ∧ snd (run (Scenario.always Scenario.finalJson) 0 (handler (H := RefHost.host) env req))
      = mkResponse 401 (BodyError "Unauthorized").
Proof. eexists. split; [by vm_compute |]. by vm_compute. Qed.

(** ** index.ts: the origins given to [cors] *)

Lemma splitOnFrom_pieces (c : ascii) (s cur : string) :
  ¬ occurs c cur ->
  Forall (λ piece, ¬ occurs c piece) (splitOnFrom c s cur).
Proof.
  revert cur. induction s as [| x s IH]; intros cur Hcur; cbn.
  - by constructor.
  - destruct (Ascii.eqb x c) eqn:Hx.
    + constructor; [done |]. apply IH. cbn. tauto.
    + apply IH. rewrite occurs_app. cbn. apply Ascii.eqb_neq in Hx. tauto.
Qed.

Lemma occurs_trimStart (c : ascii) (s : string) : occurs c (trimStart s) -> occurs c s.
Proof.
  induction s as [| x s IH]; cbn; [done |].
  destruct (is_space x); cbn; tauto.
Qed.

Lemma occurs_trimEnd (c : ascii) (s : string) : occurs c (trimEnd s) -> occurs c s.
Proof.
  induction s as [| x s IH]; cbn; [done |].
  destruct (trimEnd s) as [| y t].
  - destruct (is_space x); cbn; tauto.
  - cbn in *. tauto.
Qed.

Lemma occurs_trim (c : ascii) (s : string) : occurs c (trim s) -> occurs c s.
Proof. intros Ho. by apply occurs_trimStart, occurs_trimEnd. Qed.

(** X24. The origins given to [cors]: any origin is allowed exactly when
    [CORS_ORIGIN] is unset or empty; otherwise the list holds the entries
    between the commas of the setting, trimmed, without the empty ones:
    each origin is non-empty, has no space at either end and no comma. *)
Theorem cors_origins_clean (CORS_ORIGIN : option string) :
  (corsOrigins CORS_ORIGIN = None <-> nonEmpty CORS_ORIGIN = None)
  ∧ ∀ origins,
      corsOrigins CORS_ORIGIN = Some origins ->
      Forall (λ o, o ≠ EmptyString ∧ trim o = o ∧ ¬ occurs "," o) origins
      ∧ (length origins <= length (splitOn "," (default EmptyString CORS_ORIGIN)))%nat.
Proof.
  unfold corsOrigins.
  destruct (nonEmpty CORS_ORIGIN) as [corsOrigin |] eqn:Hset; [| done].
  split; [done |]. intros origins [= <-].
  assert (Hsame : default EmptyString CORS_ORIGIN = corsOrigin).
  { unfold nonEmpty in Hset. destruct CORS_ORIGIN as [t |]; [| done].
    destruct (String.eqb t EmptyString); [done |]. by injection Hset as ->. }
  split.
  - apply Forall_forall. intros o Ho.
    apply list_elem_of_filter in Ho as [Hne Ho].
    apply list_elem_of_fmap in Ho as (piece & -> & Hpiece).
    split_and!; [done | apply trim_fixed |].
    intros Hcomma. apply occurs_trim in Hcomma.
    pose proof (splitOnFrom_pieces "," corsOrigin EmptyString (λ F, F)) as Hall.
    rewrite Forall_forall in Hall. by apply (Hall piece).
  - rewrite Hsame. etrans; [apply length_filter |]. by rewrite length_map.
Qed.

(** ** routes/agent.ts: the history, read again *)

Lemma omap_trimmed (ms : list value) :
  Forall (λ msg, trim (content msg) = content msg ∧ content msg ≠ EmptyString)
    (omap historyEntry ms).
Proof.
  induction ms as [| m ms IH]; cbn; [constructor |].
  destruct (historyEntry m) as [msg |] eqn:Hm; cbn; [| done].
  constructor; [| done].
  apply historyEntry_valid in Hm as (Hne & c & _ & Hc & _).
  split; [| done]. rewrite Hc. apply trim_fixed.
Qed.

Lemma history_trimmed (body : value) :
  Forall (λ msg, trim (content msg) = content msg ∧ content msg ≠ EmptyString)
    (AgentRoute.history body).
Proof.
  unfold AgentRoute.history. destruct (get body "messages"); try constructor.
  apply arraySliceFrom_Forall, omap_trimmed.
Qed.

(** X25. The history the server keeps is a fixed point of its own
    reading: every kept message has a content that is trimmed and not
    empty, and when the kept messages are posted again as [messages],
    with any goal and context, the server keeps them all, unchanged and in
    the same order. *)
Theorem history_round_trip (body : value) (goal context : string) :
  Forall (λ msg, trim (content msg) = content msg ∧ content msg ≠ EmptyString)
    (AgentRoute.history body)
  ∧ AgentRoute.history (requestBody goal context (AgentRoute.history body))
    = AgentRoute.history body.
Proof.
  pose proof (history_trimmed body) as Hall. split; [done |].
  unfold AgentRoute.history at 1. unfold requestBody. cbn [get lookupField].
  cbn. rewrite objects_kept, omap_messageValue.
  - rewrite arraySliceFrom_short by (rewrite length_map; apply history_length).
    rewrite <- (map_id (AgentRoute.history body)) at 2.
    apply map_ext_Forall. eapply Forall_impl; [exact Hall |].
    intros [r c] [Htrim _]. unfold trimmedMessage. cbn in *. by rewrite Htrim.
  - eapply Forall_impl; [exact Hall |]. intros msg [Htrim Hne]. by rewrite Htrim.
Qed.
